(** * Tail--f: a log tailer with websocket fan-out

    A shallow embedding of [log_watcher.py], [websocket_manager.py] and
    [main.py], and the properties of the reverse line reader, the watcher
    loop and the subscriber registry.

    Conventions.  Python [bytes] and [str] values are lists of integers
    (byte values, resp. Unicode code points).  File offsets and lengths are
    natural numbers; the requested line count [n] is an integer because the
    slice [lines[-n:]] depends on its sign.  A Python exception is an
    explicit outcome of the function that can raise it. *)

From Stdlib Require Import ZArith Lia String Ascii.
From stdpp Require Import base option list gmap sets strings.

#[local] Set Warnings "-clear-no-such-hyp,-abstract-large-number".

Local Open Scope Z_scope.

(** ** Text: the pieces of [bytes] and [str] the program uses *)

Module Text.

Definition bytes := list Z.
Definition str := list Z.

Definition LF : Z := 10.
Definition CR : Z := 13.

(** Literals for examples: the bytes (code points) of an ASCII string. *)
Fixpoint of_string (s : string) : list Z :=
  match s with
  | EmptyString => []
  | String a s' => Z.of_N (N_of_ascii a) :: of_string s'
  end.

Definition is_continuation (b : Z) : bool := (0x80 <=? b) && (b <? 0xC0).

Definition low6 (b : Z) : Z := Z.land b 0x3F.

Definition cp2 (b0 b1 : Z) : Z :=
  Z.lor (Z.shiftl (Z.land b0 0x1F) 6) (low6 b1).
Definition cp3 (b0 b1 b2 : Z) : Z :=
  Z.lor (Z.shiftl (Z.land b0 0x0F) 12) (Z.lor (Z.shiftl (low6 b1) 6) (low6 b2)).
Definition cp4 (b0 b1 b2 b3 : Z) : Z :=
  Z.lor (Z.shiftl (Z.land b0 0x07) 18)
        (Z.lor (Z.shiftl (low6 b1) 12) (Z.lor (Z.shiftl (low6 b2) 6) (low6 b3))).

(** Second byte of a three-byte sequence: a continuation byte that is
    neither an overlong form (lead E0) nor a surrogate (lead ED). *)
Definition second_of_3 (b0 b1 : Z) : bool :=
  is_continuation b1 &&
  negb (if b1 <? 0xA0 then b0 =? 0xE0 else b0 =? 0xED).

(** Second byte of a four-byte sequence: not overlong (lead F0) and not
    above U+10FFFF (lead F4). *)
Definition second_of_4 (b0 b1 : Z) : bool :=
  is_continuation b1 &&
  negb (if b1 <? 0x90 then b0 =? 0xF0 else b0 =? 0xF4).

(** The UTF-8 decoder, one item per decoding step: [Some c] for a decoded
    code point, [None] for a decoding error.  After an error the decoder
    resumes at the first byte that was not part of the rejected prefix; an
    incomplete sequence at the end of the input is one error. *)
Fixpoint utf8_scan (bs : bytes) : list (option Z) :=
  match bs with
  | [] => []
  | b0 :: t0 =>
    if b0 <? 0x80 then Some b0 :: utf8_scan t0
    else if b0 <? 0xC2 then None :: utf8_scan t0
    else if b0 <? 0xE0 then
      match t0 with
      | [] => [None]
      | b1 :: t1 =>
        if is_continuation b1 then Some (cp2 b0 b1) :: utf8_scan t1
        else None :: utf8_scan t0
      end
    else if b0 <? 0xF0 then
      match t0 with
      | [] => [None]
      | b1 :: t1 =>
        if second_of_3 b0 b1 then
          match t1 with
          | [] => [None]
          | b2 :: t2 =>
            if is_continuation b2 then Some (cp3 b0 b1 b2) :: utf8_scan t2
            else None :: utf8_scan t1
          end
        else None :: utf8_scan t0
      end
    else if b0 <? 0xF5 then
      match t0 with
      | [] => [None]
      | b1 :: t1 =>
        if second_of_4 b0 b1 then
          match t1 with
          | [] => [None]
          | b2 :: t2 =>
            if is_continuation b2 then
              match t2 with
              | [] => [None]
              | b3 :: t3 =>
                if is_continuation b3 then
                  Some (cp4 b0 b1 b2 b3) :: utf8_scan t3
                else None :: utf8_scan t2
              end
            else None :: utf8_scan t1
          end
        else None :: utf8_scan t0
      end
    else None :: utf8_scan t0
  end.

(** [bs.decode('utf-8', errors='ignore')]: errors are dropped. *)
Definition decode_ignore (bs : bytes) : str := omap id (utf8_scan bs).

(** Strict decoding, as a text-mode file does: [None] is
    [UnicodeDecodeError]. *)
Definition decode_strict (bs : bytes) : option str := mapM id (utf8_scan bs).

Definition encode_char (c : Z) : option bytes :=
  if c <? 0x80 then Some [c]
  else if c <? 0x800 then
    Some [Z.lor 0xC0 (Z.shiftr c 6); Z.lor 0x80 (low6 c)]
  else if c <? 0x10000 then
    if (0xD800 <=? c) && (c <? 0xE000) then None
    else Some [Z.lor 0xE0 (Z.shiftr c 12);
               Z.lor 0x80 (low6 (Z.shiftr c 6));
               Z.lor 0x80 (low6 c)]
  else
    Some [Z.lor 0xF0 (Z.shiftr c 18);
          Z.lor 0x80 (low6 (Z.shiftr c 12));
          Z.lor 0x80 (low6 (Z.shiftr c 6));
          Z.lor 0x80 (low6 c)].

(** [s.encode('utf-8')]: [None] is [UnicodeEncodeError] (a surrogate). *)
Definition encode (s : str) : option bytes :=
  mjoin <$> mapM encode_char s.

(** [s.split(sep)] for a one-character separator: never empty. *)
Fixpoint split (sep : Z) (s : str) : list str :=
  match s with
  | [] => [[]]
  | c :: s' =>
    if c =? sep then [] :: split sep s'
    else match split sep s' with
         | [] => [[c]]
         | l :: ls => (c :: l) :: ls
         end
  end.

(** [str.isspace] on one character. *)
Definition isspace (c : Z) : bool :=
  ((0x09 <=? c) && (c <=? 0x0D)) || ((0x1C <=? c) && (c <=? 0x20))
  || (c =? 0x85) || (c =? 0xA0) || (c =? 0x1680)
  || ((0x2000 <=? c) && (c <=? 0x200A))
  || (c =? 0x2028) || (c =? 0x2029) || (c =? 0x202F) || (c =? 0x205F)
  || (c =? 0x3000).

Fixpoint lstrip (p : Z -> bool) (s : str) : str :=
  match s with
  | [] => []
  | c :: s' => if p c then lstrip p s' else s
  end.

Definition rstrip (p : Z -> bool) (s : str) : str :=
  reverse (lstrip p (reverse s)).

(** [s.strip()] *)
Definition strip (s : str) : str := rstrip isspace (lstrip isspace s).

(** [s.rstrip('\r\n')] *)
Definition is_crlf (c : Z) : bool := (c =? CR) || (c =? LF).
Definition rstrip_crlf (s : str) : str := rstrip is_crlf s.

(** Truth value of a string or list: non-empty. *)
Definition truthy {A} (l : list A) : bool :=
  match l with [] => false | _ => true end.

(** [l[-n:]]: the last [n] items for positive [n], all of [l] for [n = 0],
    and [l[|n|:]] for negative [n]. *)
Definition last_slice {A} (n : Z) (l : list A) : list A :=
  if 0 <? n then drop (length l - Z.to_nat n)%nat l
  else drop (Z.to_nat (- n)) l.

End Text.

(** ** The file system as the program observes it *)

Module OS.
Import Text.

(** A file: its content and whether [open] succeeds on it. *)
Record inode := { i_data : bytes; i_readable : bool }.

(** A snapshot of the file system: the directory maps a path to an inode
    number ([st_ino]), the inode table maps a number to the file.  An inode
    can outlive its directory entry (a rotated file that is still open). *)
Record filesystem := {
  dir : gmap string Z;
  inodes : gmap Z inode;
}.

(** [os.path.exists(path)] *)
Definition path_exists (fs : filesystem) (path : string) : bool :=
  bool_decide (is_Some (dir fs !! path)).

(** [os.stat(path).st_ino]; [None] is [FileNotFoundError]. *)
Definition stat_ino (fs : filesystem) (path : string) : option Z :=
  dir fs !! path.

(** Content of an inode, empty when the table lacks it. *)
Definition data_of (fs : filesystem) (ino : Z) : bytes :=
  from_option i_data [] (inodes fs !! ino).

(** [os.path.getsize(path)]; [None] is [OSError]. *)
Definition getsize (fs : filesystem) (path : string) : option nat :=
  ino ← dir fs !! path; f ← inodes fs !! ino; Some (length (i_data f)).

(** [open(path, ...)] for reading: the inode number of the opened file, or
    [None] for an [OSError]. *)
Definition open_read (fs : filesystem) (path : string) : option Z :=
  ino ← dir fs !! path; f ← inodes fs !! ino;
  if i_readable f then Some ino else None.

(** A file system with one readable file. *)
Definition single (path : string) (ino : Z) (data : bytes) : filesystem :=
  {| dir := {[ path := ino ]};
     inodes := {[ ino := {| i_data := data; i_readable := true |} ]} |}.

End OS.

(** ** log_watcher.py: the reverse line reader *)

Module ReverseReader.
Import Text OS.

(** The bound on the size of one backward read. *)
Definition CHUNK_LIMIT : nat := Z.to_nat 8192.

Definition nonblank (line : str) : bool := truthy (strip line).

(** The [while] loop of [get_last_lines], on the content [data] of the
    opened file.  [fuel] bounds the number of iterations; [None] is fuel
    exhausted.  An exception raised in the body is caught by the function's
    handler, which returns the empty list. *)
Fixpoint read_back (fuel : nat) (data : bytes) (n : Z) (chunk_size : nat)
    (lines : list str) (buffer : bytes) (pos : nat) : option (list str) :=
  if (Z.of_nat (length lines) <? n) && (0 <? pos)%nat then
    match fuel with
    | O => None
    | S fuel' =>
      let read_size := Nat.min chunk_size pos in
      let pos := (pos - read_size)%nat in
      let buffer := take read_size (drop pos data) ++ buffer in
      let text := decode_ignore buffer in
      let split_lines := split LF text in
      let carried :=
        if (0 <? pos)%nat && (1 <? length split_lines)%nat
        then b ← encode (hd [] split_lines);
             Some (b, tail split_lines ++ lines)
        else Some ([], split_lines ++ lines) in
      match carried with
      | None => Some []
      | Some (buffer, lines) =>
        let lines := List.filter nonblank lines in
        if n <? Z.of_nat (length lines) then Some (last_slice n lines)
        else read_back fuel' data n chunk_size lines buffer pos
      end
    end
  else Some (if truthy lines then last_slice n lines else []).

(** [LogTailWatcher.get_last_lines(n)] for the watcher's [filepath].  The
    loop gets as much fuel as the file has bytes, which is enough for it to
    return (see [reverse_loop_terminates]); the default is never used. *)
Definition get_last_lines (fs : filesystem) (filepath : string) (n : Z)
    : list str :=
  if negb (path_exists fs filepath) then []
  else
    match open_read fs filepath with
    | None => []
    | Some ino =>
      let data := data_of fs ino in
      let file_size := length data in
      if (file_size =? 0)%nat then []
      else default [] (read_back file_size data n
                         (Nat.min CHUNK_LIMIT file_size) [] [] file_size)
    end.

(** The lines the docstring promises, without the chunking: the last [n]
    of the non-blank lines of the whole decoded file. *)
Definition final_lines (data : bytes) (n : Z) : list str :=
  last_slice n (List.filter nonblank (split LF (decode_ignore data))).

End ReverseReader.

(** ** websocket_manager.py: the subscriber registry *)

Module WebSocketManager.
Import Text.

(** A websocket is known by its identity. *)
Definition websocket := nat.

(** The two JSON documents of the wire protocol, before [json.dumps]. *)
Inductive message :=
| Historical (lines : list str)
| Realtime (log_id : string) (text : str).

(** What another task does to the set of connections while a send is
    awaited: the endpoint of a new connection adds its socket, or an
    endpoint, or the clean-up of another publish call, discards one. *)
Inductive change :=
| Connects (ws : websocket)
| Disconnects (ws : websocket).

(** The world around one call of the registry: whether [send_text]
    succeeds on a socket, and what another task does to the set of
    connections while that send is awaited.  A send fails by what happens
    to the connection, not by what is sent, so every call has a network of
    its own.  At most one change per awaited send is modelled: several
    changes that leave the size of the set as it was are outside the
    model, since the iteration of CPython then depends on the layout of
    the hash table. *)
Record network := {
  delivers : websocket -> message -> bool;
  meanwhile : websocket -> message -> option change;
}.
Coercion delivers : network >-> Funclass.

Inductive outcome (A : Type) :=
| Ok (a : A)
| Raised.
Arguments Ok {A} a.
Arguments Raised {A}.

Inductive event :=
| Accept (ws : websocket)
| SendText (ws : websocket) (data : message) (delivered : bool).

(** [await websocket.send_text(data)] *)
Definition send_text (net : network) (ws : websocket) (data : message)
    : outcome unit * list event :=
  if net ws data then (Ok (), [SendText ws data true])
  else (Raised, [SendText ws data false]).

Record manager := { active_connections : gset websocket }.

Definition init : manager := {| active_connections := ∅ |}.

(** [connect]: accept the socket, then add it to the set. *)
Definition connect (ws : websocket) (m : manager) : manager * list event :=
  ({| active_connections := active_connections m ∪ {[ ws ]} |}, [Accept ws]).

(** [disconnect]: [set.discard]. *)
Definition disconnect (ws : websocket) (m : manager) : manager :=
  {| active_connections := active_connections m ∖ {[ ws ]} |}.

(** The set of connections after what another task did. *)
Definition changed (c : option change) (live : gset websocket)
    : gset websocket :=
  match c with
  | Some (Connects ws) => live ∪ {[ ws ]}
  | Some (Disconnects ws) => live ∖ {[ ws ]}
  | None => live
  end.

(** The first loop of [_send_to_all]: the iteration over the live set
    [self.active_connections], with the [try]/[except] around each send
    collecting [to_remove].  [conns] is what is left of the iteration
    order, [used] the size of the set when the iteration began: the set
    iterator raises [RuntimeError] ("Set changed size during iteration")
    when it is asked for the next element, or for the end of the
    iteration, and the set no longer has that size.  The result is the
    live set, [to_remove] unless the iteration raised, and the sends. *)
Fixpoint send_loop (net : network) (data : message) (conns : list websocket)
    (used : nat) (live : gset websocket) (to_remove : gset websocket)
    : gset websocket * option (gset websocket) * list event :=
  if bool_decide (size live = used) then
    match conns with
    | [] => (live, Some to_remove, [])
    | connection :: rest =>
      let '(r, ev) := send_text net connection data in
      let live := changed (meanwhile net connection data) live in
      let to_remove :=
        match r with
        | Ok _ => to_remove
        | Raised => to_remove ∪ {[ connection ]}
        end in
      let '(live, res, ev') := send_loop net data rest used live to_remove in
      (live, res, ev ++ ev')
    end
  else (live, None, []).

(** The second loop: disconnect every collected connection. *)
Definition cleanup (to_remove : list websocket) (m : manager) : manager :=
  foldl (fun m conn => disconnect conn m) m to_remove.

(** [_send_to_all(data)]: the registry after the call, whether the call
    returned or raised the [RuntimeError] of the iteration, and the sends.
    When the iteration raises, the second loop is not reached. *)
Definition _send_to_all (net : network) (data : message) (m : manager)
    : manager * outcome unit * list event :=
  let '(live, res, ev) :=
    send_loop net data (elements (active_connections m))
      (size (active_connections m)) (active_connections m) ∅ in
  match res with
  | Some to_remove =>
    (cleanup (elements to_remove) {| active_connections := live |}, Ok (), ev)
  | None => ({| active_connections := live |}, Raised, ev)
  end.

(** [broadcast(log_id, message)] *)
Definition broadcast (net : network) (log_id : string) (text : str)
    (m : manager) : manager * outcome unit * list event :=
  _send_to_all net (Realtime log_id text) m.

(** [send_historical(websocket, lines)].  Nothing iterates over the set
    here, so what other tasks do to it meanwhile is left out: the result is
    what this call does to the registry. *)
Definition send_historical (net : network) (ws : websocket)
    (lines : list str) (m : manager) : outcome manager * list event :=
  match send_text net ws (Historical lines) with
  | (Ok _, ev) => (Ok m, ev)
  | (Raised, ev) => (Ok (disconnect ws m), ev)
  end.

End WebSocketManager.

(** A network applied to a socket and a message tells whether the send
    succeeds. *)
Coercion WebSocketManager.delivers : WebSocketManager.network >-> Funclass.

(** ** log_watcher.py: the watcher *)

Module Watcher.
Import Text OS.

(** An open text file: the inode it was opened on and the offset in bytes
    at which its next read starts.

    The model of the reader is exact on a part of what the program can
    meet, and the properties below keep to that part.

    - The model holds no text read ahead: a read starts at the offset, in
      the content the inode has when the read is made.  The reader of
      CPython keeps the decoded rest of the chunk it has read, and a read
      that no seek precedes takes that text first.  The two agree when a
      seek precedes the read, and when the read before it reached the end
      of the file as it then was.
    - [tell] is taken for the offset behind the line that was read.
      CPython returns that offset when the line ends in LF or CR LF, or
      without terminator at the end of the file, and the byte behind it is
      not a carriage return ([plain_ahead]); after a line that a lone
      carriage return ends, or with a carriage return behind the line, it
      can return a number above 2^64 that also holds the state of the
      newline decoder. *)
Record handle := { h_ino : Z; h_pos : nat }.

(** Where the coroutine stands between two steps: at the top of the
    [while True] loop, or suspended inside [_wait_for_file] with the local
    variable [rotated] of the interrupted iteration. *)
Inductive control :=
| LoopTop
| InWaitForFile (rotated : bool).

Record watcher := {
  log_id : string;
  filepath : string;
  inode : option Z;
  file : option handle;
  first_open : bool;
  position : nat;
  pc : control;
}.

Definition set_inode (v : option Z) (w : watcher) : watcher :=
  {| log_id := log_id w; filepath := filepath w; inode := v;
     file := file w; first_open := first_open w; position := position w;
     pc := pc w |}.
Definition set_file (v : option handle) (w : watcher) : watcher :=
  {| log_id := log_id w; filepath := filepath w; inode := inode w;
     file := v; first_open := first_open w; position := position w;
     pc := pc w |}.
Definition set_first_open (v : bool) (w : watcher) : watcher :=
  {| log_id := log_id w; filepath := filepath w; inode := inode w;
     file := file w; first_open := v; position := position w;
     pc := pc w |}.
Definition set_position (v : nat) (w : watcher) : watcher :=
  {| log_id := log_id w; filepath := filepath w; inode := inode w;
     file := file w; first_open := first_open w; position := v;
     pc := pc w |}.
Definition set_pc (v : control) (w : watcher) : watcher :=
  {| log_id := log_id w; filepath := filepath w; inode := inode w;
     file := file w; first_open := first_open w; position := position w;
     pc := v |}.

(** [__init__] *)
Definition init (log_id filepath : string) : watcher :=
  {| log_id := log_id; filepath := filepath; inode := None; file := None;
     first_open := true; position := 0%nat; pc := LoopTop |}.

Inductive exn := OSError | UnicodeDecodeError | AttributeError | RuntimeError.

Inductive event :=
| Opened (ino : Z)
| OpenFailed
| Closed (ino : Z)
| Seek (offset : nat)
| Broadcast (log_id : string) (line : str)
| Sleep
| Failed (e : exn).

(** [_open_file]: on success the handle and its inode number are stored,
    on failure both fields are cleared. *)
Definition _open_file (fs : filesystem) (w : watcher)
    : watcher * list event :=
  match open_read fs (filepath w) with
  | Some ino =>
    (set_inode (Some ino) (set_file (Some {| h_ino := ino; h_pos := 0 |}) w),
     [Opened ino])
  | None => (set_inode None (set_file None w), [OpenFailed])
  end.

(** [_is_rotated] *)
Definition _is_rotated (fs : filesystem) (w : watcher) : bool :=
  negb (path_exists fs (filepath w))
  || match inode w, stat_ino fs (filepath w) with
     | Some recorded, Some current => negb (current =? recorded)
     | Some _, None => true
     | None, _ => false
     end.

(** [_close_file]: only the handle is cleared. *)
Definition _close_file (w : watcher) : watcher * list event :=
  match file w with
  | Some h => (set_file None w, [Closed (h_ino h)])
  | None => (w, [])
  end.

(** Length in bytes of the first line of [bs] with its terminator, in
    universal-newlines mode: LF, CR LF and a lone CR all end a line. *)
Fixpoint line_end (bs : bytes) : nat :=
  match bs with
  | [] => 0
  | b :: t =>
    if b =? LF then 1
    else if b =? CR then
      match t with
      | b' :: _ => if b' =? LF then 2 else 1
      | [] => 1
      end
    else S (line_end t)
  end.

(** Newline translation of text mode: CR LF and CR become LF. *)
Fixpoint translate_newlines (s : str) : str :=
  match s with
  | [] => []
  | c :: t =>
    if c =? CR then
      LF :: match t with
            | c' :: t' => if c' =? LF then translate_newlines t'
                          else translate_newlines t
            | [] => []
            end
    else c :: translate_newlines t
  end.

(** [file.readline()] on the handle: the line with its translated
    terminator (without one at end of file, empty at end of file) and the
    handle after the read, or [UnicodeDecodeError].  The model decodes all
    that remains of the file before it looks for the line, as CPython
    decodes the whole chunk it has read; CPython reads at most 8192 bytes
    at a time and holds back an incomplete sequence at the end of a chunk,
    so it can still return a line where the model raises.  When what
    remains of the file decodes, both return the same line; the properties
    below that read a line ask for that. *)
Definition readline (fs : filesystem) (h : handle)
    : option (str * handle) :=
  let rest := drop (h_pos h) (data_of fs (h_ino h)) in
  _ ← decode_strict rest;
  let k := line_end rest in
  line ← decode_strict (take k rest);
  Some (translate_newlines line,
        {| h_ino := h_ino h; h_pos := (h_pos h + k)%nat |}).

Definition seek (offset : nat) (h : handle) : handle :=
  {| h_ino := h_ino h; h_pos := offset |}.

(** The [except Exception] handler of the loop. *)
Definition on_exception (e : exn) (w : watcher) (ev : list event)
    : watcher * list event :=
  let '(w, ev') := _close_file w in
  (w, ev ++ [Failed e] ++ ev' ++ [Sleep]).

(** Lines 117-122: read one line from the handle and publish it, when the
    publish call returns ([read_and_publish_with] below has the call that
    raises). *)
Definition read_and_publish (fs : filesystem) (h : handle) (w : watcher)
    (ev : list event) : watcher * list event :=
  match readline fs h with
  | None => on_exception UnicodeDecodeError (set_file (Some h) w) ev
  | Some (line, h) =>
    let w := set_file (Some h) w in
    if truthy line then
      let line := rstrip_crlf line in
      if truthy line
      then (set_position (h_pos h) w, ev ++ [Broadcast (log_id w) line])
      else (w, ev)
    else (w, ev ++ [Sleep])
  end.

(** Lines 109-122: compare the size with the position, then read. *)
Definition follow (fs : filesystem) (w : watcher) (ev : list event)
    : watcher * list event :=
  match getsize fs (filepath w) with
  | None => on_exception OSError w ev
  | Some size =>
    match file w with
    | None => on_exception AttributeError w ev
    | Some h =>
      if (size <? position w)%nat
      then read_and_publish fs (seek 0 h) (set_position 0 w) (ev ++ [Seek 0])
      else if (position w <? size)%nat
      then read_and_publish fs (seek (position w) h) w
             (ev ++ [Seek (position w)])
      else read_and_publish fs h w ev
    end
  end.

(** Lines 93-107: wait for the path, open it and position the handle.
    While the path is missing the coroutine stays in [_wait_for_file]. *)
Definition wait_and_open (fs : filesystem) (rotated : bool) (w : watcher)
    (ev : list event) : watcher * list event :=
  if negb (path_exists fs (filepath w))
  then (set_pc (InWaitForFile rotated) w, ev ++ [Sleep])
  else
    let '(w, ev') := _open_file fs (set_pc LoopTop w) in
    let ev := ev ++ ev' in
    match file w with
    | None => (w, ev ++ [Sleep])
    | Some h =>
      let '(h, w, ev) :=
        if first_open w
        then let size := length (data_of fs (h_ino h)) in
             (seek size h, set_first_open false w, ev ++ [Seek size])
        else if rotated
        then (seek 0 h, w, ev ++ [Seek 0])
        else (h, w, ev) in
      follow fs (set_position (h_pos h) (set_file (Some h) w)) ev
    end.

(** One step of [watch] on a snapshot of the file system: from the top of
    the loop, or from inside [_wait_for_file], to the end of the iteration
    or to the next wait for the path.  This is the step whose publish
    call, if it makes one, returns; [watch_step] below is the step
    whatever the call does. *)
Definition step (fs : filesystem) (w : watcher) : watcher * list event :=
  match pc w with
  | InWaitForFile rotated => wait_and_open fs rotated w []
  | LoopTop =>
    match file w with
    | None => wait_and_open fs false w []
    | Some _ =>
      if _is_rotated fs w then
        let '(w, ev) := _close_file w in
        wait_and_open fs true w ev
      else follow fs w []
    end
  end.

(** The steps of a watcher along a sequence of snapshots, with everything
    it did. *)
Fixpoint run (fss : list filesystem) (w : watcher) : watcher * list event :=
  match fss with
  | [] => (w, [])
  | fs :: fss' =>
    let '(w, ev) := step fs w in
    let '(w, ev') := run fss' w in
    (w, ev ++ ev')
  end.

(** The lines published by a sequence of events. *)
Definition published (ev : list event) : list str :=
  omap (fun e => match e with Broadcast _ line => Some line | _ => None end) ev.

(** The invariant of the specification's data model: there is a handle
    exactly when there is a recorded inode. *)
Definition handle_iff_identity (w : watcher) : Prop :=
  is_Some (file w) <-> is_Some (inode w).

(** Whether a step ended in the [except] handler. *)
Definition raised (ev : list event) : bool :=
  existsb (fun e => match e with Failed _ => true | _ => false end) ev.

(** *** The loop with its publish call

    [step] is an iteration whose publish call, [await
    manager.broadcast(self.log_id, line)], returns.  Below the call is a
    parameter: [publish] gives what the call does to the state of the
    registry and whether it returns or raises.  When it raises, the
    exception reaches the handler of the loop before the position is
    updated. *)
Section publisher.
Context {S : Type}.
Variable publish : string -> str -> S -> S * WebSocketManager.outcome unit.

(** Lines 117-122. *)
Definition read_and_publish_with (fs : filesystem) (h : handle) (w : watcher)
    (ev : list event) (s : S) : watcher * list event * S :=
  match readline fs h with
  | None => (on_exception UnicodeDecodeError (set_file (Some h) w) ev, s)
  | Some (line, h) =>
    let w := set_file (Some h) w in
    if truthy line then
      let line := rstrip_crlf line in
      if truthy line then
        match publish (log_id w) line s with
        | (s, WebSocketManager.Ok _) =>
          (set_position (h_pos h) w, ev ++ [Broadcast (log_id w) line], s)
        | (s, WebSocketManager.Raised) =>
          (on_exception RuntimeError w (ev ++ [Broadcast (log_id w) line]), s)
        end
      else (w, ev, s)
    else (w, ev ++ [Sleep], s)
  end.

(** Lines 109-122. *)
Definition follow_with (fs : filesystem) (w : watcher) (ev : list event)
    (s : S) : watcher * list event * S :=
  match getsize fs (filepath w) with
  | None => (on_exception OSError w ev, s)
  | Some size =>
    match file w with
    | None => (on_exception AttributeError w ev, s)
    | Some h =>
      if (size <? position w)%nat
      then read_and_publish_with fs (seek 0 h) (set_position 0 w)
             (ev ++ [Seek 0]) s
      else if (position w <? size)%nat
      then read_and_publish_with fs (seek (position w) h) w
             (ev ++ [Seek (position w)]) s
      else read_and_publish_with fs h w ev s
    end
  end.

(** Lines 93-107. *)
Definition wait_and_open_with (fs : filesystem) (rotated : bool)
    (w : watcher) (ev : list event) (s : S) : watcher * list event * S :=
  if negb (path_exists fs (filepath w))
  then (set_pc (InWaitForFile rotated) w, ev ++ [Sleep], s)
  else
    let '(w, ev') := _open_file fs (set_pc LoopTop w) in
    let ev := ev ++ ev' in
    match file w with
    | None => (w, ev ++ [Sleep], s)
    | Some h =>
      let '(h, w, ev) :=
        if first_open w
        then let size := length (data_of fs (h_ino h)) in
             (seek size h, set_first_open false w, ev ++ [Seek size])
        else if rotated
        then (seek 0 h, w, ev ++ [Seek 0])
        else (h, w, ev) in
      follow_with fs (set_position (h_pos h) (set_file (Some h) w)) ev s
    end.

(** One step of [watch], whatever its publish call does. *)
Definition watch_step (fs : filesystem) (w : watcher) (s : S)
    : watcher * list event * S :=
  match pc w with
  | InWaitForFile rotated => wait_and_open_with fs rotated w [] s
  | LoopTop =>
    match file w with
    | None => wait_and_open_with fs false w [] s
    | Some _ =>
      if _is_rotated fs w then
        let '(w, ev) := _close_file w in
        wait_and_open_with fs true w ev s
      else follow_with fs w [] s
    end
  end.

End publisher.

(** The states a watcher can be in between two steps, whatever its publish
    calls did. *)
Inductive reachable (log_id filepath : string) : watcher -> Prop :=
| reachable_init : reachable log_id filepath (init log_id filepath)
| reachable_step fs w :
    reachable log_id filepath w ->
    reachable log_id filepath (step fs w).1
| reachable_watch_step (S : Type)
    (publish : string -> str -> S -> S * WebSocketManager.outcome unit)
    fs w s :
    reachable log_id filepath w ->
    reachable log_id filepath (watch_step publish fs w s).1.1.

End Watcher.

(** ** main.py: the websocket endpoint *)

Module Main.
Import Text OS WebSocketManager.

Inductive event :=
| Connection (e : WebSocketManager.event)
| Added (ws : websocket).

(** [f"[{log_id}] {line}"] *)
Definition label (log_id : string) (line : str) : str :=
  of_string "[" ++ of_string log_id ++ of_string "] " ++ line.

(** The loop over [LOG_FILES.items()]: five lines per log. *)
Definition historical_lines (LOG_FILES : list (string * string))
    (fs : filesystem) : list str :=
  mjoin (List.map (fun '(log_id, filepath) =>
                     List.map (label log_id)
                       (ReverseReader.get_last_lines fs filepath 5))
                  LOG_FILES).

(** [websocket_endpoint] up to its receive loop.  [LOG_FILES] is the
    mapping of [config.py], in iteration order.  A failing send of the
    historical message is not caught here. *)
Definition websocket_endpoint (LOG_FILES : list (string * string))
    (fs : filesystem) (net : network) (ws : websocket) (m : manager)
    : manager * outcome unit * list event :=
  let '(m, ev) := connect ws m in
  let ev := List.map Connection ev ++ [Added ws] in
  let lines := historical_lines LOG_FILES fs in
  if truthy lines then
    let '(r, ev') := send_text net ws (Historical lines) in
    (m, r, ev ++ List.map Connection ev')
  else (m, Ok (), ev).


(** What [await websocket.receive_text()] gives the endpoint: a text
    frame, the [WebSocketDisconnect] of a closed connection, or another
    exception of the framework. *)
Inductive received :=
| Frame (text : str)
| WebSocketDisconnect
| OtherError.

(** The receive loop of [websocket_endpoint] and its handler, on what the
    socket gives in order: text is dropped, [WebSocketDisconnect] is caught
    and the socket discarded, any other exception leaves the loop
    uncaught.  [None] is a loop that waits for its next frame. *)
Fixpoint receive_loop (frames : list received) (ws : websocket)
    (m : manager) : manager * option (outcome unit) :=
  match frames with
  | [] => (m, None)
  | Frame _ :: frames' => receive_loop frames' ws m
  | WebSocketDisconnect :: _ => (disconnect ws m, Some (Ok ()))
  | OtherError :: _ => (m, Some Raised)
  end.

(** [websocket_endpoint] from the connection to its end: the receive loop
    is entered only when the historical send did not raise. *)
Definition websocket_session (LOG_FILES : list (string * string))
    (fs : filesystem) (net : network) (ws : websocket)
    (frames : list received) (m : manager)
    : manager * option (outcome unit) * list event :=
  match websocket_endpoint LOG_FILES fs net ws m with
  | (m, Ok _, ev) => let '(m, r) := receive_loop frames ws m in (m, r, ev)
  | (m, Raised, ev) => (m, Some Raised, ev)
  end.

(** [startup_event]: one watcher per entry of [LOG_FILES]. *)
Definition startup_event (LOG_FILES : list (string * string))
    : list Watcher.watcher :=
  List.map (fun '(log_id, filepath) => Watcher.init log_id filepath)
           LOG_FILES.

End Main.

(** ** The watchers and the registry together *)

Module App.
Import Text WebSocketManager.

(** Line 119 of [log_watcher.py], [await manager.broadcast(self.log_id,
    line)], on the registry and the record of what was sent so far. *)
Definition publish (net : network) (log_id : string) (line : str)
    (r : manager * list event) : (manager * list event) * outcome unit :=
  let '(m, out, sent) := broadcast net log_id line r.1 in
  ((m, r.2 ++ sent), out).

(** One step of a watcher with the registry, in a world of its own: the
    network of its publish call and the snapshot of the file system. *)
Definition watch_step (world : network * OS.filesystem)
    (w : Watcher.watcher) (r : manager * list event)
    : Watcher.watcher * list Watcher.event * (manager * list event) :=
  Watcher.watch_step (publish world.1) world.2 w r.

(** The steps of a watcher with the registry along a sequence of worlds:
    the watcher and its trace, the registry and all that was sent. *)
Fixpoint watch (worlds : list (network * OS.filesystem))
    (w : Watcher.watcher) (r : manager * list event)
    : Watcher.watcher * list Watcher.event * (manager * list event) :=
  match worlds with
  | [] => (w, [], r)
  | world :: worlds' =>
    let '(w, ev, r) := watch_step world w r in
    let '(w, ev', r) := watch worlds' w r in
    (w, ev ++ ev', r)
  end.

(** A sequence of publish calls [manager.broadcast(log_id, line)],
    whichever watchers make them, each with the network of its own: the
    registry after the last call and all that was sent.  A call that
    raises ends the iteration of its watcher, not the other calls. *)
Fixpoint broadcasts (calls : list (network * (string * str))) (m : manager)
    : manager * list event :=
  match calls with
  | [] => (m, [])
  | (net, (log_id, line)) :: calls' =>
    let '(m, _, sent) := broadcast net log_id line m in
    let '(m, sent') := broadcasts calls' m in
    (m, sent ++ sent')
  end.

End App.

(** ** Concrete files and watchers used below *)

Module Examples.
Import Text OS Watcher.

Definition app_log : string := "app.log".

(** The watcher of [app.log], before its first step. *)
Definition fresh : watcher := init "app" app_log.

(** [app.log] is inode 7 and holds [data]. *)
Definition holding (data : string) : filesystem :=
  single app_log 7 (of_string data).

(** A file of two lines, and the watcher after its first step on it:
    following, at offset 8. *)
Definition two_lines : filesystem := holding "one
two
".
Definition tailing : watcher := (step two_lines fresh).1.

Definition whole_line : filesystem := holding "one
two
three
".

(** The file cut down to nothing and written again, starting with an
    empty line. *)
Definition rewritten : filesystem := holding "
later
".

(** The file grew by an empty line and a line behind it. *)
Definition blank_appended : filesystem := holding "one
two

more
".

(** The file cut down in place to its first line. *)
Definition cut_down : filesystem := holding "one
".



(** [app.log] is gone. *)
Definition missing : filesystem := {| dir := ∅; inodes := ∅ |}.

(** One line of 8193 letters behind a short line: 8195 bytes, so the first
    backward read of 8192 bytes starts inside the long line. *)
Definition long_line : bytes :=
  of_string "b" ++ [LF] ++ replicate (Z.to_nat 8193) 120.

(** Two thousand short lines: 10000 bytes, read backwards in two chunks. *)
Definition many_lines : bytes :=
  mjoin (replicate 2000 (of_string "line
")).


(** A network on which every send succeeds, and one on which every send
    fails; no other task touches the set of connections meanwhile. *)
Definition reliable : WebSocketManager.network :=
  {| WebSocketManager.delivers := fun _ _ => true;
     WebSocketManager.meanwhile := fun _ _ => None |}.
Definition broken : WebSocketManager.network :=
  {| WebSocketManager.delivers := fun _ _ => false;
     WebSocketManager.meanwhile := fun _ _ => None |}.

(** [app.log] replaced by a new file, inode 9. *)
Definition replaced : filesystem := single app_log 9 (of_string "new
").


(** A file of two lines that end in CR LF. *)
Definition crlf_log : filesystem :=
  single app_log 7
    (of_string "one" ++ [CR; LF] ++ of_string "two" ++ [CR; LF]).

(** Two thousand lines that start with a two-byte character: 10000 bytes,
    read backwards in two chunks, the second of which starts between two
    characters. *)
Definition accented_lines : bytes :=
  mjoin (replicate 2000 ([0xC3; 0xA9] ++ of_string "ab
")).

End Examples.

(** ** Notions used in the statements *)

Section notions.
Import Text OS.

(** A byte or character that does not end a line. *)
Definition inline (c : Z) : Prop := c <> LF /\ c <> CR.

(** Bytes below 128. *)
Definition ascii (l : list Z) : Prop := Forall (fun b => b < 128) l.

(** [l] is the content of a non-empty line, without its terminator, and
    decodes to [s]. *)
Definition plain_line (l : bytes) (s : str) : Prop :=
  Forall inline l /\ l <> [] /\ decode_strict l = Some s.

(** What lies behind a line that was read does not begin with a carriage
    return.  [tell] then gives the byte offset behind the line; with a
    carriage return there CPython can give a number above 2^64, which also
    holds the state of the newline decoder. *)
Definition plain_ahead (rest : bytes) : Prop := forall r, rest <> CR :: r.

(** The bytes of a sequence of LF-terminated lines. *)
Definition enc_lines (ls : list bytes) : bytes :=
  mjoin (List.map (fun l => l ++ [LF]) ls).

(** The path [p] names the readable inode [i], which holds [data]. *)
Definition serves (fs : filesystem) (p : string) (i : Z) (data : bytes)
    : Prop :=
  dir fs !! p = Some i
  /\ inodes fs !! i = Some {| i_data := data; i_readable := true |}.

(** The followed file has a line terminator at offset [q], and what comes
    after it decodes. *)
Definition blank_at (fs : filesystem) (p : string) (i : Z) (q : nat) : Prop :=
  exists data b r t,
    serves fs p i data /\ drop q data = b :: r
    /\ (b = LF \/ b = CR) /\ decode_strict r = Some t.

(** Every snapshot serves [data] followed by something that decodes; one
    snapshot per element of [xs]. *)
Definition all_serve {A} (fss : list filesystem) (xs : list A) (p : string)
    (i : Z) (data : bytes) : Prop :=
  Forall2 (fun fs _ => exists tail t,
             serves fs p i (data ++ tail) /\ decode_strict tail = Some t)
          fss xs.

(** The followed file over a sequence of polls: at each poll the path
    serves [data] and, behind it, the first [k] of the lines [ls]; [k]
    starts from [k0], never decreases, and [ks] gives it for each poll. *)
Fixpoint grows (p : string) (i : Z) (data : bytes) (ls : list bytes)
    (k0 : nat) (fss : list filesystem) (ks : list nat) : Prop :=
  match fss, ks with
  | [], [] => True
  | fs :: fss', k :: ks' =>
    (k0 <= k <= length ls)%nat
    /\ serves fs p i (data ++ enc_lines (take k ls))
    /\ grows p i data ls k fss' ks'
  | _, _ => False
  end.

(** The number of lines read after the polls [ks] when [c] were read
    before them: a poll reads one more line when the file holds more
    lines than were read. *)
Fixpoint polled (c : nat) (ks : list nat) : nat :=
  match ks with
  | [] => c
  | k :: ks' => polled (if (c <? k)%nat then S c else c) ks'
  end.
(** What one send leaves in the trace. *)
Definition attempt (net : WebSocketManager.network)
    (data : WebSocketManager.message) (c : WebSocketManager.websocket)
    : WebSocketManager.event :=
  WebSocketManager.SendText c data (net c data).

(** No other task touches the set of connections while a send of the
    call is awaited. *)
Definition quiet (net : WebSocketManager.network) : Prop :=
  forall c data, WebSocketManager.meanwhile net c data = None.

(** All the non-blank lines of a file. *)
Definition all_lines (data : bytes) : list str :=
  List.filter ReverseReader.nonblank (split LF (decode_ignore data)).

(** The state at the head of the reverse loop: what lies behind [pos] is
    the carried fragment and, behind a separator, the text whose non-blank
    lines are [lines]. *)
Definition loop_state (data : bytes) (lines : list str) (buffer : bytes)
    (pos : nat) : Prop :=
  (pos <= length data)%nat
  /\ exists rest,
       drop pos data = buffer ++ rest
       /\ ((rest = [] /\ lines = [])
           \/ exists text, rest = LF :: text
                /\ lines = List.filter ReverseReader.nonblank
                             (split LF text)).

Import Watcher.

(** While a handle is open, the recorded inode is the handle's, the first
    open is past and the coroutine is not waiting for the path. *)
Definition consistent (w : watcher) : Prop :=
  match file w with
  | Some h => inode w = Some (h_ino h) /\ first_open w = false /\ pc w = LoopTop
  | None => True
  end.

(** The watcher after its first successful open of inode [i], of [size]
    bytes. *)
Definition opened_at_end (l p : string) (i : Z) (size : nat) : watcher :=
  {| log_id := l; filepath := p; inode := Some i;
     file := Some {| h_ino := i; h_pos := size |};
     first_open := false; position := size; pc := LoopTop |}.

(** The watcher right after an open that sought nowhere. *)
Definition reopened (l p : string) (i : Z) : watcher :=
  {| log_id := l; filepath := p; inode := Some i;
     file := Some {| h_ino := i; h_pos := 0 |};
     first_open := false; position := 0; pc := LoopTop |}.

(** A well-formed UTF-8 sequence and the code point it stands for, as the
    decoder accepts them. *)
Inductive valid_seq : Text.bytes -> Z -> Prop :=
| valid_1 b0 : b0 < 0x80 -> valid_seq [b0] b0
| valid_2 b0 b1 :
    0xC2 <= b0 < 0xE0 -> Text.is_continuation b1 = true ->
    valid_seq [b0; b1] (Text.cp2 b0 b1)
| valid_3 b0 b1 b2 :
    0xE0 <= b0 < 0xF0 -> Text.second_of_3 b0 b1 = true ->
    Text.is_continuation b2 = true ->
    valid_seq [b0; b1; b2] (Text.cp3 b0 b1 b2)
| valid_4 b0 b1 b2 b3 :
    0xF0 <= b0 < 0xF5 -> Text.second_of_4 b0 b1 = true ->
    Text.is_continuation b2 = true -> Text.is_continuation b3 = true ->
    valid_seq [b0; b1; b2; b3] (Text.cp4 b0 b1 b2 b3).

(** One step of the decoder: it consumes a valid sequence, or it rejects a
    non-empty prefix and resumes behind it. *)
Definition scan_step (bs : Text.bytes) : Prop :=
  (exists seq c rest,
      bs = seq ++ rest /\ valid_seq seq c
      /\ Text.utf8_scan bs = Some c :: Text.utf8_scan rest)
  \/ (exists junk rest,
        bs = junk ++ rest /\ junk <> []
        /\ Text.utf8_scan bs = None :: Text.utf8_scan rest).

(** An event of the watcher with the log id [id]: a published line
    carries that id, is not empty and holds no line terminator. *)
Definition labelled (id : string) (e : Watcher.event) : Prop :=
  match e with
  | Watcher.Broadcast l line => l = id /\ line <> [] /\ Forall inline line
  | _ => True
  end.


(** What was sent to the socket [c], in order, and whether each send
    succeeded. *)
Definition attempts (c : WebSocketManager.websocket)
    (sent : list WebSocketManager.event)
    : list (WebSocketManager.message * bool) :=
  omap (fun e =>
          match e with
          | WebSocketManager.SendText c' data ok =>
            if decide (c' = c) then Some (data, ok) else None
          | _ => None
          end) sent.

(** What a socket is sent over a sequence of publish calls, each with the
    network of its own: the messages up to and including the first one
    whose send to [c] fails. *)
Fixpoint until_failure (c : WebSocketManager.websocket)
    (calls : list (WebSocketManager.network * (string * Text.str)))
    : list (WebSocketManager.message * bool) :=
  match calls with
  | [] => []
  | (net, (log_id, line)) :: calls' =>
    let data := WebSocketManager.Realtime log_id line in
    if WebSocketManager.delivers net c data
    then (data, true) :: until_failure c calls'
    else [(data, false)]
  end.

(** The send of a publish call to the socket [c] succeeds. *)
Definition reaches (c : WebSocketManager.websocket)
    (call : WebSocketManager.network * (string * Text.str)) : Prop :=
  WebSocketManager.delivers call.1 c
    (WebSocketManager.Realtime call.2.1 call.2.2) = true.

(** The bytes of a sequence of lines that end in CR LF. *)
Definition enc_crlf_lines (ls : list Text.bytes) : Text.bytes :=
  mjoin (List.map (fun l => l ++ [Text.CR; Text.LF]) ls).

(** A line as the backlog returns it: no line feed inside, and a
    character that is not white space. *)
Definition entry (line : Text.str) : Prop :=
  (Text.LF ∉ line) /\ Exists (fun c => Text.isspace c = false) line.

(** The state at the head of the reverse loop on a file of UTF-8 text:
    what lies behind [pos] is the carried fragment and, behind a line
    feed, bytes whose text has the non-blank lines [lines]. *)
Definition loop_state_utf8 (data : Text.bytes) (lines : list Text.str)
    (buffer : Text.bytes) (pos : nat) : Prop :=
  (pos <= length data)%nat
  /\ exists rest,
       drop pos data = buffer ++ rest
       /\ ((rest = [] /\ lines = [])
           \/ exists bs text,
                rest = Text.LF :: bs /\ Text.decode_strict bs = Some text
                /\ lines = List.filter ReverseReader.nonblank
                             (Text.split Text.LF text)).

(** What one iteration of the watch loop can come to: one line published,
    no sleep and no exception; a sleep and nothing published; neither,
    after a read that returned a bare line feed; or a publish call that
    raised, which the handler of the loop answers by closing the file and
    sleeping. *)
Definition iteration (fs : OS.filesystem)
    (r : Watcher.watcher * list Watcher.event) : Prop :=
  (exists line,
      Watcher.published r.2 = [line] /\ (Watcher.Sleep ∉ r.2)
      /\ Watcher.raised r.2 = false)
  \/ (Watcher.published r.2 = [] /\ (Watcher.Sleep ∈ r.2))
  \/ (Watcher.published r.2 = [] /\ (Watcher.Sleep ∉ r.2)
      /\ exists h h',
           Watcher.readline fs h = Some ([Text.LF], h')
           /\ Watcher.file r.1 = Some h')
  \/ (exists line,
        Watcher.published r.2 = [line]
        /\ (Watcher.Failed Watcher.RuntimeError ∈ r.2)
        /\ (Watcher.Sleep ∈ r.2) /\ Watcher.file r.1 = None).

(** A trace in which nothing was published, no sleep was taken and no
    exception was raised. *)
Definition calm (ev : list Watcher.event) : Prop :=
  Watcher.published ev = [] /\ (Watcher.Sleep ∉ ev)
  /\ Watcher.raised ev = false.

End notions.

(** * Properties *)

(** ** Text *)

Section text_lemmas.
Import Text.

Lemma utf8_scan_app_le (n : nat) (l r : bytes) :
  (length l <= n)%nat ->
  Forall is_Some (utf8_scan l) ->
  utf8_scan (l ++ r) = utf8_scan l ++ utf8_scan r.
Proof.
  revert l. induction n as [|n IH]; intros l Hn.
  - destruct l; [reflexivity|simpl in Hn; lia].
  - destruct l as [|b0 t0]; [reflexivity|]. simpl in Hn.
    assert (Hcons : forall (o : option Z) (t : bytes),
               (length t <= n)%nat ->
               Forall is_Some (o :: utf8_scan t) ->
               o :: utf8_scan (t ++ r) = (o :: utf8_scan t) ++ utf8_scan r).
    { intros o t Ht Hall. simpl. f_equal. apply IH; [exact Ht|].
      inversion Hall; assumption. }
    assert (Hnone : forall t : list (option Z), Forall is_Some (None :: t) -> False).
    { intros t Hall. inversion Hall as [|? ? [x Hx] ?]. discriminate. }
    simpl.
    destruct (b0 <? 128); [apply Hcons; lia|].
    destruct (b0 <? 194); [intros H; destruct (Hnone _ H)|].
    destruct (b0 <? 224).
    { destruct t0 as [|b1 t1]; simpl; [intros H; destruct (Hnone _ H)|].
      simpl in Hn.
      destruct (is_continuation b1); [apply Hcons; lia|].
      intros H; destruct (Hnone _ H). }
    destruct (b0 <? 240).
    { destruct t0 as [|b1 t1]; simpl; [intros H; destruct (Hnone _ H)|].
      simpl in Hn.
      destruct (second_of_3 b0 b1); [|intros H; destruct (Hnone _ H)].
      destruct t1 as [|b2 t2]; simpl; [intros H; destruct (Hnone _ H)|].
      simpl in Hn.
      destruct (is_continuation b2); [apply Hcons; lia|].
      intros H; destruct (Hnone _ H). }
    destruct (b0 <? 245); [|intros H; destruct (Hnone _ H)].
    destruct t0 as [|b1 t1]; simpl; [intros H; destruct (Hnone _ H)|].
    simpl in Hn.
    destruct (second_of_4 b0 b1); [|intros H; destruct (Hnone _ H)].
    destruct t1 as [|b2 t2]; simpl; [intros H; destruct (Hnone _ H)|].
    simpl in Hn.
    destruct (is_continuation b2); [|intros H; destruct (Hnone _ H)].
    destruct t2 as [|b3 t3]; simpl; [intros H; destruct (Hnone _ H)|].
    simpl in Hn.
    destruct (is_continuation b3); [apply Hcons; lia|].
    intros H; destruct (Hnone _ H).
Qed.


Lemma utf8_scan_app (l r : bytes) :
  Forall is_Some (utf8_scan l) ->
  utf8_scan (l ++ r) = utf8_scan l ++ utf8_scan r.
Proof. apply (utf8_scan_app_le (length l)). lia. Qed.

Lemma decode_strict_Some (l : bytes) (s : str) :
  decode_strict l = Some s <-> utf8_scan l = List.map Some s.
Proof.
  unfold decode_strict. split.
  - intros H. apply mapM_Some_1 in H.
    induction H as [|x y xs ys Hxy _ IH]; simpl; [reflexivity|].
    unfold id in Hxy. subst x. f_equal. exact IH.
  - intros ->. apply mapM_Some_2.
    induction s; constructor; [reflexivity|assumption].
Qed.

Lemma decode_strict_app (l r : bytes) (s t : str) :
  decode_strict l = Some s -> decode_strict r = Some t ->
  decode_strict (l ++ r) = Some (s ++ t).
Proof.
  rewrite !decode_strict_Some. intros Hl Hr.
  rewrite utf8_scan_app.
  - rewrite Hl, Hr, List.map_app. reflexivity.
  - rewrite Hl. apply Forall_forall. intros o Ho.
    apply list_elem_of_In, in_map_iff in Ho. destruct Ho as (c & <- & _). eexists; reflexivity.
Qed.

Lemma decode_strict_ascii (b : Z) (r : bytes) (t : str) :
  b < 128 -> decode_strict r = Some t -> decode_strict (b :: r) = Some (b :: t).
Proof.
  rewrite !decode_strict_Some. intros Hb Hr. simpl.
  destruct (Z.ltb_spec b 128); [|lia]. rewrite Hr. reflexivity.
Qed.

Lemma lstrip_id (p : Z -> bool) (s : str) :
  Forall (fun c => p c = false) s -> lstrip p s = s.
Proof. destruct 1 as [|c s Hc _]; simpl; [reflexivity|]. rewrite Hc. reflexivity. Qed.

Lemma inline_not_crlf (c : Z) : inline c -> is_crlf c = false.
Proof.
  unfold inline, is_crlf, LF, CR. intros [H1 H2].
  destruct (Z.eqb_spec c 13), (Z.eqb_spec c 10); simpl; congruence.
Qed.

Lemma rstrip_crlf_inline (s : str) :
  Forall inline s -> rstrip_crlf s = s.
Proof.
  intros Hs. unfold rstrip_crlf, rstrip. rewrite lstrip_id.
  - apply reverse_involutive.
  - apply Forall_reverse. eapply Forall_impl; [exact Hs|]. apply inline_not_crlf.
Qed.

Lemma rstrip_crlf_line (s : str) :
  Forall inline s -> rstrip_crlf (s ++ [LF]) = s.
Proof.
  intros Hs. unfold rstrip_crlf, rstrip. rewrite reverse_snoc. simpl.
  change (is_crlf LF) with true. simpl.
  apply (rstrip_crlf_inline s Hs).
Qed.


Lemma lor_ge_l (a b : Z) : 0 <= b -> a <= Z.lor a b.
Proof.
  intros Hb. pose proof (Z.sub_lor_l_same_l b a) as H.
  assert (0 <= Z.land b (Z.lnot a)) by (apply Z.land_nonneg; left; exact Hb).
  lia.
Qed.

Lemma lor_ge_r (a b : Z) : 0 <= a -> b <= Z.lor a b.
Proof. intros Ha. rewrite Z.lor_comm. apply lor_ge_l, Ha. Qed.

Lemma low6_nonneg (b : Z) : 0 <= low6 b.
Proof. unfold low6. apply Z.land_nonneg. right. lia. Qed.

Lemma cp2_large (b0 b1 : Z) : 194 <= b0 < 224 -> 128 <= cp2 b0 b1.
Proof.
  intros Hb. unfold cp2.
  etransitivity; [|apply lor_ge_l, low6_nonneg].
  rewrite Z.shiftl_mul_pow2 by lia.
  change 31 with (Z.ones 5). rewrite Z.land_ones by lia.
  change (2 ^ 5) with 32. change (2 ^ 6) with 64.
  Z.div_mod_to_equations. lia.
Qed.

Lemma cp3_large (b0 b1 b2 : Z) :
  224 <= b0 < 240 -> second_of_3 b0 b1 = true -> 128 <= cp3 b0 b1 b2.
Proof.
  intros Hb H. unfold second_of_3, is_continuation in H.
  apply andb_prop in H as [Hc H]. apply andb_prop in Hc as [Hc1 Hc2].
  apply Z.leb_le in Hc1. apply Z.ltb_lt in Hc2.
  unfold cp3.
  assert (Hl : 0 <= Z.shiftl (low6 b1) 6).
  { apply Z.shiftl_nonneg, low6_nonneg. }
  assert (Hh : 0 <= Z.shiftl (Z.land b0 15) 12).
  { apply Z.shiftl_nonneg, Z.land_nonneg. right. lia. }
  destruct (Z.eq_dec b0 224) as [->|Hne].
  - destruct (Z.ltb_spec b1 160); [discriminate|].
    etransitivity; [|apply lor_ge_r, Hh].
    etransitivity; [|apply lor_ge_l, low6_nonneg].
    rewrite Z.shiftl_mul_pow2 by lia. unfold low6.
    change 63 with (Z.ones 6). rewrite Z.land_ones by lia.
    change (2 ^ 6) with 64. Z.div_mod_to_equations. lia.
  - etransitivity; [|apply lor_ge_l].
    + rewrite Z.shiftl_mul_pow2 by lia.
      change 15 with (Z.ones 4). rewrite Z.land_ones by lia.
      change (2 ^ 4) with 16. change (2 ^ 12) with 4096.
      Z.div_mod_to_equations. lia.
    + apply Z.lor_nonneg. split; [exact Hl|apply low6_nonneg].
Qed.

Lemma cp4_large (b0 b1 b2 b3 : Z) :
  240 <= b0 < 245 -> second_of_4 b0 b1 = true -> 128 <= cp4 b0 b1 b2 b3.
Proof.
  intros Hb H. unfold second_of_4, is_continuation in H.
  apply andb_prop in H as [Hc H]. apply andb_prop in Hc as [Hc1 Hc2].
  apply Z.leb_le in Hc1. apply Z.ltb_lt in Hc2.
  unfold cp4.
  assert (Hl : 0 <= Z.lor (Z.shiftl (low6 b2) 6) (low6 b3)).
  { apply Z.lor_nonneg. split; [apply Z.shiftl_nonneg|]; apply low6_nonneg. }
  assert (Hh : 0 <= Z.shiftl (Z.land b0 7) 18).
  { apply Z.shiftl_nonneg, Z.land_nonneg. right. lia. }
  destruct (Z.eq_dec b0 240) as [->|Hne].
  - destruct (Z.ltb_spec b1 144); [discriminate|].
    etransitivity; [|apply lor_ge_r, Hh].
    etransitivity; [|apply lor_ge_l, Hl].
    rewrite Z.shiftl_mul_pow2 by lia. unfold low6.
    change 63 with (Z.ones 6). rewrite Z.land_ones by lia.
    change (2 ^ 6) with 64. change (2 ^ 12) with 4096.
    Z.div_mod_to_equations. lia.
  - etransitivity; [|apply lor_ge_l].
    + rewrite Z.shiftl_mul_pow2 by lia.
      change 7 with (Z.ones 3). rewrite Z.land_ones by lia.
      change (2 ^ 3) with 8. change (2 ^ 18) with 262144.
      Z.div_mod_to_equations. lia.
    + apply Z.lor_nonneg. split; [apply Z.shiftl_nonneg, low6_nonneg|exact Hl].
Qed.

Lemma inline_large (c : Z) : 128 <= c -> inline c.
Proof. unfold inline, LF, CR. lia. Qed.

(** Decoding never produces a line terminator out of other bytes. *)
Lemma utf8_scan_inline_le (n : nat) (l : bytes) :
  (length l <= n)%nat ->
  Forall inline l ->
  Forall (fun o => forall c, o = Some c -> inline c) (utf8_scan l).
Proof.
  revert l. induction n as [|n IH]; intros l Hn Hl.
  - destruct l; [constructor|simpl in Hn; lia].
  - destruct l as [|b0 t0]; [constructor|]. simpl in Hn.
    assert (Hnone : forall t : bytes, (length t <= n)%nat -> Forall inline t ->
               Forall (fun o => forall c, o = Some c -> inline c)
                      (None :: utf8_scan t)).
    { intros t Ht Hall. constructor; [discriminate|]. apply IH; assumption. }
    assert (Hsome : forall (c : Z) (t : bytes), inline c ->
               (length t <= n)%nat -> Forall inline t ->
               Forall (fun o => forall c, o = Some c -> inline c)
                      (Some c :: utf8_scan t)).
    { intros c t Hc Ht Hall. constructor; [|apply IH; assumption].
      intros c' [= <-]. exact Hc. }
    assert (Hone : Forall (fun o : option Z => forall c, o = Some c -> inline c) [None]).
    { constructor; [discriminate|constructor]. }
    inversion Hl as [|? ? Hb0 Ht0]; subst.
    simpl.
    destruct (b0 <? 128); [apply Hsome; [assumption|lia|assumption]|].
    destruct (Z.ltb_spec b0 194); [apply Hnone; [lia|assumption]|].
    destruct (Z.ltb_spec b0 224).
    { destruct t0 as [|b1 t1]; [exact Hone|]. simpl in Hn.
      inversion Ht0 as [|? ? Hb1 Ht1]; subst.
      destruct (is_continuation b1).
      - apply Hsome; [apply inline_large, cp2_large; lia|lia|assumption].
      - apply Hnone; [simpl; lia|assumption]. }
    destruct (Z.ltb_spec b0 240).
    { destruct t0 as [|b1 t1]; [exact Hone|]. simpl in Hn.
      inversion Ht0 as [|? ? Hb1 Ht1]; subst.
      destruct (second_of_3 b0 b1) eqn:H3; [|apply Hnone; [simpl; lia|assumption]].
      destruct t1 as [|b2 t2]; [exact Hone|]. simpl in Hn.
      inversion Ht1 as [|? ? Hb2 Ht2]; subst.
      destruct (is_continuation b2).
      - apply Hsome; [apply inline_large, cp3_large; [lia|exact H3]|lia|assumption].
      - apply Hnone; [simpl; lia|assumption]. }
    destruct (Z.ltb_spec b0 245); [|apply Hnone; [lia|assumption]].
    destruct t0 as [|b1 t1]; [exact Hone|]. simpl in Hn.
    inversion Ht0 as [|? ? Hb1 Ht1]; subst.
    destruct (second_of_4 b0 b1) eqn:H4; [|apply Hnone; [simpl; lia|assumption]].
    destruct t1 as [|b2 t2]; [exact Hone|]. simpl in Hn.
    inversion Ht1 as [|? ? Hb2 Ht2]; subst.
    destruct (is_continuation b2); [|apply Hnone; [simpl; lia|assumption]].
    destruct t2 as [|b3 t3]; [exact Hone|]. simpl in Hn.
    inversion Ht2 as [|? ? Hb3 Ht3]; subst.
    destruct (is_continuation b3).
    + apply Hsome; [apply inline_large, cp4_large; [lia|exact H4]|lia|assumption].
    + apply Hnone; [simpl; lia|assumption].
Qed.

Lemma decode_strict_inline (l : bytes) (s : str) :
  Forall inline l -> decode_strict l = Some s -> Forall inline s.
Proof.
  intros Hl Hs. apply decode_strict_Some in Hs.
  pose proof (utf8_scan_inline_le (length l) l (le_n _) Hl) as H.
  rewrite Hs in H. apply Forall_forall. intros c Hc.
  rewrite Forall_forall in H. apply (H (Some c)); [|reflexivity].
  apply list_elem_of_In, in_map, list_elem_of_In, Hc.
Qed.

(** A non-empty input decodes to a non-empty text. *)
Lemma decode_strict_truthy (l : bytes) (s : str) :
  decode_strict l = Some s -> l <> [] -> truthy s = true.
Proof.
  intros Hs Hl. apply decode_strict_Some in Hs.
  destruct s; [|reflexivity]. exfalso. simpl in Hs.
  destruct l as [|b0 t0]; [congruence|]. simpl in Hs.
  repeat (case_match; try discriminate).
Qed.

End text_lemmas.


(** ** The subscriber registry *)

Section registry.
Import Text WebSocketManager.

Variable net : network.
Variable data : message.

Lemma cleanup_spec (l : list websocket) (m : manager) :
  active_connections (cleanup l m) = active_connections m ∖ list_to_set l.
Proof.
  revert m. induction l as [|c l IH]; intros m; simpl.
  - set_solver.
  - unfold cleanup in *. simpl. rewrite IH. simpl. set_solver.
Qed.

(** Whatever happens meanwhile, the sends of the iteration go to the first
    sockets of the iteration order, one each. *)
Lemma send_loop_sends (conns : list websocket) (used : nat)
    (live R : gset websocket) :
  exists n, (send_loop net data conns used live R).2
            = List.map (attempt net data) (take n conns).
Proof.
  revert live R. induction conns as [|c conns IH]; intros live R; simpl.
  - exists 0%nat. case_bool_decide; reflexivity.
  - case_bool_decide; [|exists 0%nat; reflexivity].
    destruct (IH (changed (meanwhile net c data) live)
                 (match (send_text net c data).1 with
                  | Ok _ => R | Raised => R ∪ {[c]} end)) as [n Hn].
    exists (S n). unfold send_text, attempt in *.
    destruct (net c data) eqn:Hc; simpl in *;
      destruct (send_loop net data conns used _ _) as [[? ?] ?];
      simpl in *; rewrite Hn, Hc; reflexivity.
Qed.

Hypothesis Hquiet : quiet net.

Lemma send_loop_spec (conns : list websocket) (live R : gset websocket) :
  send_loop net data conns (size live) live R =
    (live,
     Some (R ∪ list_to_set (List.filter (fun c => negb (net c data)) conns)),
     List.map (attempt net data) conns).
Proof.
  revert R. induction conns as [|c conns IH]; intros R; simpl;
    rewrite bool_decide_eq_true_2 by reflexivity.
  - do 3 f_equal. set_solver.
  - rewrite Hquiet. simpl. unfold send_text, attempt.
    destruct (net c data) eqn:Hc; simpl; rewrite IH; do 3 f_equal;
      set_solver.
Qed.

Lemma send_to_all_spec (m : manager) :
  exists m',
    _send_to_all net data m
      = (m', Ok (),
         List.map (attempt net data) (elements (active_connections m)))
    /\ forall c, c ∈ active_connections m' <->
                 c ∈ active_connections m /\ net c data = true.
Proof.
  unfold _send_to_all. rewrite send_loop_spec.
  eexists. split; [reflexivity|].
  intros c. rewrite cleanup_spec. simpl.
  rewrite elem_of_difference, elem_of_list_to_set, elem_of_elements.
  rewrite elem_of_union, elem_of_list_to_set, list_elem_of_In, filter_In.
  rewrite <- list_elem_of_In, elem_of_elements.
  destruct (net c data); simpl; set_solver.
Qed.

End registry.

(** C3 fails in the code: [_send_to_all] iterates over the live set of
    connections and awaits inside the loop.  When another task connects a
    new socket while the send to the first socket of the iteration is
    awaited, the iteration raises at its next element: the call ends with
    that exception after one send, no other subscriber is attempted, and
    the second loop is not reached, so the first socket is still
    subscribed even when its send failed. *)
Theorem publish_raises_when_the_set_changes
    (net : WebSocketManager.network) (log_id : string) (text : Text.str)
    (m : WebSocketManager.manager) (c : WebSocketManager.websocket)
    (rest : list WebSocketManager.websocket)
    (ws : WebSocketManager.websocket) :
  let data := WebSocketManager.Realtime log_id text in
  elements (WebSocketManager.active_connections m) = c :: rest ->
  WebSocketManager.meanwhile net c data
    = Some (WebSocketManager.Connects ws) ->
  ws ∉ WebSocketManager.active_connections m ->
  WebSocketManager.broadcast net log_id text m
    = ({| WebSocketManager.active_connections :=
            WebSocketManager.active_connections m ∪ {[ ws ]} |},
       WebSocketManager.Raised,
       [WebSocketManager.SendText c data (net c data)])
  /\ c ∈ WebSocketManager.active_connections m ∪ {[ ws ]}
  /\ forall c', c' ∈ rest ->
       c' ∈ WebSocketManager.active_connections m
       /\ attempts c' [WebSocketManager.SendText c data (net c data)] = [].
Proof.
  intros data Hel Hmean Hws. split; [|split].
  - unfold WebSocketManager.broadcast, WebSocketManager._send_to_all.
    fold data. rewrite Hel.
    cbn [WebSocketManager.send_loop].
    rewrite bool_decide_eq_true_2 by reflexivity.
    rewrite Hmean. cbn [WebSocketManager.changed].
    assert (Hsize : size (WebSocketManager.active_connections m ∪ {[ws]})
                    <> size (WebSocketManager.active_connections m)).
    { rewrite size_union by set_solver. rewrite size_singleton. lia. }
    unfold WebSocketManager.send_text.
    destruct (net c data); cbn [WebSocketManager.send_loop];
      (destruct rest; cbn [WebSocketManager.send_loop];
       rewrite bool_decide_eq_false_2 by exact Hsize; reflexivity).
  - apply elem_of_union_l, elem_of_elements. rewrite Hel. left.
  - intros c' Hc'.
    assert (Hnd : NoDup (c :: rest)) by (rewrite <- Hel; apply NoDup_elements).
    apply NoDup_cons in Hnd as [Hc _].
    split.
    + apply elem_of_elements. rewrite Hel. right. exact Hc'.
    + unfold attempts. cbn. destruct (decide (c = c')) as [->|];
        [contradiction|]. reflexivity.
Qed.

Lemma publish_raises_when_the_set_changes_witness :
  let net := {| WebSocketManager.delivers := fun _ _ => false;
                WebSocketManager.meanwhile := fun _ _ =>
                  Some (WebSocketManager.Connects 3%nat) |} in
  let m := {| WebSocketManager.active_connections := {[ 1%nat; 2%nat ]} |} in
  let data := WebSocketManager.Realtime "app" (Text.of_string "up") in
  WebSocketManager.broadcast net "app" (Text.of_string "up") m
    = ({| WebSocketManager.active_connections :=
            {[ 1%nat; 2%nat ]} ∪ {[ 3%nat ]} |},
       WebSocketManager.Raised,
       [WebSocketManager.SendText 2%nat data false])
  /\ 2%nat ∈ WebSocketManager.active_connections m ∪ {[ 3%nat ]}
  /\ 1%nat ∈ WebSocketManager.active_connections m
  /\ attempts 1%nat [WebSocketManager.SendText 2%nat data false] = [].
Proof.
  intros net m data.
  destruct (publish_raises_when_the_set_changes net "app"
              (Text.of_string "up") m 2%nat [1%nat] 3%nat
              ltac:(vm_compute; reflexivity) eq_refl ltac:(set_solver))
    as (H1 & H2 & H3).
  split; [exact H1|]. split; [exact H2|].
  apply H3. left.
Defined.

(** X24: a publish call during which no other task touches the set of
    connections returns; with no subscriber it sends nothing and changes
    nothing; otherwise it attempts one send to every subscribed channel,
    whatever the other sends did, and when it returns exactly the channels
    whose send failed have left the set; discarding a channel that is not
    in the set changes nothing and raises nothing. *)
Theorem publish_is_best_effort (net : WebSocketManager.network)
    (log_id : string) (text : Text.str) (m : WebSocketManager.manager) :
  quiet net ->
  let data := WebSocketManager.Realtime log_id text in
  let subscribers := WebSocketManager.active_connections m in
  exists m' ev,
    WebSocketManager.broadcast net log_id text m
      = (m', WebSocketManager.Ok (), ev)
    /\ ev = List.map (attempt net data) (elements subscribers)
    /\ (subscribers = ∅ -> ev = [] /\ m' = m)
    /\ (forall c, c ∈ subscribers ->
          WebSocketManager.SendText c data (net c data) ∈ ev)
    /\ (forall c, c ∈ subscribers -> net c data = false ->
          c ∉ WebSocketManager.active_connections m')
    /\ (forall c, c ∈ WebSocketManager.active_connections m' <->
          c ∈ subscribers /\ net c data = true)
    /\ (forall c, c ∉ subscribers -> WebSocketManager.disconnect c m = m).
Proof.
  intros Hquiet data subscribers. unfold WebSocketManager.broadcast.
  destruct (send_to_all_spec net data Hquiet m) as (m' & Hrun & Hm').
  subst data subscribers.
  exists m'. eexists. split; [exact Hrun|]. split; [reflexivity|].
  split; [|split; [|split; [|split]]].
  - intros Hempty. rewrite Hempty, elements_empty. split; [reflexivity|].
    destruct m as [s], m' as [s']. simpl in *. f_equal.
    apply set_eq. intros c. rewrite Hm', Hempty. set_solver.
  - intros c Hc. apply list_elem_of_In, in_map_iff. exists c.
    split; [reflexivity|]. apply list_elem_of_In, elem_of_elements, Hc.
  - intros c Hc Hfail Hin. apply Hm' in Hin. destruct Hin. congruence.
  - exact Hm'.
  - intros c Hc. destruct m as [s]. unfold WebSocketManager.disconnect.
    simpl in *. f_equal. set_solver.
Qed.

Lemma publish_is_best_effort_witness :
  quiet Examples.reliable
  /\ exists m' ev,
       WebSocketManager.broadcast Examples.reliable "app" (Text.of_string "up")
         {| WebSocketManager.active_connections := {[ 1%nat ]} |}
         = (m', WebSocketManager.Ok (), ev)
       /\ ev = [WebSocketManager.SendText 1%nat
                  (WebSocketManager.Realtime "app" (Text.of_string "up")) true].
Proof.
  assert (Hq : quiet Examples.reliable) by (intros c data; reflexivity).
  split; [exact Hq|].
  destruct (publish_is_best_effort Examples.reliable "app"
              (Text.of_string "up")
              {| WebSocketManager.active_connections := {[ 1%nat ]} |} Hq)
    as (m' & ev & Hrun & Hev & _).
  exists m', ev. split; [exact Hrun|].
  rewrite Hev. simpl. rewrite elements_singleton. reflexivity.
Defined.

(** ** The watcher: what every step preserves *)

Section watcher_invariant.
Import Text OS Watcher.

Ltac unfold_step :=
  unfold step, wait_and_open, follow, read_and_publish, on_exception,
    _close_file, _open_file, set_pc, set_position, set_first_open,
    set_file, set_inode, seek in *.

Lemma readline_ino fs h line h' :
  readline fs h = Some (line, h') -> h_ino h' = h_ino h.
Proof.
  unfold readline. intros H. simplify_option_eq. reflexivity.
Qed.

Lemma step_consistent fs w : consistent w -> consistent (step fs w).1.
Proof.
  unfold consistent. intros Hw.
  unfold_step.
  repeat (case_match; simplify_eq/=; try tauto);
    repeat match goal with
           | H : readline _ _ = Some _ |- _ => apply readline_ino in H; simpl in H
           end;
    intuition congruence.
Qed.

Lemma step_names fs w :
  log_id (step fs w).1 = log_id w /\ filepath (step fs w).1 = filepath w.
Proof.
  unfold_step. repeat (case_match; simplify_eq/=; try tauto).
Qed.

Ltac unfold_watch_step :=
  unfold watch_step, wait_and_open_with, follow_with, read_and_publish_with,
    on_exception, _close_file, _open_file, set_pc, set_position,
    set_first_open, set_file, set_inode, seek in *.

Lemma watch_step_consistent {S : Type}
    (publish : string -> str -> S -> S * WebSocketManager.outcome unit)
    fs w s :
  consistent w -> consistent (watch_step publish fs w s).1.1.
Proof.
  unfold consistent. intros Hw.
  unfold_watch_step.
  repeat (case_match; simplify_eq/=; try tauto);
    repeat match goal with
           | H : readline _ _ = Some _ |- _ => apply readline_ino in H; simpl in H
           end;
    intuition congruence.
Qed.

Lemma watch_step_names {S : Type}
    (publish : string -> str -> S -> S * WebSocketManager.outcome unit)
    fs w s :
  log_id (watch_step publish fs w s).1.1 = log_id w
  /\ filepath (watch_step publish fs w s).1.1 = filepath w.
Proof.
  unfold_watch_step. repeat (case_match; simplify_eq/=; try tauto).
Qed.

Lemma reachable_consistent l p w : reachable l p w -> consistent w.
Proof.
  induction 1 as [|fs w _ IH|S publish fs w s _ IH]; [exact I| |].
  - apply step_consistent, IH.
  - apply watch_step_consistent, IH.
Qed.

Lemma reachable_names l p w :
  reachable l p w -> log_id w = l /\ filepath w = p.
Proof.
  induction 1 as [|fs w _ IH|S publish fs w s _ IH]; [split; reflexivity| |].
  - destruct (step_names fs w) as [H1 H2]. simpl. rewrite H1, H2. exact IH.
  - destruct (watch_step_names publish fs w s) as [H1 H2].
    rewrite H1, H2. exact IH.
Qed.

End watcher_invariant.


(** ** Reading one line *)

Section reading.
Import Text OS Watcher.

Lemma line_end_inline (l : bytes) : Forall inline l -> line_end l = length l.
Proof.
  induction 1 as [|b l [Hlf Hcr] _ IH]; simpl; [reflexivity|].
  destruct (Z.eqb_spec b LF); [contradiction|].
  destruct (Z.eqb_spec b CR); [contradiction|].
  rewrite IH. reflexivity.
Qed.

Lemma line_end_line (l r : bytes) :
  Forall inline l -> line_end (l ++ LF :: r) = S (length l).
Proof.
  induction 1 as [|b l [Hlf Hcr] _ IH]; simpl; [reflexivity|].
  destruct (Z.eqb_spec b LF); [contradiction|].
  destruct (Z.eqb_spec b CR); [contradiction|].
  rewrite IH. reflexivity.
Qed.

Lemma translate_newlines_inline (s : str) :
  Forall inline s -> translate_newlines s = s.
Proof.
  induction 1 as [|c s [Hlf Hcr] _ IH]; simpl; [reflexivity|].
  destruct (Z.eqb_spec c CR); [contradiction|]. rewrite IH. reflexivity.
Qed.

Lemma translate_newlines_line (s : str) :
  Forall inline s -> translate_newlines (s ++ [LF]) = s ++ [LF].
Proof.
  induction 1 as [|c s [Hlf Hcr] _ IH]; simpl; [reflexivity|].
  destruct (Z.eqb_spec c CR); [contradiction|]. rewrite IH. reflexivity.
Qed.

(** A terminated line ahead of the handle: it is returned with its
    terminator and the handle moves past it. *)
Lemma readline_line fs h (l r : bytes) (s t : str) :
  drop (h_pos h) (data_of fs (h_ino h)) = l ++ LF :: r ->
  Forall inline l -> decode_strict l = Some s -> decode_strict r = Some t ->
  readline fs h
    = Some (s ++ [LF],
            {| h_ino := h_ino h; h_pos := (h_pos h + S (length l))%nat |}).
Proof.
  intros Hrest Hl Hs Ht. unfold readline. rewrite Hrest.
  assert (Hlf : decode_strict (LF :: r) = Some (LF :: t)).
  { apply decode_strict_ascii; [unfold LF; lia|exact Ht]. }
  rewrite (decode_strict_app l (LF :: r) s (LF :: t) Hs Hlf). simpl.
  rewrite line_end_line by exact Hl.
  replace (take (S (length l)) (l ++ LF :: r)) with (l ++ [LF]).
  - rewrite (decode_strict_app l [LF] s [LF] Hs eq_refl). simpl.
    rewrite translate_newlines_line; [reflexivity|].
    eapply decode_strict_inline; eassumption.
  - rewrite take_app_ge by lia.
    replace (S (length l) - length l)%nat with 1%nat by lia. reflexivity.
Qed.

(** Unterminated data up to the end of the file: it is returned as it is
    (nothing at all at the end of the file). *)
Lemma readline_fragment fs h (l : bytes) (s : str) :
  drop (h_pos h) (data_of fs (h_ino h)) = l ->
  Forall inline l -> decode_strict l = Some s ->
  readline fs h
    = Some (s, {| h_ino := h_ino h; h_pos := (h_pos h + length l)%nat |}).
Proof.
  intros Hrest Hl Hs. unfold readline. rewrite Hrest, Hs. simpl.
  rewrite line_end_inline by exact Hl.
  rewrite firstn_all, Hs. simpl.
  rewrite translate_newlines_inline; [reflexivity|].
  eapply decode_strict_inline; eassumption.
Qed.

(** A line terminator right at the handle: an empty line. *)
Lemma readline_blank fs h (b : Z) (r : bytes) (t : str) :
  drop (h_pos h) (data_of fs (h_ino h)) = b :: r ->
  b = LF \/ b = CR -> decode_strict r = Some t ->
  exists k, (1 <= k <= 2)%nat /\
    readline fs h
      = Some ([LF], {| h_ino := h_ino h; h_pos := (h_pos h + k)%nat |}).
Proof.
  intros Hrest Hb Ht. unfold readline. rewrite Hrest.
  assert (Hall : decode_strict (b :: r) = Some (b :: t)).
  { apply decode_strict_ascii; [unfold LF, CR in Hb; lia|exact Ht]. }
  rewrite Hall. simpl.
  destruct Hb as [-> | ->]; simpl.
  - exists 1%nat. split; [lia|]. reflexivity.
  - destruct r as [|b' r']; simpl.
    + exists 1%nat. split; [lia|]. reflexivity.
    + destruct (Z.eqb_spec b' LF) as [->|Hne].
      * exists 2%nat. split; [lia|]. reflexivity.
      * exists 1%nat. split; [lia|]. reflexivity.
Qed.

End reading.

(** ** The watcher: one step *)

Section following.
Import Text OS Watcher.

Lemma stat_exists fs p i : stat_ino fs p = Some i -> path_exists fs p = true.
Proof.
  unfold stat_ino, path_exists. intros H. apply bool_decide_eq_true.
  rewrite H. eexists; reflexivity.
Qed.

Lemma not_rotated fs w i :
  inode w = Some i -> stat_ino fs (filepath w) = Some i ->
  _is_rotated fs w = false.
Proof.
  intros Hi Hs. unfold _is_rotated. rewrite (stat_exists _ _ _ Hs), Hi, Hs.
  simpl. rewrite Z.eqb_refl. reflexivity.
Qed.


(** A step of a watcher that follows an unrotated file is lines 109-122. *)
Lemma step_follow fs w h i :
  pc w = LoopTop -> file w = Some h -> inode w = Some i ->
  stat_ino fs (filepath w) = Some i ->
  step fs w = follow fs w [].
Proof.
  intros Hpc Hf Hi Hs. unfold step.
  rewrite Hpc, Hf, (not_rotated fs w i Hi Hs). reflexivity.
Qed.

(** Publishing the line that was read. *)
Lemma read_and_publish_line fs h w ev line h' :
  readline fs h = Some (line, h') ->
  truthy (rstrip_crlf line) = true ->
  read_and_publish fs h w ev
    = (set_position (h_pos h') (set_file (Some h') w),
       ev ++ [Broadcast (log_id w) (rstrip_crlf line)]).
Proof.
  intros Hr Ht. unfold read_and_publish. rewrite Hr.
  destruct line as [|c line]; [discriminate Ht|]. simpl truthy at 1.
  cbv iota. rewrite Ht. reflexivity.
Qed.



Lemma serves_stat fs p i data : serves fs p i data -> stat_ino fs p = Some i.
Proof. intros [H _]. exact H. Qed.

Lemma serves_size fs p i data :
  serves fs p i data -> getsize fs p = Some (length data).
Proof. intros [H1 H2]. unfold getsize. rewrite H1. simpl. rewrite H2. reflexivity. Qed.

Lemma serves_data fs p i data : serves fs p i data -> data_of fs i = data.
Proof. intros [_ H]. unfold data_of. rewrite H. reflexivity. Qed.

Lemma serves_open fs p i data : serves fs p i data -> open_read fs p = Some i.
Proof. intros [H1 H2]. unfold open_read. rewrite H1. simpl. rewrite H2. reflexivity. Qed.

(** Lines 109-122 when the position is the start of a complete non-empty
    line: the handle is sought there, the line is published and the
    position moves past its terminator. *)
Lemma follow_line fs w h ev (pre l r : bytes) (s t : str) :
  file w = Some h -> position w = length pre ->
  getsize fs (filepath w) = Some (length (data_of fs (h_ino h))) ->
  data_of fs (h_ino h) = pre ++ l ++ LF :: r ->
  Forall inline l -> l <> [] ->
  decode_strict l = Some s -> decode_strict r = Some t ->
  follow fs w ev
    = (set_position (length pre + S (length l))
         (set_file (Some {| h_ino := h_ino h;
                            h_pos := (length pre + S (length l))%nat |}) w),
       ev ++ [Seek (length pre); Broadcast (log_id w) s]).
Proof.
  intros Hf Hp Hsize Hdata Hl Hne Hs Ht. unfold follow.
  rewrite Hsize, Hf, Hp, Hdata.
  assert (Hlen : (length pre < length (pre ++ l ++ LF :: r))%nat).
  { rewrite !length_app. simpl. lia. }
  destruct (Nat.ltb_spec (length (pre ++ l ++ LF :: r)) (length pre)); [lia|].
  destruct (Nat.ltb_spec (length pre) (length (pre ++ l ++ LF :: r))); [|lia].
  assert (Hin : Forall inline s) by (eapply decode_strict_inline; eassumption).
  rewrite (read_and_publish_line fs _ _ _ (s ++ [LF])
             {| h_ino := h_ino h; h_pos := (length pre + S (length l))%nat |}).
  - rewrite rstrip_crlf_line by exact Hin. rewrite <- app_assoc. reflexivity.
  - apply (readline_line fs (seek (length pre) h) l r s t); try assumption.
    simpl. rewrite Hdata. rewrite drop_app_length. reflexivity.
  - rewrite rstrip_crlf_line by exact Hin.
    eapply decode_strict_truthy; eassumption.
Qed.


End following.

(** C5: when the size of the followed file is below the recorded position
    and the path still names the same inode, the step seeks the handle to
    offset 0 and sets the position to 0 before it reads, so the line it
    reads and publishes is the first line of the file; when no carriage
    return lies behind that line, the position and the handle are behind
    the line afterwards. *)
Theorem truncation_restarts_from_the_beginning
    (fs : OS.filesystem) (w : Watcher.watcher) (h : Watcher.handle)
    (i : Z) (size : nat) :
  Watcher.pc w = Watcher.LoopTop ->
  Watcher.file w = Some h -> Watcher.inode w = Some i ->
  OS.stat_ino fs (Watcher.filepath w) = Some i ->
  OS.getsize fs (Watcher.filepath w) = Some size ->
  (size < Watcher.position w)%nat ->
  Watcher.step fs w
    = Watcher.read_and_publish fs (Watcher.seek 0 h)
        (Watcher.set_position 0 w) [Watcher.Seek 0]
  /\ forall (l r : Text.bytes) (s t : Text.str),
       OS.data_of fs (Watcher.h_ino h) = l ++ Text.LF :: r ->
       Forall inline l -> l <> [] ->
       Text.decode_strict l = Some s -> Text.decode_strict r = Some t ->
       Watcher.published (Watcher.step fs w).2 = [s]
       /\ (plain_ahead r ->
           Watcher.position (Watcher.step fs w).1 = S (length l)
           /\ Watcher.file (Watcher.step fs w).1
              = Some {| Watcher.h_ino := Watcher.h_ino h;
                        Watcher.h_pos := S (length l) |}).
Proof.
  intros Hpc Hf Hi Hs Hsize Hlt.
  assert (Hstep : Watcher.step fs w
            = Watcher.read_and_publish fs (Watcher.seek 0 h)
                (Watcher.set_position 0 w) [Watcher.Seek 0]).
  { rewrite (step_follow fs w h i Hpc Hf Hi Hs). unfold Watcher.follow.
    rewrite Hsize, Hf. destruct (Nat.ltb_spec size (Watcher.position w)); [|lia].
    reflexivity. }
  split; [exact Hstep|].
  intros l r s t Hdata Hl Hne Hdl Hdr. rewrite Hstep.
  assert (Hin : Forall inline s) by (eapply decode_strict_inline; eassumption).
  rewrite (read_and_publish_line fs _ _ _ (s ++ [Text.LF])
             {| Watcher.h_ino := Watcher.h_ino h;
                Watcher.h_pos := S (length l) |}).
  - rewrite rstrip_crlf_line by exact Hin. simpl. auto.
  - apply (readline_line fs (Watcher.seek 0 h) l r s t); simpl; assumption.
  - rewrite rstrip_crlf_line by exact Hin.
    eapply decode_strict_truthy; eassumption.
Qed.

Lemma truncation_restarts_from_the_beginning_witness :
  let fs := Examples.holding "x
" in
  Watcher.published (Watcher.step fs Examples.tailing).2 = [Text.of_string "x"]
  /\ Watcher.position (Watcher.step fs Examples.tailing).1 = 2%nat.
Proof.
  intros fs.
  destruct (truncation_restarts_from_the_beginning fs Examples.tailing
              {| Watcher.h_ino := 7; Watcher.h_pos := 8 |} 7 2
              eq_refl eq_refl eq_refl eq_refl eq_refl ltac:(vm_compute; lia))
    as [_ H].
  destruct (H (Text.of_string "x") [] (Text.of_string "x") [] eq_refl
              ltac:(repeat constructor; discriminate) ltac:(discriminate)
              eq_refl eq_refl) as (H1 & H2).
  split; [exact H1|]. apply H2. intros r'. discriminate.
Defined.


Lemma tailing_reachable :
  Watcher.reachable "app" Examples.app_log Examples.tailing.
Proof. apply Watcher.reachable_step, Watcher.reachable_init. Qed.





(** ** The watcher at an empty line *)

Section blank_lines.
Import Text OS Watcher.

Lemma read_and_publish_blank fs h w ev (b : Z) (r : bytes) (t : str) :
  drop (h_pos h) (data_of fs (h_ino h)) = b :: r ->
  b = LF \/ b = CR -> decode_strict r = Some t ->
  exists k, (1 <= k <= 2)%nat /\
    read_and_publish fs h w ev
      = (set_file (Some {| h_ino := h_ino h; h_pos := (h_pos h + k)%nat |}) w,
         ev).
Proof.
  intros Hrest Hb Ht.
  destruct (readline_blank fs h b r t Hrest Hb Ht) as (k & Hk & Hread).
  exists k. split; [exact Hk|].
  unfold read_and_publish. rewrite Hread. reflexivity.
Qed.

Lemma step_blank l p fs w h q :
  reachable l p w -> file w = Some h -> position w = q ->
  blank_at fs p (h_ino h) q ->
  exists k, (1 <= k <= 2)%nat /\
    step fs w
      = (set_file (Some {| h_ino := h_ino h; h_pos := (q + k)%nat |}) w,
         [Seek q]).
Proof.
  intros Hreach Hf Hq (data & b & r & t & Hfs & Hrest & Hb & Ht).
  destruct (reachable_names l p w Hreach) as [Hl Hp].
  pose proof (reachable_consistent l p w Hreach) as Hc.
  unfold consistent in Hc. rewrite Hf in Hc. destruct Hc as (Hi & _ & Hpc).
  rewrite (step_follow fs w h (h_ino h) Hpc Hf Hi)
    by (rewrite Hp; exact (serves_stat _ _ _ _ Hfs)).
  unfold follow. rewrite Hp, (serves_size _ _ _ _ Hfs), Hf, Hq.
  assert (Hlen : (q < length data)%nat).
  { destruct (Nat.lt_ge_cases q (length data)) as [H|H]; [exact H|].
    rewrite drop_ge in Hrest by exact H. discriminate. }
  destruct (Nat.ltb_spec (length data) q); [lia|].
  destruct (Nat.ltb_spec q (length data)); [|lia].
  destruct (read_and_publish_blank fs (seek q h) w ([] ++ [Seek q]) b r t)
    as (k & Hk & Hrun); try assumption.
  { simpl. rewrite (serves_data _ _ _ _ Hfs). exact Hrest. }
  exists k. split; [exact Hk|]. exact Hrun.
Qed.

(** Once the position is at an empty line, no number of steps moves it or
    publishes anything, whatever is appended behind that line. *)
Lemma stuck_at_blank l p (fss : list filesystem) w h q :
  reachable l p w -> file w = Some h -> position w = q ->
  Forall (fun fs => blank_at fs p (h_ino h) q) fss ->
  published (run fss w).2 = [] /\ position (run fss w).1 = q
  /\ exists h', file (run fss w).1 = Some h' /\ h_ino h' = h_ino h.
Proof.
  intros Hreach Hf Hq Hall. revert w h Hreach Hf Hq Hall.
  induction fss as [|fs fss IH]; intros w h Hreach Hf Hq Hall.
  - simpl. split; [reflexivity|]. split; [exact Hq|]. exists h. auto.
  - inversion Hall as [|? ? Hfs Hrest]; subst.
    destruct (step_blank l p fs w h (position w) Hreach Hf eq_refl Hfs)
      as (k & Hk & Hstep).
    pose proof (reachable_step l p fs w Hreach) as Hreach'.
    simpl. rewrite Hstep in *. simpl in Hreach'.
    destruct (IH _ {| h_ino := h_ino h; h_pos := (position w + k)%nat |}
                Hreach' eq_refl eq_refl Hrest) as (H1 & H2 & H3).
    destruct (run fss _) as [w' ev']. simpl in *.
    split; [exact H1|]. split; [exact H2|exact H3].
Qed.

End blank_lines.

(** C9, as stated, fails: in a step that finds the file cut below the
    position, resets the position to 0 and then reads an empty line, the
    position changes (here from 8 to 0). *)
Lemma blank_line_after_truncation_moves_position :
  Watcher.readline Examples.rewritten {| Watcher.h_ino := 7; Watcher.h_pos := 0 |}
    = Some ([Text.LF], {| Watcher.h_ino := 7; Watcher.h_pos := 1 |})
  /\ Watcher.position Examples.tailing = 8%nat
  /\ Watcher.position (Watcher.step Examples.rewritten Examples.tailing).1 = 0%nat
  /\ (Watcher.step Examples.rewritten Examples.tailing).2 = [Watcher.Seek 0].
Proof. repeat split; vm_compute; reflexivity. Qed.

(** C9, amended: reading an empty line changes neither the position nor
    what is published, and no sleep follows; so a step that starts with the
    position at an empty line of the followed file leaves the position
    unchanged and publishes nothing, and so does every later step for as
    long as the path serves that file with the terminator still at that
    offset: no line behind the empty line is published. *)
Theorem blank_line_stalls_the_watcher
    (l p : string) (fs : OS.filesystem) (w : Watcher.watcher)
    (h : Watcher.handle) :
  Watcher.reachable l p w ->
  Watcher.file w = Some h ->
  blank_at fs p (Watcher.h_ino h) (Watcher.position w) ->
  (forall w0 ev,
      Watcher.position
        (Watcher.read_and_publish fs
           (Watcher.seek (Watcher.position w) h) w0 ev).1
        = Watcher.position w0
      /\ (Watcher.read_and_publish fs
            (Watcher.seek (Watcher.position w) h) w0 ev).2 = ev)
  /\ Watcher.position (Watcher.step fs w).1 = Watcher.position w
  /\ (Watcher.step fs w).2 = [Watcher.Seek (Watcher.position w)]
  /\ forall fss,
       Forall (fun fs' =>
                 blank_at fs' p (Watcher.h_ino h) (Watcher.position w)) fss ->
       Watcher.published (Watcher.run (fs :: fss) w).2 = []
       /\ Watcher.position (Watcher.run (fs :: fss) w).1 = Watcher.position w.
Proof.
  intros Hreach Hf Hblank.
  split; [|split; [|split]].
  - intros w0 ev. destruct Hblank as (data & b & r & t & Hfs & Hrest & Hb & Ht).
    destruct (read_and_publish_blank fs (Watcher.seek (Watcher.position w) h)
                w0 ev b r t) as (k & _ & Hrun); try assumption.
    { simpl. rewrite (serves_data _ _ _ _ Hfs). exact Hrest. }
    rewrite Hrun. split; reflexivity.
  - destruct (step_blank l p fs w h _ Hreach Hf eq_refl Hblank) as (k & _ & ->).
    reflexivity.
  - destruct (step_blank l p fs w h _ Hreach Hf eq_refl Hblank) as (k & _ & ->).
    reflexivity.
  - intros fss Hall.
    destruct (stuck_at_blank l p (fs :: fss) w h _ Hreach Hf eq_refl)
      as (H1 & H2 & _); [constructor; assumption|].
    split; assumption.
Qed.

Lemma blank_appended_at_8 :
  blank_at Examples.blank_appended Examples.app_log 7 8.
Proof.
  exists (Text.of_string "one
two

more
"), Text.LF, (Text.of_string "more
"), (Text.of_string "more
").
  repeat split; try reflexivity. left. reflexivity.
Qed.

Lemma blank_line_stalls_the_watcher_witness :
  Watcher.position (Watcher.step Examples.blank_appended Examples.tailing).1
    = 8%nat
  /\ Watcher.published
       (Watcher.run [Examples.blank_appended; Examples.blank_appended;
                     Examples.blank_appended] Examples.tailing).2 = [].
Proof.
  destruct (blank_line_stalls_the_watcher "app" Examples.app_log
              Examples.blank_appended Examples.tailing
              {| Watcher.h_ino := 7; Watcher.h_pos := 8 |}
              tailing_reachable eq_refl blank_appended_at_8)
    as (_ & H1 & _ & H2).
  split; [exact H1|].
  apply (H2 [Examples.blank_appended; Examples.blank_appended]).
  repeat constructor; exact blank_appended_at_8.
Defined.

(** ** The watcher along a run of complete lines *)

Section lines.
Import Text OS Watcher.

Lemma enc_lines_cons (l : bytes) (ls : list bytes) (tail : bytes) :
  enc_lines (l :: ls) ++ tail = l ++ LF :: (enc_lines ls ++ tail).
Proof. unfold enc_lines. simpl. rewrite <- !app_assoc. reflexivity. Qed.

Lemma decode_enc_lines (ls : list bytes) (ss : list str) (tail : bytes) (t : str) :
  Forall2 plain_line ls ss -> decode_strict tail = Some t ->
  exists u, decode_strict (enc_lines ls ++ tail) = Some u.
Proof.
  intros Hls Ht. induction Hls as [|l s ls ss (Hin & Hne & Hs) _ IH].
  - exists t. exact Ht.
  - destruct IH as [u Hu]. exists (s ++ LF :: u).
    rewrite enc_lines_cons. apply decode_strict_app; [exact Hs|].
    apply decode_strict_ascii; [unfold LF; lia|exact Hu].
Qed.

Lemma published_app (ev ev' : list event) :
  published (ev ++ ev') = published ev ++ published ev'.
Proof. unfold published. apply omap_app. Qed.

(** A following watcher whose position is at the start of a run of
    complete non-empty lines publishes them in order, one per step. *)
Lemma run_lines l p (ls : list bytes) (ss : list str) :
  Forall2 plain_line ls ss ->
  forall (fss : list filesystem) w h (pre : bytes),
    reachable l p w -> file w = Some h -> position w = length pre ->
    all_serve fss ls p (h_ino h) (pre ++ enc_lines ls) ->
    published (run fss w).2 = ss
    /\ position (run fss w).1 = length (pre ++ enc_lines ls).
Proof.
  induction 1 as [|l0 s0 ls ss (Hin & Hne & Hs) Hrest IH];
    intros fss w h pre Hreach Hf Hpos Hall.
  - inversion Hall; subst. simpl. rewrite app_nil_r. auto.
  - inversion Hall as [|fs ? fss' ? (tail & t & Hfs & Ht) Hall']; subst.
    destruct (reachable_names l p w Hreach) as [Hl Hp].
    pose proof (reachable_consistent l p w Hreach) as Hc.
    unfold consistent in Hc. rewrite Hf in Hc. destruct Hc as (Hi & _ & Hpc).
    destruct (decode_enc_lines ls ss tail t Hrest Ht) as [u Hu].
    assert (Hdata : data_of fs (h_ino h)
                    = pre ++ l0 ++ LF :: (enc_lines ls ++ tail)).
    { rewrite (serves_data _ _ _ _ Hfs), <- app_assoc, enc_lines_cons.
      reflexivity. }
    assert (Hstep : step fs w
              = (set_position (length pre + S (length l0))
                   (set_file (Some {| h_ino := h_ino h;
                                      h_pos := (length pre + S (length l0))%nat |}) w),
                 [Seek (length pre); Broadcast (log_id w) s0])).
    { rewrite (step_follow fs w h (h_ino h) Hpc Hf Hi)
        by (rewrite Hp; exact (serves_stat _ _ _ _ Hfs)).
      apply (follow_line fs w h [] pre l0 (enc_lines ls ++ tail) s0 u);
        try assumption.
      rewrite Hp, Hdata, (serves_size _ _ _ _ Hfs), <- app_assoc,
        enc_lines_cons. reflexivity. }
    pose proof (reachable_step l p fs w Hreach) as Hreach'.
    simpl. rewrite Hstep in *. simpl in Hreach'.
    destruct (IH fss' _ {| h_ino := h_ino h;
                           h_pos := (length pre + S (length l0))%nat |}
                 (pre ++ l0 ++ [LF]) Hreach' eq_refl) as [H1 H2].
    { simpl. rewrite !length_app. simpl. lia. }
    { simpl. unfold all_serve in *. eapply Forall2_impl; [exact Hall'|].
      intros fs' _ (tail' & t' & Hfs' & Ht'). exists tail', t'.
      split; [|exact Ht']. simpl in Hfs'.
      replace ((pre ++ l0 ++ [LF]) ++ enc_lines ls)
        with (pre ++ enc_lines (l0 :: ls)); [exact Hfs'|].
      unfold enc_lines. simpl. rewrite <- !app_assoc. reflexivity. }
    destruct (run fss' _) as [w' ev']. simpl in *.
    split; [rewrite H1; reflexivity|].
    rewrite H2. f_equal. unfold enc_lines. simpl.
    rewrite <- !app_assoc. reflexivity.
Qed.

End lines.

(** ** The first open *)

Section first_open.
Import Text OS Watcher.

Lemma first_open_step l p fs w i data :
  reachable l p w -> first_open w = true -> serves fs p i data ->
  step fs w
    = (opened_at_end l p i (length data),
       [Opened i; Seek (length data); Sleep]).
Proof.
  intros Hreach Hfo Hfs.
  destruct (reachable_names l p w Hreach) as [Hl Hp].
  pose proof (reachable_consistent l p w Hreach) as Hc.
  unfold consistent in Hc.
  destruct (file w) as [h|] eqn:Hf; [destruct Hc as (_ & Hc & _); congruence|].
  assert (Hgo : forall r, wait_and_open fs r w []
            = (opened_at_end l p i (length data),
               [Opened i; Seek (length data); Sleep])).
  { intros r. unfold wait_and_open, _open_file.
    cbn [filepath set_pc]. rewrite Hp.
    rewrite (stat_exists fs p i (serves_stat _ _ _ _ Hfs)).
    rewrite (serves_open _ _ _ _ Hfs).
    cbn [negb file first_open set_file set_inode set_pc].
    rewrite Hfo. cbn [h_ino]. rewrite (serves_data _ _ _ _ Hfs).
    unfold follow. cbn [filepath set_position set_file set_first_open
                        set_inode set_pc file position seek h_pos h_ino].
    rewrite Hp, (serves_size _ _ _ _ Hfs), Nat.ltb_irrefl.
    unfold read_and_publish.
    rewrite (readline_fragment fs _ [] []); simpl;
      [|rewrite (serves_data _ _ _ _ Hfs); apply drop_all|constructor|reflexivity].
    unfold opened_at_end, set_file. simpl.
    rewrite Hl, Hp, Nat.add_0_r. reflexivity. }
  unfold step. rewrite Hf. destruct (pc w); apply Hgo.
Qed.

Lemma opened_at_end_reachable l p fs w i data :
  reachable l p w -> first_open w = true -> serves fs p i data ->
  reachable l p (opened_at_end l p i (length data)).
Proof.
  intros Hreach Hfo Hfs. pose proof (reachable_step l p fs w Hreach) as H.
  rewrite (first_open_step l p fs w i data Hreach Hfo Hfs) in H. exact H.
Qed.

End first_open.

(** ** The watcher on a file that grows by complete lines *)

Section growing.
Import Text OS Watcher.

Lemma set_file_same w h : file w = Some h -> set_file (Some h) w = w.
Proof. destruct w. simpl. intros ->. reflexivity. Qed.

Lemma readline_at_end fs h :
  (length (data_of fs (h_ino h)) <= h_pos h)%nat ->
  readline fs h = Some ([], h).
Proof.
  intros Hlen. unfold readline. rewrite drop_ge by exact Hlen. cbn.
  rewrite Nat.add_0_r. destruct h; reflexivity.
Qed.

(** A poll that finds the handle and the position at the end of the file:
    the read returns nothing and the step sleeps. *)
Lemma step_at_end l p fs w h data :
  reachable l p w -> file w = Some h -> serves fs p (h_ino h) data ->
  position w = length data -> h_pos h = length data ->
  step fs w = (w, [Sleep]).
Proof.
  intros Hreach Hf Hfs Hq Hh.
  destruct (reachable_names l p w Hreach) as [Hl Hp].
  pose proof (reachable_consistent l p w Hreach) as Hc.
  unfold consistent in Hc. rewrite Hf in Hc. destruct Hc as (Hi & _ & Hpc).
  rewrite (step_follow fs w h (h_ino h) Hpc Hf Hi)
    by (rewrite Hp; exact (serves_stat _ _ _ _ Hfs)).
  unfold follow. rewrite Hp, (serves_size _ _ _ _ Hfs), Hf, Hq.
  rewrite Nat.ltb_irrefl. unfold read_and_publish.
  rewrite readline_at_end
    by (rewrite (serves_data _ _ _ _ Hfs), Hh; reflexivity).
  cbn. rewrite (set_file_same w h Hf). reflexivity.
Qed.


Lemma enc_lines_app (xs ys : list bytes) :
  enc_lines (xs ++ ys) = enc_lines xs ++ enc_lines ys.
Proof.
  unfold enc_lines. rewrite map_app. induction xs as [|x xs IH]; [reflexivity|].
  simpl. rewrite IH, <- !app_assoc. reflexivity.
Qed.

Lemma enc_lines_take_S (ls : list bytes) (c : nat) (l0 : bytes) :
  ls !! c = Some l0 ->
  enc_lines (take (S c) ls) = enc_lines (take c ls) ++ l0 ++ [LF].
Proof.
  intros Hc. rewrite (take_S_r _ _ _ Hc), enc_lines_app.
  unfold enc_lines at 2. simpl. rewrite app_nil_r. reflexivity.
Qed.

Lemma polled_le (ks : list nat) (c : nat) : (c <= polled c ks)%nat.
Proof.
  revert c. induction ks as [|k ks IH]; intros c; simpl; [lia|].
  destruct (c <? k)%nat; [specialize (IH (S c))|specialize (IH c)]; lia.
Qed.

(** A watcher that has read the first [c] of the lines behind [data]
    reads the others in order, one per poll that finds one. *)
Lemma run_grows l p i (data : bytes) (ls : list bytes) (ss : list str) :
  Forall2 plain_line ls ss ->
  forall (fss : list filesystem) (ks : list nat) (k0 c : nat) w,
    let at_line n := length (data ++ enc_lines (take n ls)) in
    reachable l p w ->
    file w = Some {| h_ino := i; h_pos := at_line c |} ->
    position w = at_line c ->
    (c <= k0)%nat ->
    grows p i data ls k0 fss ks ->
    published (run fss w).2 = drop c (take (polled c ks) ss)
    /\ position (run fss w).1 = at_line (polled c ks)
    /\ file (run fss w).1
       = Some {| h_ino := i; h_pos := at_line (polled c ks) |}.
Proof.
  intros Hls fss. induction fss as [|fs fss IH];
    intros ks k0 c w at_line Hreach Hf Hpos Hck Hgrows.
  - destruct ks; [|contradiction]. simpl.
    rewrite drop_ge by (rewrite length_take; lia). auto.
  - destruct ks as [|k ks]; [contradiction|].
    destruct Hgrows as ((Hk0 & Hk) & Hfs & Hgrows).
    destruct (reachable_names l p w Hreach) as [Hl Hp].
    pose proof (reachable_consistent l p w Hreach) as Hc.
    unfold consistent in Hc. rewrite Hf in Hc. destruct Hc as (Hi & _ & Hpc).
    pose proof (reachable_step l p fs w Hreach) as Hreach'.
    cbn [run polled].
    destruct (Nat.ltb_spec c k) as [Hlt|Hge].
    + (* a line is ahead *)
      destruct (lookup_lt_is_Some_2 ls c ltac:(lia)) as [l0 Hl0].
      destruct (Forall2_lookup_l _ _ _ _ _ Hls Hl0) as (s0 & Hs0 & Hin & Hne & Hs).
      assert (Hdec : exists u,
                decode_strict (enc_lines (drop (S c) (take k ls))) = Some u).
      { destruct (decode_enc_lines (drop (S c) (take k ls))
                    (drop (S c) (take k ss)) [] []) as [u Hu];
          [|reflexivity|exists u; rewrite app_nil_r in Hu; exact Hu].
        apply Forall2_drop, Forall2_take, Hls. }
      assert (Hsplit : take k ls = take c ls ++ l0 :: drop (S c) (take k ls)).
      { rewrite <- (take_drop c (take k ls)) at 1.
        rewrite take_take, Nat.min_l by lia. f_equal.
        rewrite (drop_S _ l0 c); [reflexivity|].
        rewrite lookup_take_lt by lia. exact Hl0. }
      set (rest_ls := drop (S c) (take k ls)) in *.
      destruct Hdec as [u Hu].
      assert (Hdata : data_of fs i
                = (data ++ enc_lines (take c ls)) ++ l0 ++ LF
                    :: enc_lines rest_ls).
      { rewrite (serves_data _ _ _ _ Hfs), Hsplit, enc_lines_app.
        rewrite <- (app_nil_r (enc_lines (l0 :: _))), enc_lines_cons.
        rewrite app_nil_r, <- !app_assoc. reflexivity. }
      assert (Hstep : step fs w
                = (set_position (at_line c + S (length l0))
                     (set_file (Some {| h_ino := i;
                                        h_pos := (at_line c + S (length l0))%nat |}) w),
                   [Seek (at_line c); Broadcast (log_id w) s0])).
      { rewrite (step_follow fs w _ i Hpc Hf Hi)
          by (rewrite Hp; exact (serves_stat _ _ _ _ Hfs)).
        apply (follow_line fs w {| h_ino := i; h_pos := at_line c |} []
                 (data ++ enc_lines (take c ls)) l0
                 (enc_lines rest_ls) s0 u);
          try assumption.
        rewrite Hp. cbn [h_ino]. rewrite (serves_size _ _ _ _ Hfs).
        rewrite (serves_data _ _ _ _ Hfs). reflexivity. }
      assert (Hnext : (at_line c + S (length l0))%nat = at_line (S c)).
      { subst at_line. cbv beta. rewrite (enc_lines_take_S ls c l0 Hl0).
        rewrite !length_app. simpl. lia. }
      rewrite Hnext in Hstep. rewrite Hstep in *. cbn [fst snd] in *.
      destruct (IH ks k (S c) _ Hreach' eq_refl eq_refl ltac:(lia) Hgrows)
        as (H1 & H2 & H3).
      destruct (run fss _) as [w' ev']. cbn [fst snd] in *.
      split; [|split; assumption].
      rewrite published_app, H1. cbn.
      pose proof (polled_le ks (S c)) as Hle.
      assert (Hs0' : take (polled (S c) ks) ss !! c = Some s0)
        by (rewrite lookup_take_lt by lia; exact Hs0).
      rewrite (drop_S _ s0 c Hs0'). reflexivity.
    + (* nothing new: the poll finds the end of the file *)
      assert (k = c) by lia. subst k.
      assert (Hstep : step fs w = (w, [Sleep])).
      { apply (step_at_end l p fs w {| h_ino := i; h_pos := at_line c |}
                 (data ++ enc_lines (take c ls)));
          assumption || reflexivity. }
      rewrite Hstep in *. cbn [fst snd] in *.
      destruct (IH ks c c w Hreach Hf Hpos ltac:(lia) Hgrows) as (H1 & H2 & H3).
      destruct (run fss w) as [w' ev']. cbn [fst snd] in *.
      split; [|split; assumption]. exact H1.
Qed.

End growing.




(** ** Reopening after an error *)

Section reopening.
Import Text OS Watcher.




Lemma reopen_step l p fs w i data :
  reachable l p w -> file w = None -> first_open w = false ->
  pc w = LoopTop -> serves fs p i data ->
  step fs w = follow fs (reopened l p i) [Opened i].
Proof.
  intros Hreach Hf Hfo Hpc Hfs.
  destruct (reachable_names l p w Hreach) as [Hl Hp].
  unfold step. rewrite Hpc, Hf. unfold wait_and_open, _open_file.
  cbn [filepath set_pc]. rewrite Hp.
  rewrite (stat_exists fs p i (serves_stat _ _ _ _ Hfs)).
  rewrite (serves_open _ _ _ _ Hfs).
  cbn [negb file first_open set_file set_inode set_pc]. rewrite Hfo.
  unfold reopened, set_position, set_file, set_inode, set_pc. simpl.
  rewrite Hl, Hp, Hfo. reflexivity.
Qed.

(** After a reopen the complete non-empty lines at the beginning of the
    file are published in order, one per step. *)
Lemma reopen_lines l p w i (ls : list bytes) (ss : list str)
    (fss : list filesystem) :
  reachable l p w -> file w = None -> first_open w = false ->
  pc w = LoopTop ->
  Forall2 plain_line ls ss -> all_serve fss ls p i (enc_lines ls) ->
  published (run fss w).2 = ss.
Proof.
  intros Hreach Hf Hfo Hpc Hls Hall.
  destruct Hls as [|l0 s0 ls ss (Hin & Hne & Hs) Hrest].
  - inversion Hall; subst. reflexivity.
  - inversion Hall as [|fs ? fss' ? (tail & t & Hfs & Ht) Hall']; subst.
    destruct (decode_enc_lines ls ss tail t Hrest Ht) as [u Hu].
    pose proof (reopen_step l p fs w i _ Hreach Hf Hfo Hpc Hfs) as Hstep.
    rewrite (follow_line fs (reopened l p i) {| h_ino := i; h_pos := 0 |}
               [Opened i] [] l0 (enc_lines ls ++ tail) s0 u) in Hstep;
      try assumption; try reflexivity.
    2:{ simpl. rewrite (serves_data _ _ _ _ Hfs).
        exact (serves_size _ _ _ _ Hfs). }
    2:{ simpl. rewrite (serves_data _ _ _ _ Hfs).
        rewrite enc_lines_cons. reflexivity. }
    pose proof (reachable_step l p fs w Hreach) as Hreach'.
    simpl run. rewrite Hstep in *. simpl in Hreach'.
    destruct (run_lines l p ls ss Hrest fss' _
                {| h_ino := i; h_pos := S (length l0) |} (l0 ++ [LF])
                Hreach' eq_refl) as [H1 _].
    { simpl. rewrite length_app. simpl. lia. }
    { simpl. unfold all_serve in *. eapply Forall2_impl; [exact Hall'|].
      intros fs' _ (tail' & t' & Hfs' & Ht'). exists tail', t'.
      split; [|exact Ht'].
      replace ((l0 ++ [LF]) ++ enc_lines ls) with (enc_lines (l0 :: ls));
        [exact Hfs'|reflexivity]. }
    simpl in *. destruct (run fss' _) as [w' ev']. simpl in *.
    rewrite H1. reflexivity.
Qed.

End reopening.




(** ** Handle and recorded inode *)

(** C7 fails in the code: [_close_file] clears the handle and leaves the
    recorded inode as it is, where the failing branch of [_open_file]
    clears both fields and its other branch sets both.  For every watcher
    that holds a handle between two steps the recorded inode is that of
    the handle; closing the handle leaves a watcher without a handle and
    with that inode still recorded; and the step that finds the path gone
    leaves the watcher in such a state. *)
Theorem close_file_keeps_the_recorded_inode
    (l p : string) (w : Watcher.watcher) (h : Watcher.handle) :
  Watcher.reachable l p w ->
  Watcher.file w = Some h ->
  Watcher.inode w = Some (Watcher.h_ino h)
  /\ (Watcher.file (Watcher._close_file w).1 = None
      /\ Watcher.inode (Watcher._close_file w).1 = Some (Watcher.h_ino h)
      /\ ~ Watcher.handle_iff_identity (Watcher._close_file w).1)
  /\ (forall fs w0,
        match OS.open_read fs (Watcher.filepath w0) with
        | Some ino =>
          Watcher.file (Watcher._open_file fs w0).1
            = Some {| Watcher.h_ino := ino; Watcher.h_pos := 0 |}
          /\ Watcher.inode (Watcher._open_file fs w0).1 = Some ino
        | None =>
          Watcher.file (Watcher._open_file fs w0).1 = None
          /\ Watcher.inode (Watcher._open_file fs w0).1 = None
        end)
  /\ (forall gone,
        OS.path_exists gone p = false ->
        Watcher.reachable l p (Watcher.step gone w).1
        /\ Watcher.file (Watcher.step gone w).1 = None
        /\ Watcher.inode (Watcher.step gone w).1 = Some (Watcher.h_ino h)
        /\ ~ Watcher.handle_iff_identity (Watcher.step gone w).1).
Proof.
  intros Hreach Hf. pose proof (reachable_consistent l p w Hreach) as Hc.
  destruct (reachable_names l p w Hreach) as [Hl Hp].
  unfold consistent in Hc. rewrite Hf in Hc. destruct Hc as (Hi & Hfo & Hpc).
  assert (Hbroken : forall w',
            Watcher.file w' = None ->
            Watcher.inode w' = Some (Watcher.h_ino h) ->
            ~ Watcher.handle_iff_identity w').
  { intros w' Hf' Hi' [_ H]. destruct H as [x Hx]; [eexists; exact Hi'|].
    congruence. }
  split; [exact Hi|]. split; [|split].
  - unfold Watcher._close_file. rewrite Hf. cbn.
    split; [reflexivity|]. split; [exact Hi|]. apply Hbroken; [reflexivity|].
    exact Hi.
  - intros fs w0. unfold Watcher._open_file.
    destruct (OS.open_read fs (Watcher.filepath w0)); cbn; auto.
  - intros gone Hgone.
    assert (Hstep : Watcher.step gone w
              = (Watcher.set_pc (Watcher.InWaitForFile true)
                   (Watcher.set_file None w),
                 [Watcher.Closed (Watcher.h_ino h); Watcher.Sleep])).
    { unfold Watcher.step, Watcher._is_rotated, Watcher._close_file.
      rewrite Hpc, Hf, Hp, Hgone. cbn.
      unfold Watcher.wait_and_open. cbn. rewrite Hp, Hgone. reflexivity. }
    split; [apply Watcher.reachable_step, Hreach|].
    rewrite Hstep. cbn. split; [reflexivity|]. split; [exact Hi|].
    apply Hbroken; [reflexivity|exact Hi].
Qed.

Lemma close_file_keeps_the_recorded_inode_witness :
  let w := (Watcher.step Examples.missing Examples.tailing).1 in
  Watcher.reachable "app" Examples.app_log w
  /\ Watcher.file w = None /\ Watcher.inode w = Some 7
  /\ ~ Watcher.handle_iff_identity w.
Proof.
  destruct (close_file_keeps_the_recorded_inode "app" Examples.app_log
              Examples.tailing {| Watcher.h_ino := 7; Watcher.h_pos := 8 |}
              tailing_reachable eq_refl) as (_ & _ & _ & H).
  exact (H Examples.missing eq_refl).
Defined.

(** ** The websocket endpoint *)



(** ** The reverse line reader *)

Section reverse_reader.
Import Text OS ReverseReader.

(** The loop always returns: every iteration moves [pos] down by at least
    one byte, so [pos] iterations are enough. *)
Lemma read_back_returns (fuel : nat) (data : bytes) (n : Z)
    (chunk_size : nat) (lines : list str) (buffer : bytes) (pos : nat) :
  (0 < chunk_size)%nat -> (pos <= fuel)%nat ->
  is_Some (read_back fuel data n chunk_size lines buffer pos).
Proof.
  intros Hchunk. revert lines buffer pos.
  induction fuel as [|fuel IH]; intros lines buffer pos Hpos; simpl.
  - replace pos with 0%nat by lia. rewrite andb_false_r. eexists; reflexivity.
  - destruct (_ && _) eqn:Hloop; [|eexists; reflexivity].
    apply andb_prop in Hloop as [_ Hp]. apply Nat.ltb_lt in Hp.
    destruct (if _ : bool then _ else _) as [[buffer' lines']|];
      [|eexists; reflexivity].
    destruct (n <? _); [eexists; reflexivity|].
    apply IH. lia.
Qed.

End reverse_reader.

(** C1 fails on the code.  The file holds the line [b] and then one line of
    8193 letters [x]; the last line is asked for.  The first backward read
    of 8192 bytes contains no separator and is taken for a finished line,
    so the result is a line of 8192 letters, not the last line of the
    file. *)
Theorem long_line_is_cut_at_the_chunk_boundary :
  ReverseReader.get_last_lines
    (OS.single Examples.app_log 7 Examples.long_line) Examples.app_log 1
    = [replicate (Z.to_nat 8192) 120]
  /\ ReverseReader.final_lines Examples.long_line 1
     = [replicate (Z.to_nat 8193) 120]
  /\ ReverseReader.get_last_lines
       (OS.single Examples.app_log 7 Examples.long_line) Examples.app_log 2
     = [[120]; replicate (Z.to_nat 8192) 120]
  /\ ReverseReader.final_lines Examples.long_line 2
     = [[98]; replicate (Z.to_nat 8193) 120].
Proof. repeat split; vm_compute; reflexivity. Qed.

Section reverse_reader_results.
Import Text OS ReverseReader.

Lemma last_slice_nil {A} (n : Z) : last_slice n (@nil A) = [].
Proof. unfold last_slice. destruct (0 <? n); apply drop_nil. Qed.

Lemma read_back_at_start fuel data n chunk_size lines buffer :
  read_back fuel data n chunk_size lines buffer 0
    = Some (if truthy lines then last_slice n lines else []).
Proof. destruct fuel; simpl; rewrite andb_false_r; reflexivity. Qed.

Lemma last_slice_length {A} (n : Z) (l : list A) :
  1 <= n -> (length (last_slice n l) <= Z.to_nat n)%nat.
Proof.
  intros Hn. unfold last_slice. destruct (Z.ltb_spec 0 n); [|lia].
  rewrite length_drop. lia.
Qed.

Lemma Forall_last_slice {A} (P : A -> Prop) (n : Z) (l : list A) :
  Forall P l -> Forall P (last_slice n l).
Proof. intros H. unfold last_slice. destruct (0 <? n); apply Forall_drop, H. Qed.

Lemma Forall_filter_nonblank (l : list str) :
  Forall (fun line => nonblank line = true) (List.filter nonblank l).
Proof. apply Forall_forall. intros x Hx. apply list_elem_of_In, filter_In in Hx. apply Hx. Qed.

Lemma read_back_nonpositive fuel data n chunk_size buffer pos :
  n <= 0 -> read_back fuel data n chunk_size [] buffer pos = Some [].
Proof.
  intros Hn.
  assert (H : (Z.of_nat (length (@nil str)) <? n) = false)
    by (apply Z.ltb_ge; simpl; lia).
  destruct fuel; cbn [read_back]; rewrite H; reflexivity.
Qed.

(** What the loop returns is made of non-blank lines, at most [n] of
    them. *)
Lemma read_back_bound fuel data n chunk_size lines buffer pos res :
  Forall (fun line => nonblank line = true) lines ->
  lines = [] \/ 1 <= n ->
  read_back fuel data n chunk_size lines buffer pos = Some res ->
  Forall (fun line => nonblank line = true) res
  /\ (length res <= Z.to_nat n)%nat.
Proof.
  revert lines buffer pos.
  induction fuel as [|fuel IH]; intros lines buffer pos Hnb Hn; simpl.
  - destruct (_ && _) eqn:Hloop; [discriminate|]. intros [= <-].
    destruct Hn as [-> | Hn]; simpl; [split; [constructor|lia]|].
    destruct (truthy lines); [|split; [constructor|simpl; lia]].
    split; [apply Forall_last_slice, Hnb|apply last_slice_length, Hn].
  - destruct (_ && _) eqn:Hloop.
    + apply andb_prop in Hloop as [Hlt _]. apply Z.ltb_lt in Hlt.
      assert (Hn1 : 1 <= n) by lia.
      destruct (if _ : bool then _ else _) as [[buffer' lines']|];
        [|intros [= <-]; split; [constructor|simpl; lia]].
      destruct (n <? _).
      * intros [= <-].
        split; [apply Forall_last_slice, Forall_filter_nonblank
               |apply last_slice_length, Hn1].
      * apply IH; [apply Forall_filter_nonblank|right; exact Hn1].
    + intros [= <-].
      destruct Hn as [-> | Hn]; simpl; [split; [constructor|lia]|].
      destruct (truthy lines); [|split; [constructor|simpl; lia]].
      split; [apply Forall_last_slice, Hnb|apply last_slice_length, Hn].
Qed.

End reverse_reader_results.

(** X5: the default of [get_last_lines] is never used: the loop returns
    within the fuel it is given. *)
Theorem reverse_loop_terminates (data : Text.bytes) (n : Z) :
  data <> [] ->
  is_Some (ReverseReader.read_back (length data) data n
             (Nat.min ReverseReader.CHUNK_LIMIT (length data)) [] []
             (length data)).
Proof.
  intros Hne. apply read_back_returns; [|lia].
  destruct data; [congruence|]. simpl length.
  unfold ReverseReader.CHUNK_LIMIT. lia.
Qed.

Lemma reverse_loop_terminates_witness :
  is_Some (ReverseReader.read_back 2 [97; 10] 1
             (Nat.min ReverseReader.CHUNK_LIMIT 2) [] [] 2).
Proof. apply (reverse_loop_terminates [97; 10] 1). discriminate. Defined.

(** X3: [get_last_lines] returns non-blank lines only, and never more
    than [n] of them. *)
Theorem last_lines_are_non_blank_and_at_most_n
    (fs : OS.filesystem) (filepath : string) (n : Z) :
  Forall (fun line => ReverseReader.nonblank line = true)
         (ReverseReader.get_last_lines fs filepath n)
  /\ (length (ReverseReader.get_last_lines fs filepath n) <= Z.to_nat n)%nat.
Proof.
  unfold ReverseReader.get_last_lines.
  destruct (negb _); [split; [constructor|simpl; lia]|].
  destruct (OS.open_read fs filepath) as [ino|]; [|split; [constructor|simpl; lia]].
  destruct (_ =? _)%nat; [split; [constructor|simpl; lia]|].
  destruct (ReverseReader.read_back _ _ _ _ _ _ _) as [res|] eqn:Hres;
    [|split; [constructor|simpl; lia]].
  simpl. eapply read_back_bound; [constructor|left; reflexivity|exact Hres].
Qed.

(** X4: a missing path, an empty file and a count that is not positive
    all give the empty list. *)
Theorem nothing_to_read_gives_no_lines
    (fs : OS.filesystem) (filepath : string) (i : Z) (n : Z) :
  (OS.path_exists fs filepath = false ->
   ReverseReader.get_last_lines fs filepath n = [])
  /\ (serves fs filepath i [] ->
      ReverseReader.get_last_lines fs filepath n = [])
  /\ (n <= 0 -> ReverseReader.get_last_lines fs filepath n = []).
Proof.
  unfold ReverseReader.get_last_lines. split; [|split].
  - intros ->. reflexivity.
  - intros Hfs. rewrite (stat_exists _ _ _ (serves_stat _ _ _ _ Hfs)).
    rewrite (serves_open _ _ _ _ Hfs), (serves_data _ _ _ _ Hfs). reflexivity.
  - intros Hn. destruct (negb _); [reflexivity|].
    destruct (OS.open_read fs filepath) as [ino|]; [|reflexivity].
    destruct (_ =? _)%nat; [reflexivity|].
    rewrite read_back_nonpositive by exact Hn. reflexivity.
Qed.

Lemma read_back_single_chunk k data n :
  length data = S k -> 1 <= n ->
  ReverseReader.read_back (S k) data n (S k) [] [] (S k)
    = Some (ReverseReader.final_lines data n).
Proof.
  intros Hlen Hn. cbn [ReverseReader.read_back length].
  destruct (Z.ltb_spec (Z.of_nat 0) n); [|lia].
  replace (0 <? S k)%nat with true by reflexivity. cbn [andb].
  rewrite !Nat.min_id, !Nat.sub_diag.
  replace (0 <? 0)%nat with false by reflexivity. cbn [andb drop].
  rewrite <- Hlen, firstn_all, !app_nil_r.
  unfold ReverseReader.final_lines. change (drop 0 data) with data.
  destruct (n <? _); [reflexivity|].
  rewrite read_back_at_start.
  destruct (List.filter _ _); [rewrite last_slice_nil|]; reflexivity.
Qed.

(** X2: a file that fits in one chunk: the function returns the last [n]
    non-blank lines of the decoded file, whatever its bytes. *)
Theorem single_chunk_gives_the_final_lines
    (fs : OS.filesystem) (filepath : string) (i : Z)
    (data : Text.bytes) (n : Z) :
  serves fs filepath i data -> data <> [] ->
  (length data <= ReverseReader.CHUNK_LIMIT)%nat -> 1 <= n ->
  ReverseReader.get_last_lines fs filepath n
    = ReverseReader.final_lines data n.
Proof.
  intros Hfs Hne Hsmall Hn. unfold ReverseReader.get_last_lines.
  rewrite (stat_exists _ _ _ (serves_stat _ _ _ _ Hfs)).
  rewrite (serves_open _ _ _ _ Hfs), (serves_data _ _ _ _ Hfs). simpl negb.
  cbv iota.
  destruct (length data) as [|k] eqn:Hlen; [destruct data; [congruence|discriminate]|].
  rewrite Nat.min_r by lia.
  change (S k =? 0)%nat with false. cbv iota.
  rewrite (read_back_single_chunk k data n Hlen Hn). reflexivity.
Qed.

Lemma single_chunk_gives_the_final_lines_witness :
  ReverseReader.get_last_lines (Examples.holding "a
b
c
") Examples.app_log 2
    = [Text.of_string "b"; Text.of_string "c"].
Proof.
  rewrite (single_chunk_gives_the_final_lines (Examples.holding "a
b
c
") Examples.app_log 7 (Text.of_string "a
b
c
") 2 (conj eq_refl eq_refl) ltac:(discriminate)
             ltac:(vm_compute; lia) ltac:(lia)).
  reflexivity.
Defined.

(** ** The reverse reader on files of several chunks *)

Section reverse_chunks.
Import Text OS ReverseReader.

Lemma split_nonempty (sep : Z) (s : str) : split sep s <> [].
Proof.
  destruct s as [|c s]; simpl; [discriminate|].
  destruct (c =? sep); [discriminate|]. destruct (split sep s); discriminate.
Qed.

Lemma split_app_sep (sep : Z) (a b : str) :
  split sep (a ++ sep :: b) = split sep a ++ split sep b.
Proof.
  induction a as [|c a IH]; simpl.
  - rewrite Z.eqb_refl. reflexivity.
  - destruct (c =? sep); [rewrite IH; reflexivity|].
    rewrite IH. pose proof (split_nonempty sep a) as Hne.
    destruct (split sep a) as [|l ls]; [contradiction|]. reflexivity.
Qed.

Lemma split_no_sep (sep : Z) (a : str) : sep ∉ a -> split sep a = [a].
Proof.
  induction a as [|c a IH]; intros Hnot; simpl; [reflexivity|].
  destruct (Z.eqb_spec c sep) as [->|Hne].
  - exfalso. apply Hnot. left.
  - rewrite IH; [reflexivity|]. intros Hin. apply Hnot. right. exact Hin.
Qed.

Lemma filter_filter_app (f : str -> bool) (a b : list str) :
  List.filter f (a ++ List.filter f b) = List.filter f (a ++ b).
Proof.
  rewrite !List.filter_app. f_equal.
  induction b as [|x b IH]; simpl; [reflexivity|].
  destruct (f x) eqn:Hx; simpl; [rewrite Hx, IH|]; auto.
Qed.

Lemma utf8_scan_ascii (l : bytes) : ascii l -> utf8_scan l = List.map Some l.
Proof.
  induction 1 as [|b l Hb _ IH]; simpl; [reflexivity|].
  destruct (Z.ltb_spec b 128); [|lia]. rewrite IH. reflexivity.
Qed.

Lemma decode_ignore_ascii (l : bytes) : ascii l -> decode_ignore l = l.
Proof.
  intros Hl. unfold decode_ignore. rewrite (utf8_scan_ascii l Hl).
  clear Hl. induction l as [|b l IH]; [reflexivity|].
  cbn [List.map omap]. unfold id at 1. cbn. f_equal. exact IH.
Qed.

Lemma encode_chars_ascii (s : str) :
  ascii s ->
  @mapM option _ _ Z (list Z) encode_char s
    = Some (List.map (fun c => [c]) s).
Proof.
  intros Hs. apply mapM_Some_2.
  induction Hs as [|c s Hc _ IH]; constructor; [|exact IH].
  unfold encode_char. destruct (Z.ltb_spec c 128); [reflexivity|lia].
Qed.

Lemma encode_ascii (s : str) : ascii s -> encode s = Some s.
Proof.
  intros Hs. unfold encode. rewrite (encode_chars_ascii s Hs).
  cbn [fmap option_fmap option_map]. f_equal.
  clear Hs. induction s as [|c s IH]; [reflexivity|].
  cbn [List.map]. change (mjoin ([c] :: List.map (fun c => [c]) s))
    with ([c] ++ mjoin (List.map (fun c => [c]) s)).
  rewrite IH. reflexivity.
Qed.

Lemma last_slice_suffix {A} (n : Z) (x l : list A) :
  1 <= n -> (Z.to_nat n <= length l)%nat ->
  last_slice n (x ++ l) = last_slice n l.
Proof.
  intros Hn Hlen. unfold last_slice. destruct (Z.ltb_spec 0 n); [|lia].
  rewrite length_app, drop_app_ge by lia. f_equal. lia.
Qed.

Variable data : bytes.
Variable n : Z.
Variable chunk_size : nat.
Hypothesis data_ascii : ascii data.
Hypothesis n_positive : 1 <= n.
Hypothesis chunk_positive : (0 < chunk_size)%nat.

(** The reads of the loop start a whole number of chunks before the end
    of the file.  Every such read that does not start the file contains a
    line separator. *)
Hypothesis separated :
  forall q k, (0 < q)%nat -> (q + S k * chunk_size = length data)%nat ->
              LF ∈ take chunk_size (drop q data).

Lemma ascii_drop k : ascii (drop k data).
Proof. apply Forall_drop, data_ascii. Qed.

Lemma loop_state_suffix lines buffer pos :
  loop_state data lines buffer pos -> lines <> [] ->
  exists x, all_lines data = x ++ lines.
Proof.
  intros (Hpos & rest & Hdrop & [[-> ->] | (text & -> & ->)]) Hne;
    [congruence|].
  exists (List.filter nonblank (split LF (take pos data ++ buffer))).
  unfold all_lines. rewrite decode_ignore_ascii by exact data_ascii.
  rewrite <- List.filter_app, <- split_app_sep, <- app_assoc, <- Hdrop.
  rewrite take_drop. reflexivity.
Qed.

Lemma loop_state_slice lines buffer pos :
  loop_state data lines buffer pos -> (Z.to_nat n <= length lines)%nat ->
  last_slice n lines = last_slice n (all_lines data).
Proof.
  intros Hst Hlen.
  destruct (loop_state_suffix lines buffer pos Hst) as [x ->].
  { destruct lines; [simpl in Hlen; lia|discriminate]. }
  symmetry. apply last_slice_suffix; assumption.
Qed.

(** The lines gathered by the read that reaches the start of the file. *)
Lemma whole_file_lines lines buffer pos :
  loop_state data lines buffer pos ->
  List.filter nonblank
    (split LF (decode_ignore (take pos (drop 0 data) ++ buffer)) ++ lines)
    = all_lines data.
Proof.
  intros (Hpos & rest & Hdrop & Hrest). change (drop 0 data) with data.
  assert (Hbuf : ascii (take pos data ++ buffer)).
  { apply Forall_app. split; [apply Forall_take, data_ascii|].
    pose proof (ascii_drop pos) as H. rewrite Hdrop in H.
    apply Forall_app in H. apply H. }
  rewrite decode_ignore_ascii by exact Hbuf.
  unfold all_lines. rewrite decode_ignore_ascii by exact data_ascii.
  transitivity (List.filter nonblank
                  (split LF (take pos data ++ buffer ++ rest)));
    [|rewrite <- Hdrop, take_drop; reflexivity].
  destruct Hrest as [[-> ->] | (text & -> & ->)].
  - rewrite !app_nil_r. reflexivity.
  - rewrite filter_filter_app, app_assoc, split_app_sep. reflexivity.
Qed.

Lemma read_back_final_lines (fuel : nat) :
  forall lines buffer pos j,
    (pos <= fuel)%nat -> (0 < pos)%nat ->
    (pos + j * chunk_size = length data)%nat ->
    loop_state data lines buffer pos ->
    read_back fuel data n chunk_size lines buffer pos
      = Some (last_slice n (all_lines data)).
Proof.
  induction fuel as [|fuel IH]; intros lines buffer pos j Hfuel Hpos Hj Hst;
    [lia|].
  cbn [read_back].
  destruct (Z.ltb_spec (Z.of_nat (length lines)) n) as [Hfew|Hmany].
  2:{ cbn [andb]. cbv iota.
      assert (Hne : truthy lines = true)
        by (destruct lines; [simpl in Hmany; lia|reflexivity]).
      rewrite Hne. f_equal.
      apply (loop_state_slice lines buffer pos Hst). lia. }
  destruct (Nat.ltb_spec 0 pos); [|lia]. cbn [andb]. cbv iota.
  set (read_size := Nat.min chunk_size pos).
  destruct (Nat.eq_dec (pos - read_size)%nat 0%nat) as [Hzero|Hnonzero].
  - (* the read reaches the start of the file *)
    rewrite Hzero. cbn [Nat.ltb Nat.leb andb]. cbv iota.
    assert (Hread : read_size = pos) by (unfold read_size in *; lia).
    rewrite Hread, (whole_file_lines lines buffer pos Hst).
    destruct (n <? _); [reflexivity|].
    rewrite read_back_at_start.
    destruct (all_lines data); [rewrite last_slice_nil|]; reflexivity.
  - (* a full chunk behind the start of the file *)
    assert (Hread : read_size = chunk_size) by (unfold read_size in *; lia).
    rewrite Hread.
    set (pos' := (pos - chunk_size)%nat) in *.
    destruct Hst as (Hlen & rest & Hdrop & Hrest).
    assert (Hchunk : drop pos' data
                     = take chunk_size (drop pos' data) ++ buffer ++ rest).
    { rewrite <- Hdrop. rewrite <- (take_drop chunk_size (drop pos' data)) at 1.
      rewrite drop_drop. f_equal. f_equal. unfold pos'. lia. }
    assert (Hj' : (pos' + S j * chunk_size = length data)%nat)
      by (unfold pos'; lia).
    assert (Hsep : LF ∈ take chunk_size (drop pos' data) ++ buffer).
    { apply elem_of_app. left. apply (separated pos' j); [|exact Hj'].
      unfold pos'; lia. }
    destruct (list_elem_of_split_l _ _ Hsep) as (frag & mid & Hcut & Hfrag).
    assert (Hascii : ascii (take chunk_size (drop pos' data) ++ buffer)).
    { pose proof (ascii_drop pos') as H'. rewrite Hchunk, app_assoc in H'.
      apply Forall_app in H'. apply H'. }
    rewrite decode_ignore_ascii by exact Hascii.
    rewrite Hcut, split_app_sep, (split_no_sep LF frag Hfrag).
    destruct (Nat.ltb_spec 0 pos'); [|lia].
    pose proof (split_nonempty LF mid) as Hmid.
    destruct (split LF mid) as [|m0 ms] eqn:Hsplit; [contradiction|].
    cbn [app length Nat.ltb Nat.leb andb hd tail]. cbv iota.
    assert (Hfa : ascii frag).
    { rewrite Hcut in Hascii. apply Forall_app in Hascii. apply Hascii. }
    rewrite (encode_ascii frag Hfa). cbn [mbind option_bind].
    assert (Hnext : loop_state data
                      (List.filter nonblank ((m0 :: ms) ++ lines))
                      frag pos').
    { split; [unfold pos'; lia|]. exists (LF :: mid ++ rest).
      split.
      - rewrite Hchunk, app_assoc, Hcut, <- app_assoc. reflexivity.
      - right. exists (mid ++ rest). split; [reflexivity|].
        rewrite <- Hsplit.
        destruct Hrest as [[-> ->] | (text & -> & ->)].
        + rewrite !app_nil_r. reflexivity.
        + rewrite filter_filter_app, split_app_sep. reflexivity. }
    change ((m0 :: ms) ++ lines) with (m0 :: ms ++ lines) in Hnext.
    destruct (Z.ltb_spec n (Z.of_nat
                (length (List.filter nonblank (m0 :: ms ++ lines)))))
      as [Hover|Hunder].
    + f_equal. apply (loop_state_slice _ frag pos' Hnext). lia.
    + apply (IH _ _ _ (S j)); [unfold pos'; lia|assumption|exact Hj'|exact Hnext].
Qed.

End reverse_chunks.

(** X1: the backward reads of [get_last_lines] start a whole number of
    chunks before the end of the file.  On a file of ASCII text in which
    every such read that does not start the file contains a line separator,
    [get_last_lines] returns the last [n] non-blank lines of the file. *)
Theorem separated_chunks_give_the_final_lines
    (fs : OS.filesystem) (filepath : string) (i : Z)
    (data : Text.bytes) (n : Z) :
  serves fs filepath i data -> data <> [] -> ascii data -> 1 <= n ->
  (forall q k, (0 < q)%nat ->
               (q + S k * ReverseReader.CHUNK_LIMIT = length data)%nat ->
               Text.LF ∈ take ReverseReader.CHUNK_LIMIT (drop q data)) ->
  ReverseReader.get_last_lines fs filepath n
    = ReverseReader.final_lines data n.
Proof.
  intros Hfs Hne Hascii Hn Hsep. unfold ReverseReader.get_last_lines.
  rewrite (stat_exists _ _ _ (serves_stat _ _ _ _ Hfs)).
  rewrite (serves_open _ _ _ _ Hfs), (serves_data _ _ _ _ Hfs). simpl negb.
  cbv iota.
  assert (Hlen : (0 < length data)%nat)
    by (destruct data; [congruence|simpl; lia]).
  destruct (Nat.eqb_spec (length data) 0); [lia|].
  rewrite (read_back_final_lines data n
             (Nat.min ReverseReader.CHUNK_LIMIT (length data))
             Hascii Hn) with (j := 0%nat);
    try assumption; try lia.
  - reflexivity.
  - unfold ReverseReader.CHUNK_LIMIT. lia.
  - intros q k Hq Hk.
    destruct (Nat.le_gt_cases ReverseReader.CHUNK_LIMIT (length data)).
    + rewrite Nat.min_l in * by assumption. apply (Hsep q k); assumption.
    + rewrite Nat.min_r in Hk by lia. lia.
  - split; [lia|]. exists []. split; [|left; auto].
    rewrite drop_all. reflexivity.
Qed.

Lemma many_lines_separated :
  forall q, (0 < q)%nat ->
    (q + ReverseReader.CHUNK_LIMIT <= length Examples.many_lines)%nat ->
    Text.LF ∈ take ReverseReader.CHUNK_LIMIT (drop q Examples.many_lines).
Proof.
  assert (Hall : forallb (fun q =>
                   existsb (Z.eqb Text.LF)
                     (take ReverseReader.CHUNK_LIMIT
                        (drop q Examples.many_lines)))
                   (seq 1 (length Examples.many_lines
                           - ReverseReader.CHUNK_LIMIT)) = true)
    by (vm_compute; reflexivity).
  intros q Hq Hle. rewrite forallb_forall in Hall.
  specialize (Hall q). rewrite in_seq in Hall.
  assert (Hex : existsb (Z.eqb Text.LF)
                  (take ReverseReader.CHUNK_LIMIT (drop q Examples.many_lines))
                = true) by (apply Hall; lia).
  apply existsb_exists in Hex. destruct Hex as (x & Hin & Hx).
  apply Z.eqb_eq in Hx. subst x. apply list_elem_of_In, Hin.
Qed.

Lemma many_lines_reads_separated :
  forall q k, (0 < q)%nat ->
    (q + S k * ReverseReader.CHUNK_LIMIT = length Examples.many_lines)%nat ->
    Text.LF ∈ take ReverseReader.CHUNK_LIMIT (drop q Examples.many_lines).
Proof.
  intros q k Hq Hk. apply many_lines_separated; [exact Hq|].
  rewrite <- Hk, Nat.mul_succ_l. lia.
Qed.

Lemma separated_chunks_give_the_final_lines_witness :
  ReverseReader.get_last_lines
    (OS.single Examples.app_log 7 Examples.many_lines) Examples.app_log 3
    = [Text.of_string "line"; Text.of_string "line"; Text.of_string "line"].
Proof.
  rewrite (separated_chunks_give_the_final_lines
             (OS.single Examples.app_log 7 Examples.many_lines)
             Examples.app_log 7 Examples.many_lines 3
             (conj eq_refl eq_refl) ltac:(discriminate)
             ltac:(apply Forall_forall; intros x Hx;
                   apply list_elem_of_In in Hx;
                   assert (Hb : forallb (fun b => b <? 128)
                                  Examples.many_lines = true)
                     by (vm_compute; reflexivity);
                   rewrite forallb_forall in Hb;
                   apply Z.ltb_lt, Hb, Hx)
             ltac:(lia) many_lines_reads_separated).
  vm_compute. reflexivity.
Defined.

(** ** One line per step *)

(** X6: a step of the watcher publishes at most one line. *)
Theorem step_publishes_at_most_one_line
    (fs : OS.filesystem) (w : Watcher.watcher) :
  (length (Watcher.published (Watcher.step fs w).2) <= 1)%nat.
Proof.
  unfold Watcher.step, Watcher.wait_and_open, Watcher.follow,
    Watcher.read_and_publish, Watcher.on_exception, Watcher._close_file,
    Watcher._open_file, Watcher.published.
  repeat (case_match; simplify_eq/=; try lia).
Qed.

(** ** The size of the historical message *)

Lemma historical_lines_cons (log_id filepath : string)
    (LOG_FILES : list (string * string)) (fs : OS.filesystem) :
  Main.historical_lines ((log_id, filepath) :: LOG_FILES) fs
    = List.map (Main.label log_id)
        (ReverseReader.get_last_lines fs filepath 5)
      ++ Main.historical_lines LOG_FILES fs.
Proof. reflexivity. Qed.

Lemma get_last_lines_length (fs : OS.filesystem) (filepath : string) :
  (length (ReverseReader.get_last_lines fs filepath 5) <= 5)%nat.
Proof.
  unfold ReverseReader.get_last_lines.
  destruct (negb _); [simpl; lia|].
  destruct (OS.open_read fs filepath) as [ino|]; [|simpl; lia].
  destruct (_ =? _)%nat; [simpl; lia|].
  destruct (ReverseReader.read_back _ _ _ _ _ _ _) as [res|] eqn:Hres;
    [|simpl; lia].
  simpl.
  change 5%nat with (Z.to_nat 5).
  eapply proj2, read_back_bound; [constructor|left; reflexivity|exact Hres].
Qed.

(** X7: the historical message is made of one block of lines for each
    watched file, in the order of [LOG_FILES]: the lines that
    [get_last_lines] returns for that file, five at most, each with the
    label of its log. *)
Theorem history_has_at_most_five_lines_per_log
    (LOG_FILES : list (string * string)) (fs : OS.filesystem) :
  exists blocks : list (list Text.str),
    Main.historical_lines LOG_FILES fs = mjoin blocks
    /\ Forall2 (fun log block =>
                  block = List.map (Main.label log.1)
                            (ReverseReader.get_last_lines fs log.2 5)
                  /\ (length block <= 5)%nat)
               LOG_FILES blocks.
Proof.
  induction LOG_FILES as [|[log_id filepath] LOG_FILES IH].
  - exists []. split; [reflexivity|constructor].
  - destruct IH as (blocks & Hjoin & Hblocks).
    exists (List.map (Main.label log_id)
              (ReverseReader.get_last_lines fs filepath 5) :: blocks).
    split.
    + rewrite historical_lines_cons, Hjoin. reflexivity.
    + constructor; [|exact Hblocks]. split; [reflexivity|].
      rewrite length_map. apply get_last_lines_length.
Qed.


(** ** The decoder, one sequence at a time *)

Section scanning.
Import Text.

Lemma valid_seq_scan (seq : bytes) (c : Z) (rest : bytes) :
  valid_seq seq c -> utf8_scan (seq ++ rest) = Some c :: utf8_scan rest.
Proof.
  destruct 1 as [b0 H0|b0 b1 H0 H1|b0 b1 b2 H0 H1 H2|b0 b1 b2 b3 H0 H1 H2 H3];
    cbn [app utf8_scan].
  - destruct (Z.ltb_spec b0 128); [reflexivity|lia].
  - destruct (Z.ltb_spec b0 128); [lia|].
    destruct (Z.ltb_spec b0 194); [lia|].
    destruct (Z.ltb_spec b0 224); [|lia].
    rewrite H1. reflexivity.
  - destruct (Z.ltb_spec b0 128); [lia|].
    destruct (Z.ltb_spec b0 194); [lia|].
    destruct (Z.ltb_spec b0 224); [lia|].
    destruct (Z.ltb_spec b0 240); [|lia].
    rewrite H1, H2. reflexivity.
  - destruct (Z.ltb_spec b0 128); [lia|].
    destruct (Z.ltb_spec b0 194); [lia|].
    destruct (Z.ltb_spec b0 224); [lia|].
    destruct (Z.ltb_spec b0 240); [lia|].
    destruct (Z.ltb_spec b0 245); [|lia].
    rewrite H1, H2, H3. reflexivity.
Qed.

Lemma scan_step_good (seq : bytes) (c : Z) (rest : bytes) :
  valid_seq seq c -> scan_step (seq ++ rest).
Proof.
  intros H. left. exists seq, c, rest.
  split; [reflexivity|]. split; [exact H|]. apply valid_seq_scan, H.
Qed.

Lemma scan_step_bad (junk rest : bytes) :
  junk <> [] -> utf8_scan (junk ++ rest) = None :: utf8_scan rest ->
  scan_step (junk ++ rest).
Proof. intros H1 H2. right. exists junk, rest. auto. Qed.

Ltac scan_eval :=
  cbn [utf8_scan app];
  repeat match goal with
         | |- context [Z.ltb ?a ?b] => destruct (Z.ltb_spec a b); try lia
         end;
  repeat match goal with
         | H : _ = _ |- _ => rewrite H
         end;
  reflexivity.

Lemma utf8_scan_step (b0 : Z) (t0 : bytes) : scan_step (b0 :: t0).
Proof.
  destruct (Z.ltb_spec b0 128) as [H128|H128].
  { apply (scan_step_good [b0] b0 t0). constructor; exact H128. }
  destruct (Z.ltb_spec b0 194) as [H194|H194].
  { apply (scan_step_bad [b0] t0); [discriminate|scan_eval]. }
  destruct (Z.ltb_spec b0 224) as [H224|H224].
  { destruct t0 as [|b1 t1].
    - apply (scan_step_bad [b0] []); [discriminate|scan_eval].
    - destruct (is_continuation b1) eqn:H1.
      + apply (scan_step_good [b0; b1] (cp2 b0 b1) t1).
        constructor; [lia|exact H1].
      + apply (scan_step_bad [b0] (b1 :: t1)); [discriminate|scan_eval]. }
  destruct (Z.ltb_spec b0 240) as [H240|H240].
  { destruct t0 as [|b1 t1].
    - apply (scan_step_bad [b0] []); [discriminate|scan_eval].
    - destruct (second_of_3 b0 b1) eqn:H1.
      + destruct t1 as [|b2 t2].
        * apply (scan_step_bad [b0; b1] []); [discriminate|scan_eval].
        * destruct (is_continuation b2) eqn:H2.
          -- apply (scan_step_good [b0; b1; b2] (cp3 b0 b1 b2) t2).
             constructor; [lia|exact H1|exact H2].
          -- apply (scan_step_bad [b0; b1] (b2 :: t2));
               [discriminate|scan_eval].
      + apply (scan_step_bad [b0] (b1 :: t1)); [discriminate|scan_eval]. }
  destruct (Z.ltb_spec b0 245) as [H245|H245].
  2:{ apply (scan_step_bad [b0] t0); [discriminate|scan_eval]. }
  destruct t0 as [|b1 t1].
  { apply (scan_step_bad [b0] []); [discriminate|scan_eval]. }
  destruct (second_of_4 b0 b1) eqn:H1.
  2:{ apply (scan_step_bad [b0] (b1 :: t1)); [discriminate|scan_eval]. }
  destruct t1 as [|b2 t2].
  { apply (scan_step_bad [b0; b1] []); [discriminate|scan_eval]. }
  destruct (is_continuation b2) eqn:H2.
  2:{ apply (scan_step_bad [b0; b1] (b2 :: t2)); [discriminate|scan_eval]. }
  destruct t2 as [|b3 t3].
  { apply (scan_step_bad [b0; b1; b2] []); [discriminate|scan_eval]. }
  destruct (is_continuation b3) eqn:H3.
  - apply (scan_step_good [b0; b1; b2; b3] (cp4 b0 b1 b2 b3) t3).
    constructor; [lia|exact H1|exact H2|exact H3].
  - apply (scan_step_bad [b0; b1; b2] (b3 :: t3)); [discriminate|scan_eval].
Qed.

End scanning.

Section encoding.
Import Text.

Lemma forallb_seqZ (f : Z -> bool) (lo len x : Z) :
  forallb f (seqZ lo len) = true -> lo <= x < lo + len -> f x = true.
Proof.
  intros H Hx. rewrite forallb_forall in H. apply H.
  apply list_elem_of_In, elem_of_seqZ. lia.
Qed.

Lemma is_continuation_range (b : Z) :
  is_continuation b = true -> 0x80 <= b < 0x80 + 0x40.
Proof.
  unfold is_continuation. intros H. apply andb_prop in H as [H1 H2].
  apply Z.leb_le in H1. apply Z.ltb_lt in H2. lia.
Qed.

Lemma second_of_3_range (b0 b1 : Z) :
  second_of_3 b0 b1 = true -> 0x80 <= b1 < 0x80 + 0x40.
Proof.
  unfold second_of_3. intros H. apply andb_prop in H as [H _].
  apply is_continuation_range, H.
Qed.

Lemma second_of_4_range (b0 b1 : Z) :
  second_of_4 b0 b1 = true -> 0x80 <= b1 < 0x80 + 0x40.
Proof.
  unfold second_of_4. intros H. apply andb_prop in H as [H _].
  apply is_continuation_range, H.
Qed.

Ltac same_bytes H :=
  cbv beta in H;
  match type of H with
  | match ?e with _ => _ end = true =>
    destruct e as [[|? [|? [|? [|? [|? ?]]]]]|]; try discriminate H;
    repeat (let H' := fresh in apply andb_prop in H as [H H'];
            apply Z.eqb_eq in H'; subst);
    apply Z.eqb_eq in H; subst; reflexivity
  end.

Lemma encode_cp2 (b0 b1 : Z) :
  0xC2 <= b0 < 0xE0 -> is_continuation b1 = true ->
  encode_char (cp2 b0 b1) = Some [b0; b1].
Proof.
  intros H0 H1. apply is_continuation_range in H1.
  assert (Hall : forallb (fun b0 => forallb (fun b1 =>
            match encode_char (cp2 b0 b1) with
            | Some [a0; a1] => (a0 =? b0) && (a1 =? b1)
            | _ => false
            end) (seqZ 0x80 0x40)) (seqZ 0xC2 30) = true)
    by (vm_compute; reflexivity).
  apply (forallb_seqZ _ _ _ b0) in Hall; [|lia].
  apply (forallb_seqZ _ _ _ b1) in Hall; [|lia].
  same_bytes Hall.
Qed.

Lemma encode_cp3 (b0 b1 b2 : Z) :
  0xE0 <= b0 < 0xF0 -> second_of_3 b0 b1 = true ->
  is_continuation b2 = true ->
  encode_char (cp3 b0 b1 b2) = Some [b0; b1; b2].
Proof.
  intros H0 H1 H2. pose proof (second_of_3_range _ _ H1) as R1.
  apply is_continuation_range in H2.
  assert (Hall : forallb (fun b0 => forallb (fun b1 => forallb (fun b2 =>
            negb (second_of_3 b0 b1)
            || match encode_char (cp3 b0 b1 b2) with
               | Some [a0; a1; a2] => (a0 =? b0) && (a1 =? b1) && (a2 =? b2)
               | _ => false
               end)
            (seqZ 0x80 0x40)) (seqZ 0x80 0x40)) (seqZ 0xE0 16) = true)
    by (vm_compute; reflexivity).
  apply (forallb_seqZ _ _ _ b0) in Hall; [|lia].
  apply (forallb_seqZ _ _ _ b1) in Hall; [|lia].
  apply (forallb_seqZ _ _ _ b2) in Hall; [|lia].
  cbv beta in Hall. rewrite H1 in Hall. cbn [negb orb] in Hall.
  same_bytes Hall.
Qed.

(** The two high bytes and the two low bytes of a four-byte sequence
    occupy separate bits of the code point. *)
Lemma cp4_halves (b0 b1 b2 b3 : Z) :
  cp4 b0 b1 b2 b3
  = Z.lor (Z.lor (Z.shiftl (Z.land b0 0x07) 18) (Z.shiftl (low6 b1) 12))
          (Z.lor (Z.shiftl (low6 b2) 6) (low6 b3)).
Proof. unfold cp4. rewrite Z.lor_assoc. reflexivity. Qed.

Lemma encode_cp4 (b0 b1 b2 b3 : Z) :
  0xF0 <= b0 < 0xF5 -> second_of_4 b0 b1 = true ->
  is_continuation b2 = true -> is_continuation b3 = true ->
  encode_char (cp4 b0 b1 b2 b3) = Some [b0; b1; b2; b3].
Proof.
  intros H0 H1 H2 H3. pose proof (second_of_4_range _ _ H1) as R1.
  apply is_continuation_range in H2. apply is_continuation_range in H3.
  rewrite cp4_halves.
  set (hi := Z.lor (Z.shiftl (Z.land b0 0x07) 18) (Z.shiftl (low6 b1) 12)).
  set (lo := Z.lor (Z.shiftl (low6 b2) 6) (low6 b3)).
  assert (Hhi : (0x10000 <=? hi) && (Z.lor 0xF0 (Z.shiftr hi 18) =? b0)
                && (Z.lor 0x80 (low6 (Z.shiftr hi 12)) =? b1)
                && (low6 (Z.shiftr hi 6) =? 0) && (low6 hi =? 0) = true).
  { assert (Hall : forallb (fun b0 => forallb (fun b1 =>
              let hi := Z.lor (Z.shiftl (Z.land b0 0x07) 18)
                              (Z.shiftl (low6 b1) 12) in
              negb (second_of_4 b0 b1)
              || ((0x10000 <=? hi) && (Z.lor 0xF0 (Z.shiftr hi 18) =? b0)
                  && (Z.lor 0x80 (low6 (Z.shiftr hi 12)) =? b1)
                  && (low6 (Z.shiftr hi 6) =? 0) && (low6 hi =? 0)))
              (seqZ 0x80 0x40)) (seqZ 0xF0 5) = true)
      by (vm_compute; reflexivity).
    apply (forallb_seqZ _ _ _ b0) in Hall; [|lia].
    apply (forallb_seqZ _ _ _ b1) in Hall; [|lia].
    cbv beta zeta in Hall. rewrite H1 in Hall. exact Hall. }
  assert (Hlo : (0 <=? lo) && (Z.shiftr lo 12 =? 0)
                && (Z.lor 0x80 (low6 (Z.shiftr lo 6)) =? b2)
                && (Z.lor 0x80 (low6 lo) =? b3) = true).
  { assert (Hall : forallb (fun b2 => forallb (fun b3 =>
              let lo := Z.lor (Z.shiftl (low6 b2) 6) (low6 b3) in
              (0 <=? lo) && (Z.shiftr lo 12 =? 0)
              && (Z.lor 0x80 (low6 (Z.shiftr lo 6)) =? b2)
              && (Z.lor 0x80 (low6 lo) =? b3))
              (seqZ 0x80 0x40)) (seqZ 0x80 0x40) = true)
      by (vm_compute; reflexivity).
    apply (forallb_seqZ _ _ _ b2) in Hall; [|lia].
    apply (forallb_seqZ _ _ _ b3) in Hall; [|lia].
    exact Hall. }
  clearbody hi lo.
  repeat (let H := fresh in apply andb_prop in Hhi as [Hhi H]).
  repeat (let H := fresh in apply andb_prop in Hlo as [Hlo H]).
  repeat match goal with
         | H : (_ =? _) = true |- _ => apply Z.eqb_eq in H
         | H : (_ <=? _) = true |- _ => apply Z.leb_le in H
         end.
  assert (Hge : 0x10000 <= Z.lor hi lo) by (pose proof (lor_ge_l hi lo); lia).
  assert (H18 : Z.shiftr lo 18 = 0).
  { change 18 with (12 + 6). rewrite <- Z.shiftr_shiftr by lia.
    replace (Z.shiftr lo 12) with 0 by congruence. reflexivity. }
  unfold encode_char.
  destruct (Z.ltb_spec (Z.lor hi lo) 128); [lia|].
  destruct (Z.ltb_spec (Z.lor hi lo) 2048); [lia|].
  destruct (Z.ltb_spec (Z.lor hi lo) 65536); [lia|].
  rewrite !Z.shiftr_lor. unfold low6 in *. rewrite !Z.land_lor_distr_l.
  repeat match goal with
         | H : _ = 0 |- _ => rewrite H
         end.
  rewrite !Z.lor_0_r, !Z.lor_0_l.
  repeat f_equal; assumption.
Qed.

Lemma valid_seq_encode (seq : bytes) (c : Z) :
  valid_seq seq c -> encode_char c = Some seq.
Proof.
  destruct 1.
  - unfold encode_char. destruct (Z.ltb_spec b0 128); [reflexivity|lia].
  - apply encode_cp2; assumption.
  - apply encode_cp3; assumption.
  - apply encode_cp4; assumption.
Qed.

End encoding.

Section round_trip.
Import Text.

Lemma valid_seq_length (seq : bytes) (c : Z) :
  valid_seq seq c -> (1 <= length seq)%nat.
Proof. destruct 1; simpl; lia. Qed.

Lemma encode_cons (c : Z) (s : str) :
  encode (c :: s)
  = (b ← encode_char c; bs ← encode s; Some (b ++ bs)).
Proof.
  unfold encode. cbn [mapM]. destruct (encode_char c) as [b|]; [|reflexivity].
  cbn. destruct (@mapM option _ _ Z (list Z) encode_char s); reflexivity.
Qed.

Lemma decode_strict_cons (seq : bytes) (c : Z) (rest : bytes) (s : str) :
  valid_seq seq c -> decode_strict rest = Some s ->
  decode_strict (seq ++ rest) = Some (c :: s).
Proof.
  intros Hv Hs. apply decode_strict_Some. apply decode_strict_Some in Hs.
  rewrite (valid_seq_scan _ _ _ Hv), Hs. reflexivity.
Qed.

Lemma decode_encode_le (n : nat) (bs : bytes) (s : str) :
  (length bs <= n)%nat -> decode_strict bs = Some s -> encode s = Some bs.
Proof.
  revert bs s. induction n as [|n IH]; intros bs s Hn H.
  - destruct bs; [|simpl in Hn; lia]. injection H as <-. reflexivity.
  - destruct bs as [|b0 t0]; [injection H as <-; reflexivity|].
    apply decode_strict_Some in H.
    destruct (utf8_scan_step b0 t0)
      as [(seq & c & rest & Heq & Hv & Hscan)|(junk & rest & Heq & Hj & Hscan)];
      rewrite Hscan in H; (destruct s as [|c' s']; [discriminate|]);
      [|discriminate].
    injection H as <- Hrest. apply decode_strict_Some in Hrest.
    rewrite Heq, encode_cons, (valid_seq_encode _ _ Hv). cbn.
    rewrite (IH rest s'); [reflexivity| |exact Hrest].
    apply (f_equal length) in Heq. rewrite length_app in Heq.
    pose proof (valid_seq_length _ _ Hv). simpl in Heq, Hn. lia.
Qed.

Lemma decode_ignore_encode_le (n : nat) (bs : bytes) :
  (length bs <= n)%nat ->
  exists kept, encode (decode_ignore bs) = Some kept
               /\ decode_strict kept = Some (decode_ignore bs)
               /\ (length kept <= length bs)%nat.
Proof.
  revert bs. induction n as [|n IH]; intros bs Hn.
  - destruct bs; [|simpl in Hn; lia]. exists []. repeat split; reflexivity.
  - destruct bs as [|b0 t0]; [exists []; repeat split; reflexivity|].
    destruct (utf8_scan_step b0 t0)
      as [(seq & c & rest & Heq & Hv & Hscan)|(junk & rest & Heq & Hj & Hscan)].
    + assert (Hlen : (length rest <= n)%nat).
      { apply (f_equal length) in Heq. rewrite length_app in Heq.
        pose proof (valid_seq_length _ _ Hv). simpl in Heq, Hn. lia. }
      destruct (IH rest Hlen) as (kept & Henc & Hdec & Hk).
      assert (Hd : decode_ignore (b0 :: t0) = c :: decode_ignore rest).
      { unfold decode_ignore. rewrite Hscan. reflexivity. }
      exists (seq ++ kept). rewrite Hd. split; [|split].
      * rewrite encode_cons, (valid_seq_encode _ _ Hv). cbn.
        rewrite Henc. reflexivity.
      * apply decode_strict_cons; assumption.
      * rewrite Heq, !length_app. lia.
    + assert (Hlen : (length rest <= n)%nat).
      { apply (f_equal length) in Heq. rewrite length_app in Heq.
        destruct junk; [congruence|]. simpl in Heq, Hn. lia. }
      destruct (IH rest Hlen) as (kept & Henc & Hdec & Hk).
      assert (Hd : decode_ignore (b0 :: t0) = decode_ignore rest).
      { unfold decode_ignore. rewrite Hscan. reflexivity. }
      exists kept. rewrite Hd. split; [exact Henc|]. split; [exact Hdec|].
      rewrite Heq, length_app. lia.
Qed.

Lemma not_continuation (b : Z) : b < 0x80 -> is_continuation b = false.
Proof.
  intros H. unfold is_continuation.
  destruct (Z.leb_spec 128 b); [lia|reflexivity].
Qed.

Lemma valid_seq_before_ascii (seq : bytes) (c : Z) (rest l : bytes)
    (b : Z) (t : bytes) :
  valid_seq seq c -> seq ++ rest = l ++ b :: t -> b < 0x80 -> l <> [] ->
  exists l', l = seq ++ l' /\ rest = l' ++ b :: t.
Proof.
  intros Hv Heq Hb Hl. pose proof (not_continuation b Hb) as Hc.
  assert (H3 : forall b0, second_of_3 b0 b = false)
    by (intros; unfold second_of_3; rewrite Hc; reflexivity).
  assert (H4 : forall b0, second_of_4 b0 b = false)
    by (intros; unfold second_of_4; rewrite Hc; reflexivity).
  destruct Hv; destruct l as [|x0 [|x1 [|x2 [|x3 l']]]];
    try congruence; simplify_eq/=; try congruence;
    try (eexists; split; reflexivity).
  all: try (rewrite H3 in *; discriminate).
  all: try (rewrite H4 in *; discriminate).
Qed.

(** What precedes an ASCII byte of a text that decodes is a text that
    decodes. *)
Lemma decode_strict_before_ascii_le (n : nat) (l : bytes) (b : Z)
    (t : bytes) (line : str) :
  (length l <= n)%nat -> b < 0x80 ->
  decode_strict (l ++ b :: t) = Some line ->
  exists s s', decode_strict l = Some s /\ decode_strict (b :: t) = Some s'
               /\ line = s ++ s'.
Proof.
  revert l line. induction n as [|n IH]; intros l line Hn Hb H.
  - destruct l; [|simpl in Hn; lia]. exists [], line. auto.
  - destruct l as [|b0 t0]; [exists [], line; auto|].
    apply decode_strict_Some in H. cbn [app] in H.
    destruct (utf8_scan_step b0 (t0 ++ b :: t))
      as [(seq & c & rest & Heq & Hv & Hscan)|(junk & rest & Heq & Hj & Hscan)];
      rewrite Hscan in H; (destruct line as [|c' line']; [discriminate|]);
      [|discriminate].
    injection H as <- Hrest. apply decode_strict_Some in Hrest.
    destruct (valid_seq_before_ascii seq c rest (b0 :: t0) b t Hv)
      as (l' & Hl & Hr); [symmetry; exact Heq|exact Hb|discriminate|].
    subst rest.
    destruct (IH l' line') as (s & s' & Hs & Hs' & ->); [|exact Hb|exact Hrest|].
    { apply (f_equal length) in Hl. rewrite length_app in Hl.
      pose proof (valid_seq_length _ _ Hv). simpl in Hl, Hn. lia. }
    exists (c :: s), s'. split; [|split; [exact Hs'|reflexivity]].
    rewrite Hl. apply decode_strict_cons; assumption.
Qed.

Lemma decode_strict_before_ascii (l : bytes) (b : Z) (t : bytes)
    (line : str) :
  b < 0x80 -> decode_strict (l ++ b :: t) = Some line ->
  exists s s', decode_strict l = Some s /\ decode_strict (b :: t) = Some s'
               /\ line = s ++ s'.
Proof. apply (decode_strict_before_ascii_le (length l)). lia. Qed.

End round_trip.

Section carried.
Import Text.

Lemma valid_seq_ascii (seq : bytes) (c : Z) :
  valid_seq seq c -> c < 128 -> seq = [c].
Proof.
  destruct 1 as [b0 H0|b0 b1 H0 H1|b0 b1 b2 H0 H1 H2|b0 b1 b2 b3 H0 H1 H2 H3];
    intros Hc; [reflexivity| | |].
  - pose proof (cp2_large b0 b1 ltac:(lia)). lia.
  - pose proof (cp3_large b0 b1 b2 ltac:(lia) H1). lia.
  - pose proof (cp4_large b0 b1 b2 b3 ltac:(lia) H1). lia.
Qed.

(** A character below 128 of a decoded text is a byte of the input. *)
Lemma decoded_ascii_le (n : nat) (l : bytes) (s : str) (c : Z) :
  (length l <= n)%nat -> decode_strict l = Some s ->
  c ∈ s -> c < 128 -> c ∈ l.
Proof.
  revert l s. induction n as [|n IH]; intros l s Hn H Hin Hc.
  - destruct l; [|simpl in Hn; lia]. injection H as <-. inversion Hin.
  - destruct l as [|b0 t0]; [injection H as <-; inversion Hin|].
    apply decode_strict_Some in H.
    destruct (utf8_scan_step b0 t0)
      as [(seq & c0 & rest & Heq & Hv & Hscan)|(junk & rest & Heq & Hj & Hscan)];
      rewrite Hscan in H; (destruct s as [|c' s']; [discriminate|]);
      [|discriminate].
    injection H as <- Hrest. apply decode_strict_Some in Hrest.
    rewrite Heq. apply elem_of_app.
    apply elem_of_cons in Hin as [->|Hin].
    + left. rewrite (valid_seq_ascii seq c0 Hv Hc). left.
    + right. apply (IH rest s'); try assumption.
      apply (f_equal length) in Heq. rewrite length_app in Heq.
      pose proof (valid_seq_length _ _ Hv). simpl in Heq, Hn. lia.
Qed.

Lemma decode_strict_no_sep (l : bytes) (s : str) :
  decode_strict l = Some s -> LF ∉ l -> LF ∉ s.
Proof.
  intros H Hl Hin. apply Hl.
  apply (decoded_ascii_le (length l) l s LF); [lia|exact H|exact Hin|].
  unfold LF. lia.
Qed.

Lemma decode_strict_ignore (bs : bytes) (s : str) :
  decode_strict bs = Some s -> decode_ignore bs = s.
Proof.
  intros H. apply decode_strict_Some in H. unfold decode_ignore. rewrite H.
  clear H. induction s as [|c s IH]; [reflexivity|].
  cbn [List.map omap]. unfold id at 1. cbn. f_equal. exact IH.
Qed.

Lemma decode_ignore_app (l r : bytes) (s : str) :
  decode_strict l = Some s -> decode_ignore (l ++ r) = s ++ decode_ignore r.
Proof.
  intros H. pose proof (decode_strict_ignore l s H) as Hi.
  apply decode_strict_Some in H. unfold decode_ignore in *.
  rewrite utf8_scan_app, omap_app, Hi; [reflexivity|].
  rewrite H. apply Forall_forall. intros o Ho.
  apply list_elem_of_In, in_map_iff in Ho. destruct Ho as (c & <- & _).
  eexists; reflexivity.
Qed.

Lemma encode_is_Some (s : str) :
  Forall (fun c => is_Some (encode_char c)) s -> is_Some (encode s).
Proof.
  induction 1 as [|c s [b Hb] _ [bs IH]]; [eexists; reflexivity|].
  rewrite encode_cons, Hb, IH. eexists; reflexivity.
Qed.

Lemma decode_ignore_encodable_le (n : nat) (bs : bytes) :
  (length bs <= n)%nat ->
  Forall (fun c => is_Some (encode_char c)) (decode_ignore bs).
Proof.
  revert bs. induction n as [|n IH]; intros bs Hn.
  - destruct bs; [constructor|simpl in Hn; lia].
  - destruct bs as [|b0 t0]; [constructor|].
    destruct (utf8_scan_step b0 t0)
      as [(seq & c & rest & Heq & Hv & Hscan)|(junk & rest & Heq & Hj & Hscan)];
      unfold decode_ignore; rewrite Hscan; cbn [omap]; unfold id at 1; cbn.
    + constructor; [rewrite (valid_seq_encode _ _ Hv); eexists; reflexivity|].
      apply IH. apply (f_equal length) in Heq. rewrite length_app in Heq.
      pose proof (valid_seq_length _ _ Hv). simpl in Heq, Hn. lia.
    + apply IH. apply (f_equal length) in Heq. rewrite length_app in Heq.
      destruct junk; [congruence|]. simpl in Heq, Hn. lia.
Qed.

Lemma split_Forall (P : Z -> Prop) (sep : Z) (s : str) :
  Forall P s -> Forall (Forall P) (split sep s).
Proof.
  induction 1 as [|c s Hc _ IH]; simpl; [repeat constructor|].
  destruct (c =? sep); [constructor; [constructor|exact IH]|].
  destruct (split sep s) as [|l ls]; inversion IH; subst;
    repeat constructor; assumption.
Qed.

Lemma hd_Forall (P : Z -> Prop) (ls : list str) :
  Forall (Forall P) ls -> Forall P (hd [] ls).
Proof. destruct 1; [constructor|assumption]. Qed.

End carried.

(** X8: UTF-8 text that decodes strictly encodes back to the very bytes
    it was decoded from. *)
Theorem strict_decoding_round_trips (bs : Text.bytes) (s : Text.str) :
  Text.decode_strict bs = Some s -> Text.encode s = Some bs.
Proof. apply (decode_encode_le (length bs)). lia. Qed.

Lemma strict_decoding_round_trips_witness :
  Text.encode [233; 10] = Some [0xC3; 0xA9; 10].
Proof.
  apply (strict_decoding_round_trips [0xC3; 0xA9; 10] [233; 10]).
  reflexivity.
Defined.

(** X9: the fragment that the reverse reader carries to its next
    iteration, the text before the first line feed of the decoded buffer,
    can always be encoded again, whatever the bytes of the buffer, so that
    encoding never sends the function to its exception handler; and when
    the bytes before the first line feed of the buffer are valid UTF-8,
    the carried fragment is those very bytes. *)
Theorem carried_fragment_is_encodable (buffer : Text.bytes) :
  is_Some (Text.encode
             (hd [] (Text.split Text.LF (Text.decode_ignore buffer))))
  /\ forall (frag rest : Text.bytes) (s : Text.str),
       buffer = frag ++ Text.LF :: rest -> Text.LF ∉ frag ->
       Text.decode_strict frag = Some s ->
       Text.encode (hd [] (Text.split Text.LF (Text.decode_ignore buffer)))
         = Some frag.
Proof.
  split.
  - apply encode_is_Some, hd_Forall, split_Forall.
    apply (decode_ignore_encodable_le (length buffer)). lia.
  - intros frag rest s -> Hfrag Hs.
    rewrite (decode_ignore_app frag (Text.LF :: rest) s Hs).
    replace (Text.decode_ignore (Text.LF :: rest))
      with (Text.LF :: Text.decode_ignore rest) by reflexivity.
    rewrite split_app_sep.
    rewrite (split_no_sep Text.LF s (decode_strict_no_sep frag s Hs Hfrag)).
    cbn [app hd]. apply (decode_encode_le (length frag)); [lia|exact Hs].
Qed.

(** ** The watcher: what it publishes *)

Section reading_any.
Import Text OS Watcher.

Lemma translate_newlines_app (s t : str) :
  Forall inline s -> translate_newlines (s ++ t) = s ++ translate_newlines t.
Proof.
  induction 1 as [|c s [Hlf Hcr] _ IH]; simpl; [reflexivity|].
  destruct (Z.eqb_spec c CR); [contradiction|]. rewrite IH. reflexivity.
Qed.

(** The bytes of one line: bytes that end no line, then nothing (at the
    end of the file) or one of the three terminators. *)
Lemma line_end_split (bs : bytes) :
  exists inl term,
    take (line_end bs) bs = inl ++ term /\ Forall inline inl
    /\ (term = [] \/ term = [LF] \/ term = [CR] \/ term = [CR; LF]).
Proof.
  induction bs as [|b t IH].
  - exists [], []. split; [reflexivity|split; [constructor|auto]].
  - cbn [line_end]. destruct (Z.eqb_spec b LF) as [->|Hlf].
    { exists [], [LF]. split; [reflexivity|split; [constructor|auto]]. }
    destruct (Z.eqb_spec b CR) as [->|Hcr].
    { destruct t as [|b' t'].
      - exists [], [CR]. split; [reflexivity|split; [constructor|auto]].
      - destruct (Z.eqb_spec b' LF) as [->|Hne].
        + exists [], [CR; LF]. split; [reflexivity|split; [constructor|auto 6]].
        + exists [], [CR]. split; [reflexivity|split; [constructor|auto 6]]. }
    destruct IH as (inl & term & Htake & Hinl & Hterm).
    exists (b :: inl), term. cbn [take app]. rewrite Htake.
    split; [reflexivity|]. split; [|exact Hterm].
    constructor; [split; assumption|exact Hinl].
Qed.

(** What [readline] returns: characters that end no line, with a line
    feed behind them unless the file ended first. *)
Lemma readline_shape fs h line h' :
  readline fs h = Some (line, h') ->
  exists s, Forall inline s /\ (line = s \/ line = s ++ [LF]).
Proof.
  unfold readline. intros H.
  destruct (decode_strict (drop (h_pos h) (data_of fs (h_ino h))))
    as [whole|]; [|discriminate]. cbn in H.
  destruct (line_end_split (drop (h_pos h) (data_of fs (h_ino h))))
    as (inl & term & Htake & Hinl & Hterm).
  rewrite Htake in H.
  destruct (decode_strict (inl ++ term)) as [x|] eqn:Hx; [|discriminate].
  cbn in H. injection H as <- _.
  assert (Hb : forall b t, term = b :: t -> b < 128 ->
            translate_newlines (b :: t) = [LF] ->
            decode_strict (b :: t) = Some (b :: t) ->
            exists s, Forall inline s /\
              (translate_newlines x = s \/ translate_newlines x = s ++ [LF])).
  { intros b t -> Hlt Htr Hdec.
    destruct (decode_strict_before_ascii inl b t x Hlt Hx)
      as (s & s' & Hs & Hs' & ->).
    rewrite Hdec in Hs'. injection Hs' as <-.
    pose proof (decode_strict_inline inl s Hinl Hs) as Hin.
    exists s. split; [exact Hin|]. right.
    rewrite translate_newlines_app by exact Hin. rewrite Htr. reflexivity. }
  destruct Hterm as [-> | [-> | [-> | ->]]].
  - rewrite app_nil_r in Hx.
    pose proof (decode_strict_inline inl x Hinl Hx) as Hin.
    exists x. split; [exact Hin|]. left.
    apply translate_newlines_inline, Hin.
  - apply (Hb LF []); [reflexivity|unfold LF; lia|reflexivity|reflexivity].
  - apply (Hb CR []); [reflexivity|unfold CR; lia|reflexivity|reflexivity].
  - apply (Hb CR [LF]); [reflexivity|unfold CR; lia|reflexivity|reflexivity].
Qed.

Lemma rstrip_crlf_shape (s line : str) :
  Forall inline s -> line = s \/ line = s ++ [LF] -> rstrip_crlf line = s.
Proof.
  intros Hs [->| ->]; [apply rstrip_crlf_inline|apply rstrip_crlf_line];
    exact Hs.
Qed.

End reading_any.

Section labelled_events.
Import Text OS Watcher.

Lemma on_exception_labelled e w ev :
  Forall (labelled (log_id w)) ev ->
  Forall (labelled (log_id w)) (on_exception e w ev).2
  /\ log_id (on_exception e w ev).1 = log_id w.
Proof.
  intros Hev. unfold on_exception, _close_file.
  destruct (file w); simpl; (split; [|reflexivity]);
    rewrite ?Forall_app; repeat split; try exact Hev;
    repeat constructor.
Qed.

Lemma read_and_publish_labelled fs h w ev :
  Forall (labelled (log_id w)) ev ->
  Forall (labelled (log_id w)) (read_and_publish fs h w ev).2.
Proof.
  intros Hev. unfold read_and_publish.
  destruct (readline fs h) as [[line h']|] eqn:Hread.
  - destruct (readline_shape fs h line h' Hread) as (s & Hs & Hline).
    destruct (truthy line); simpl.
    + rewrite (rstrip_crlf_shape s line Hs Hline).
      destruct s as [|c s']; simpl; [exact Hev|].
      rewrite Forall_app. split; [exact Hev|].
      constructor; [|constructor]. simpl. auto.
    + rewrite Forall_app. split; [exact Hev|]. repeat constructor.
  - apply (on_exception_labelled UnicodeDecodeError (set_file (Some h) w) ev Hev).
Qed.

Lemma follow_labelled fs w ev :
  Forall (labelled (log_id w)) ev ->
  Forall (labelled (log_id w)) (follow fs w ev).2.
Proof.
  intros Hev. unfold follow.
  destruct (getsize fs (filepath w)) as [size|];
    [|apply on_exception_labelled, Hev].
  destruct (file w) as [h|]; [|apply on_exception_labelled, Hev].
  assert (Hseek : forall q, Forall (labelled (log_id w)) (ev ++ [Seek q])).
  { intros q. rewrite Forall_app. split; [exact Hev|]. repeat constructor. }
  destruct (size <? position w)%nat.
  { apply (read_and_publish_labelled fs _ (set_position 0 w)), Hseek. }
  destruct (position w <? size)%nat.
  - apply read_and_publish_labelled, Hseek.
  - apply read_and_publish_labelled, Hev.
Qed.

Lemma wait_and_open_labelled fs rotated w ev :
  Forall (labelled (log_id w)) ev ->
  Forall (labelled (log_id w)) (wait_and_open fs rotated w ev).2.
Proof.
  intros Hev. unfold wait_and_open.
  destruct (negb (path_exists fs (filepath w))); simpl.
  { rewrite Forall_app. split; [exact Hev|]. repeat constructor. }
  unfold _open_file. destruct (open_read fs (filepath (set_pc LoopTop w))) as [ino|];
    simpl.
  2:{ rewrite !Forall_app. repeat split; try exact Hev; repeat constructor. }
  assert (Hop : Forall (labelled (log_id w)) (ev ++ [Opened ino])).
  { rewrite Forall_app. split; [exact Hev|]. repeat constructor. }
  cbn [file set_inode set_file set_pc first_open].
  destruct (first_open w); [|destruct rotated];
    cbv beta iota zeta;
    match goal with
    | |- Forall _ (follow fs ?w' ?ev').2 =>
      apply (follow_labelled fs w' ev')
    end; cbn [log_id set_position set_file set_first_open set_inode set_pc];
    rewrite ?Forall_app; repeat split; try exact Hev; repeat constructor.
Qed.

Lemma step_labelled fs w : Forall (labelled (log_id w)) (step fs w).2.
Proof.
  unfold step. destruct (pc w).
  - destruct (file w) as [h|] eqn:Hf.
    + destruct (_is_rotated fs w).
      * unfold _close_file. rewrite Hf.
        apply (wait_and_open_labelled fs true (set_file None w)).
        repeat constructor.
      * apply follow_labelled. constructor.
    + apply wait_and_open_labelled. constructor.
  - apply wait_and_open_labelled. constructor.
Qed.

Lemma run_labelled (fss : list filesystem) (w : watcher) :
  Forall (labelled (log_id w)) (run fss w).2.
Proof.
  revert w. induction fss as [|fs fss IH]; intros w; simpl; [constructor|].
  pose proof (step_labelled fs w) as H1.
  pose proof (step_names fs w) as [Hid _].
  destruct (step fs w) as [w1 ev1]. simpl in *.
  specialize (IH w1). rewrite Hid in IH.
  destruct (run fss w1) as [w2 ev2]. simpl in *.
  rewrite Forall_app. split; assumption.
Qed.

End labelled_events.

(** X10: every line a watcher publishes, on whatever files it runs,
    carries the log id of that watcher, is not empty and holds neither a
    line feed nor a carriage return. *)
Theorem published_lines_are_labelled_and_whole
    (fss : list OS.filesystem) (w : Watcher.watcher) :
  Forall (labelled (Watcher.log_id w)) (Watcher.run fss w).2.
Proof. apply run_labelled. Qed.

Section terminated_lines.
Import Text OS Watcher.






End terminated_lines.



Section idle_and_waiting.
Import Text OS Watcher.






End idle_and_waiting.





Section unrotated.
Import Text OS Watcher.

(** What lines 109-122 leave in the trace, whatever the publish call does:
    no open, and a close only from the handler of the loop. *)
Lemma follow_with_trace {S : Type}
    (publish : string -> str -> S -> S * WebSocketManager.outcome unit)
    fs w s :
  let ev := (follow_with publish fs w [] s).1.2 in
  (forall i, Opened i ∉ ev) /\ (OpenFailed ∉ ev)
  /\ (forall i, Closed i ∈ ev -> raised ev = true).
Proof.
  unfold follow_with, read_and_publish_with, on_exception, _close_file.
  repeat (case_match; simplify_eq/=);
    (split; [|split]);
    first [ intros i Hin; first [ reflexivity
                                | apply list_elem_of_In in Hin; cbn in Hin;
                                  intuition discriminate ]
          | intros Hin; apply list_elem_of_In in Hin; cbn in Hin;
            intuition discriminate ].
Qed.
End unrotated.

(** X14: with a handle open, a rotation is seen exactly when the path no
    longer names the inode the handle was opened on (the path is gone or
    names another inode); while it names that inode the step is the
    comparison of the size with the position and the read, whatever
    happened to the content of the file: it opens nothing, and it closes
    the file only in the handler of an exception. *)
Theorem rotation_is_a_change_of_inode
    (l p : string) (fs : OS.filesystem) (w : Watcher.watcher)
    (h : Watcher.handle) :
  Watcher.reachable l p w ->
  Watcher.file w = Some h ->
  (Watcher._is_rotated fs w = true
   <-> OS.stat_ino fs p <> Some (Watcher.h_ino h))
  /\ (OS.stat_ino fs p = Some (Watcher.h_ino h) ->
      Watcher.step fs w = Watcher.follow fs w []
      /\ forall (S : Type)
                (publish : string -> Text.str -> S ->
                           S * WebSocketManager.outcome unit) (s : S),
           let ev := (Watcher.watch_step publish fs w s).1.2 in
           (forall i, Watcher.Opened i ∉ ev) /\ (Watcher.OpenFailed ∉ ev)
           /\ (forall i, Watcher.Closed i ∈ ev -> Watcher.raised ev = true)).
Proof.
  intros Hreach Hf.
  destruct (reachable_names l p w Hreach) as [Hl Hp].
  pose proof (reachable_consistent l p w Hreach) as Hc.
  unfold consistent in Hc. rewrite Hf in Hc. destruct Hc as (Hi & Hfo & Hpc).
  split.
  - unfold Watcher._is_rotated, OS.path_exists, OS.stat_ino.
    rewrite Hi, Hp. destruct (OS.dir fs !! p) as [j|].
    + rewrite bool_decide_eq_true_2 by (eexists; reflexivity). cbn.
      destruct (Z.eqb_spec j (Watcher.h_ino h)) as [->|Hne]; cbn.
      * split; [discriminate|]. intros H. contradiction H. reflexivity.
      * split; [|reflexivity]. intros _ [= ?]. contradiction.
    + rewrite bool_decide_eq_false_2 by (intros [x Hx]; discriminate).
      cbn. split; [discriminate|reflexivity].
  - intros Hs. rewrite <- Hp in Hs. split.
    + exact (step_follow fs w h (Watcher.h_ino h) Hpc Hf Hi Hs).
    + intros S publish s. unfold Watcher.watch_step.
      rewrite Hpc, Hf, (not_rotated fs w _ Hi Hs).
      apply follow_with_trace.
Qed.

Lemma rotation_is_a_change_of_inode_witness :
  Watcher._is_rotated Examples.replaced Examples.tailing = true
  /\ Watcher.step Examples.cut_down Examples.tailing
     = Watcher.follow Examples.cut_down Examples.tailing [].
Proof.
  split.
  - apply (rotation_is_a_change_of_inode "app" Examples.app_log
             Examples.replaced Examples.tailing
             {| Watcher.h_ino := 7; Watcher.h_pos := 8 |}
             tailing_reachable eq_refl).
    discriminate.
  - apply (rotation_is_a_change_of_inode "app" Examples.app_log
             Examples.cut_down Examples.tailing
             {| Watcher.h_ino := 7; Watcher.h_pos := 8 |}
             tailing_reachable eq_refl).
    reflexivity.
Defined.

(** ** The registry over a sequence of publications *)

Section delivery.
Import Text WebSocketManager.

Lemma attempts_app (c : websocket) (xs ys : list event) :
  attempts c (xs ++ ys) = attempts c xs ++ attempts c ys.
Proof. apply omap_app. Qed.

Lemma attempts_map_cons (net : network) (c : websocket) (data : message)
    (x : websocket) (l : list websocket) :
  attempts c (List.map (attempt net data) (x :: l))
  = (if decide (x = c) then [(data, net x data)] else [])
      ++ attempts c (List.map (attempt net data) l).
Proof. unfold attempts. cbn. destruct (decide (x = c)); reflexivity. Qed.

Lemma attempts_absent (net : network) (c : websocket) (data : message)
    (l : list websocket) :
  c ∉ l -> attempts c (List.map (attempt net data) l) = [].
Proof.
  induction l as [|x l IH]; intros Hc; [reflexivity|].
  apply not_elem_of_cons in Hc as [Hne Hc].
  rewrite attempts_map_cons, (IH Hc).
  destruct (decide (x = c)); [congruence|reflexivity].
Qed.

Lemma attempts_once (net : network) (c : websocket) (data : message)
    (l : list websocket) :
  NoDup l -> c ∈ l ->
  attempts c (List.map (attempt net data) l) = [(data, net c data)].
Proof.
  induction 1 as [|x l Hx Hl IH]; intros Hc; [inversion Hc|].
  rewrite attempts_map_cons. destruct (decide (x = c)) as [->|Hne].
  - rewrite (attempts_absent net c data l Hx). reflexivity.
  - apply elem_of_cons in Hc as [Hc|Hc]; [congruence|]. apply IH, Hc.
Qed.

(** Whatever happens meanwhile, a call sends nothing to a socket that is
    not in the set when the call begins. *)
Lemma send_to_all_absent (net : network) (data : message) (m : manager)
    (c : websocket) :
  c ∉ active_connections m ->
  attempts c (_send_to_all net data m).2 = [].
Proof.
  intros Hc. unfold _send_to_all.
  destruct (send_loop_sends net data (elements (active_connections m))
              (size (active_connections m)) (active_connections m) ∅)
    as [n Hn].
  destruct (send_loop net data _ _ _ _) as [[live res] ev]. cbn in Hn.
  assert (Hev : attempts c ev = []).
  { rewrite Hn. apply attempts_absent. intros Hin. apply Hc.
    apply elem_of_elements. eapply subseteq_take. exact Hin. }
  destruct res; exact Hev.
Qed.

(** One undisturbed call, as a socket sees it. *)
Lemma send_to_all_attempts (net : network) (data : message) (m : manager)
    (c : websocket) :
  quiet net ->
  exists m',
    _send_to_all net data m
      = (m', Ok (),
         List.map (attempt net data) (elements (active_connections m)))
    /\ (forall c', c' ∈ active_connections m' <->
                   c' ∈ active_connections m /\ net c' data = true)
    /\ attempts c (List.map (attempt net data)
                            (elements (active_connections m)))
       = if decide (c ∈ active_connections m)
         then [(data, net c data)] else [].
Proof.
  intros Hquiet.
  destruct (send_to_all_spec net data Hquiet m) as (m' & Hrun & Hm').
  exists m'. split; [exact Hrun|]. split; [exact Hm'|].
  destruct (decide (c ∈ active_connections m)) as [Hc|Hc].
  - apply attempts_once; [apply NoDup_elements|apply elem_of_elements, Hc].
  - apply attempts_absent. rewrite elem_of_elements. exact Hc.
Qed.

Lemma broadcasts_attempts (calls : list (network * (string * str))) :
  Forall (fun call => quiet call.1) calls ->
  forall (m : manager) (c : websocket),
    attempts c (App.broadcasts calls m).2
    = (if decide (c ∈ active_connections m)
       then until_failure c calls else [])
    /\ (c ∈ active_connections (App.broadcasts calls m).1 <->
        c ∈ active_connections m /\ Forall (reaches c) calls).
Proof.
  induction 1 as [|[net [log_id line]] calls Hq _ IH]; intros m c.
  - cbn. split; [destruct (decide _); reflexivity|].
    split; [intros H; split; [exact H|constructor]|intros [H _]; exact H].
  - cbn [App.broadcasts]. cbn [fst] in Hq. unfold broadcast.
    set (data := Realtime log_id line).
    destruct (send_to_all_attempts net data m c Hq) as (m' & Hrun & Hm' & Hatt).
    rewrite Hrun. specialize (IH m' c). destruct IH as [IH1 IH2].
    destruct (App.broadcasts calls m') as [m'' sent'] eqn:Hrest.
    cbn [fst snd] in *. rewrite attempts_app, Hatt, IH1.
    cbn [until_failure]. fold data. cbv zeta.
    destruct (decide (c ∈ active_connections m)) as [Hc|Hc].
    + destruct (delivers net c data) eqn:Hnet.
      * destruct (decide (c ∈ active_connections m')) as [Hc'|Hc'].
        -- split; [reflexivity|]. rewrite IH2, Forall_cons.
           change (reaches c (net, (log_id, line)))
             with (delivers net c data = true). tauto.
        -- exfalso. apply Hc', Hm'. auto.
      * destruct (decide (c ∈ active_connections m')) as [Hc'|Hc'].
        -- apply Hm' in Hc' as [_ Hc']. congruence.
        -- split; [reflexivity|]. rewrite IH2, Forall_cons.
           change (reaches c (net, (log_id, line)))
             with (delivers net c data = true).
           split; [tauto|]. intros (_ & H & _). congruence.
    + destruct (decide (c ∈ active_connections m')) as [Hc'|Hc'].
      * apply Hm' in Hc' as [Hc' _]. contradiction.
      * split; [reflexivity|]. rewrite IH2. tauto.
Qed.

End delivery.

(** X15: over any sequence of publish calls, each with the network of its
    own and none disturbed by another task, a subscriber is sent each
    message once, in the order of the calls, up to and including the first
    one whose send fails, and nothing after that; a socket that is not
    subscribed is sent nothing; the subscribers left at the end are those
    whose sends all succeeded. *)
Theorem subscriber_is_sent_every_message_until_a_send_fails
    (calls : list (WebSocketManager.network * (string * Text.str)))
    (m : WebSocketManager.manager) (c : WebSocketManager.websocket) :
  Forall (fun call => quiet call.1) calls ->
  (c ∈ WebSocketManager.active_connections m ->
   attempts c (App.broadcasts calls m).2 = until_failure c calls)
  /\ (c ∉ WebSocketManager.active_connections m ->
      attempts c (App.broadcasts calls m).2 = [])
  /\ (c ∈ WebSocketManager.active_connections (App.broadcasts calls m).1 <->
      c ∈ WebSocketManager.active_connections m /\ Forall (reaches c) calls).
Proof.
  intros Hquiet.
  destruct (broadcasts_attempts calls Hquiet m c) as [H1 H2].
  destruct (decide (c ∈ WebSocketManager.active_connections m)) as [Hc|Hc];
    (split; [|split; [|exact H2]]); intros Hc'; try contradiction;
    exact H1.
Qed.

Lemma subscriber_is_sent_every_message_until_a_send_fails_witness :
  let call := ("app", Text.of_string "up") in
  let data := WebSocketManager.Realtime "app" (Text.of_string "up") in
  attempts 1%nat
    (App.broadcasts
       [(Examples.reliable, call); (Examples.broken, call);
        (Examples.reliable, call)]
       {| WebSocketManager.active_connections := {[ 1%nat ]} |}).2
  = [(data, true); (data, false)].
Proof.
  intros call data.
  apply (subscriber_is_sent_every_message_until_a_send_fails
           [(Examples.reliable, call); (Examples.broken, call);
            (Examples.reliable, call)]
           {| WebSocketManager.active_connections := {[ 1%nat ]} |} 1%nat).
  - repeat constructor.
  - exact (elem_of_singleton_2 (C := gset nat) 1%nat 1%nat eq_refl).
Defined.

Section system.
Import Text OS Watcher.

Lemma watch_step_returns {S : Type}
    (publish : string -> str -> S -> S * WebSocketManager.outcome unit)
    fs w (s : S) :
  (forall line, (publish (log_id w) line s).2 = WebSocketManager.Ok ()) ->
  watch_step publish fs w s
  = (step fs w,
     match published (step fs w).2 with
     | line :: _ => (publish (log_id w) line s).1
     | [] => s
     end).
Proof.
  intros Hok.
  unfold watch_step, step, wait_and_open_with, wait_and_open, follow_with,
    follow, read_and_publish_with, read_and_publish, on_exception,
    _close_file, _open_file, published.
  repeat (case_match; simplify_eq/=); try reflexivity;
    try match goal with
        | H : publish _ ?line _ = (_, WebSocketManager.Raised) |- _ =>
          specialize (Hok line); rewrite H in Hok; discriminate
        end;
    try match goal with
        | H : publish _ ?line _ = (_, _) |- _ => rewrite H; reflexivity
        end.
Qed.


Lemma step_publishes_le_1 fs w : (length (published (step fs w).2) <= 1)%nat.
Proof.
  unfold step, wait_and_open, follow, read_and_publish, on_exception,
    _close_file, _open_file, published.
  repeat (case_match; simplify_eq/=; try lia).
Qed.

Import WebSocketManager.

(** A step of a watcher with the registry when no other task disturbs its
    publish call: the step of the watcher, and the sends of the call. *)
Lemma watch_step_quiet (net : network) fs w (m : manager)
    (sent : list WebSocketManager.event) :
  quiet net ->
  exists m' sent',
    App.watch_step (net, fs) w (m, sent) = (step fs w, (m', sent ++ sent'))
    /\ forall c, c ∈ active_connections m ->
         (forall s, net c (Realtime (log_id w) s) = true) ->
         attempts c sent'
           = List.map (fun s => (Realtime (log_id w) s, true))
               (published (step fs w).2)
         /\ c ∈ active_connections m'.
Proof.
  intros Hquiet. unfold App.watch_step. cbn [fst snd].
  assert (Hcall : forall line r,
            exists m', App.publish net (log_id w) line r
              = ((m', r.2 ++ List.map (attempt net (Realtime (log_id w) line))
                               (elements (active_connections r.1))), Ok ())
              /\ forall c, c ∈ active_connections m' <->
                   c ∈ active_connections r.1
                   /\ net c (Realtime (log_id w) line) = true).
  { intros line r. unfold App.publish, broadcast.
    destruct (send_to_all_spec net (Realtime (log_id w) line) Hquiet r.1)
      as (m' & Hrun & Hm').
    exists m'. rewrite Hrun. split; [reflexivity|exact Hm']. }
  rewrite watch_step_returns
    by (intros line; destruct (Hcall line (m, sent)) as (m' & -> & _);
        reflexivity).
  pose proof (step_publishes_le_1 fs w) as Hlen.
  destruct (published (step fs w).2) as [|line [|line' rest]];
    [| |simpl in Hlen; lia].
  - exists m, []. rewrite app_nil_r. split; [reflexivity|].
    intros c Hc _. split; [reflexivity|exact Hc].
  - destruct (Hcall line (m, sent)) as (m' & Hrun & Hm').
    rewrite Hrun. cbn [fst snd].
    eexists m', _. split; [reflexivity|].
    intros c Hc Hnet. split; [|apply Hm'; auto].
    rewrite (attempts_once net c _ _ (NoDup_elements _))
      by (apply elem_of_elements, Hc).
    rewrite Hnet. reflexivity.
Qed.

Lemma watch_quiet (worlds : list (network * filesystem)) :
  Forall (fun world => quiet world.1) worlds ->
  forall w (m : manager) (sent : list WebSocketManager.event),
  exists m' sent',
    App.watch worlds w (m, sent)
      = (run (List.map snd worlds) w, (m', sent ++ sent'))
    /\ forall c, c ∈ active_connections m ->
         Forall (fun world =>
                   forall s, delivers world.1 c (Realtime (log_id w) s) = true)
                worlds ->
         attempts c sent'
           = List.map (fun s => (Realtime (log_id w) s, true))
               (published (run (List.map snd worlds) w).2)
         /\ c ∈ active_connections m'.
Proof.
  induction 1 as [|[net fs] worlds Hq _ IH]; intros w m sent.
  - exists m, []. cbn. rewrite app_nil_r. split; [reflexivity|].
    intros c Hc _. split; [reflexivity|exact Hc].
  - cbn [App.watch List.map run snd]. cbn [fst] in Hq.
    destruct (watch_step_quiet net fs w m sent Hq) as (m1 & sent1 & Hstep & H1).
    rewrite Hstep.
    destruct (step fs w) as [w1 ev1] eqn:Hw1.
    assert (Hid : log_id w1 = log_id w).
    { pose proof (step_names fs w) as [Hn _]. rewrite Hw1 in Hn. exact Hn. }
    destruct (IH w1 m1 (sent ++ sent1)) as (m2 & sent2 & Hrest & H2).
    rewrite Hrest. destruct (run (List.map snd worlds) w1) as [w2 ev2].
    exists m2, (sent1 ++ sent2). rewrite app_assoc. split; [reflexivity|].
    intros c Hc Hall. apply Forall_cons in Hall as [Hnet Hall].
    cbn [fst snd] in *.
    destruct (H1 c Hc Hnet) as [Ha1 Hc1].
    rewrite Hid in H2. destruct (H2 c Hc1 Hall) as [Ha2 Hc2].
    split; [|exact Hc2].
    rewrite attempts_app, Ha1, Ha2, published_app, map_app. reflexivity.
Qed.

End system.

(** X16: a watcher and the registry together, from the first open of the
    followed file on.  While complete non-empty lines are appended to the
    file, any number of them between two polls, and no other task disturbs
    the publish calls, a subscriber whose sends succeed is sent the first
    appended lines, one per poll that finds one, each once, in the order
    of the file, as a realtime message with the watcher's log id; it is
    still subscribed afterwards, and the watcher stands behind the last
    line that was sent. *)
Theorem appended_lines_reach_a_subscriber_in_order
    (l p : string) (w : Watcher.watcher) (i : Z) (data : Text.bytes)
    (ls : list Text.bytes) (ss : list Text.str)
    (world : WebSocketManager.network * OS.filesystem)
    (worlds : list (WebSocketManager.network * OS.filesystem))
    (ks : list nat)
    (m : WebSocketManager.manager) (c : WebSocketManager.websocket) :
  Watcher.reachable l p w ->
  Watcher.first_open w = true ->
  serves world.2 p i data ->
  Forall2 plain_line ls ss ->
  grows p i data ls 0 (List.map snd worlds) ks ->
  Forall (fun world =>
            quiet world.1
            /\ forall s, WebSocketManager.delivers world.1 c
                           (WebSocketManager.Realtime l s) = true)
         (world :: worlds) ->
  c ∈ WebSocketManager.active_connections m ->
  let n := polled 0 ks in
  let r := App.watch (world :: worlds) w (m, []) in
  attempts c r.2.2
    = List.map (fun s => (WebSocketManager.Realtime l s, true)) (take n ss)
  /\ c ∈ WebSocketManager.active_connections r.2.1
  /\ Watcher.published r.1.2 = take n ss
  /\ Watcher.position r.1.1 = length (data ++ enc_lines (take n ls))
  /\ Watcher.file r.1.1
     = Some {| Watcher.h_ino := i;
               Watcher.h_pos := length (data ++ enc_lines (take n ls)) |}.
Proof.
  intros Hreach Hfo Hfs Hls Hgrows Hnets Hc n r.
  destruct (reachable_names l p w Hreach) as [Hl Hp].
  destruct (watch_quiet (world :: worlds)
              ltac:(eapply Forall_impl; [exact Hnets|]; intros ? [? _];
                    assumption) w m [])
    as (m' & sent' & Hrun & Hsent).
  destruct (Hsent c Hc) as [Hatt Hc'].
  { rewrite Hl. eapply Forall_impl; [exact Hnets|]. intros ? [_ ?].
    assumption. }
  subst r. rewrite Hrun. cbn [fst snd app List.map] in *.
  pose proof (first_open_step l p world.2 w i data Hreach Hfo Hfs) as Hstep.
  destruct (run_grows l p i data ls ss Hls (List.map snd worlds) ks 0 0
              (opened_at_end l p i (length data)))
    as (H1 & H2 & H3); try assumption.
  - exact (opened_at_end_reachable l p world.2 w i data Hreach Hfo Hfs).
  - cbn. unfold enc_lines. cbn. rewrite app_nil_r. reflexivity.
  - cbn. unfold enc_lines. cbn. rewrite app_nil_r. reflexivity.
  - lia.
  - cbn [Watcher.run] in *. rewrite Hstep in *.
    destruct (Watcher.run (List.map snd worlds) _) as [w' ev'].
    cbn [fst snd] in *. rewrite drop_0 in H1.
    assert (Hpub : Watcher.published
                     ([Watcher.Opened i; Watcher.Seek (length data);
                       Watcher.Sleep] ++ ev') = take n ss) by exact H1.
    rewrite Hpub, Hl in Hatt. auto.
Qed.

Lemma appended_lines_reach_a_subscriber_in_order_witness :
  let m := (WebSocketManager.connect 1%nat WebSocketManager.init).1 in
  let r := App.watch
             [(Examples.reliable, Examples.two_lines);
              (Examples.reliable, Examples.two_lines);
              (Examples.reliable, Examples.whole_line);
              (Examples.reliable, Examples.whole_line)]
             Examples.fresh (m, []) in
  attempts 1%nat r.2.2
    = [(WebSocketManager.Realtime "app" (Text.of_string "three"), true)]
  /\ Watcher.position r.1.1 = 14%nat.
Proof.
  intros m r.
  destruct (appended_lines_reach_a_subscriber_in_order "app"
              Examples.app_log Examples.fresh 7 (Text.of_string "one
two
") [Text.of_string "three"] [Text.of_string "three"]
              (Examples.reliable, Examples.two_lines)
              [(Examples.reliable, Examples.two_lines);
               (Examples.reliable, Examples.whole_line);
               (Examples.reliable, Examples.whole_line)]
              [0; 1; 1]%nat m 1%nat
              (Watcher.reachable_init _ _) eq_refl (conj eq_refl eq_refl)
              ltac:(repeat constructor; discriminate))
    as (H1 & _ & _ & H4 & _).
  - repeat split; (lia || reflexivity).
  - repeat constructor.
  - exact (elem_of_union_r (C := gset nat) 1%nat ∅ {[ 1%nat ]}
             (elem_of_singleton_2 (C := gset nat) 1%nat 1%nat eq_refl)).
  - split; [exact H1|exact H4].
Defined.

(** X17: [send_historical] never raises; it attempts one send to the given
    socket; when that send succeeds the registry is unchanged, and when it
    fails exactly that socket leaves the registry, so that a later publish
    call sends it nothing. *)
Theorem send_historical_drops_a_failed_socket
    (net : WebSocketManager.network) (ws : WebSocketManager.websocket)
    (lines : list Text.str) (m : WebSocketManager.manager) :
  let data := WebSocketManager.Historical lines in
  exists m',
    WebSocketManager.send_historical net ws lines m
      = (WebSocketManager.Ok m',
         [WebSocketManager.SendText ws data (net ws data)])
    /\ (net ws data = true -> m' = m)
    /\ (net ws data = false ->
        WebSocketManager.active_connections m'
          = WebSocketManager.active_connections m ∖ {[ ws ]}
        /\ forall log_id text,
             attempts ws (WebSocketManager.broadcast net log_id text m').2
             = []).
Proof.
  intros data. unfold WebSocketManager.send_historical,
    WebSocketManager.send_text. fold data.
  destruct (net ws data) eqn:Hnet.
  - exists m. split; [reflexivity|]. split; [reflexivity|discriminate].
  - exists (WebSocketManager.disconnect ws m). split; [reflexivity|].
    split; [discriminate|]. intros _. split; [reflexivity|].
    intros log_id text. unfold WebSocketManager.broadcast.
    apply send_to_all_absent. cbn. set_solver.
Qed.

Section sessions.
Import Text WebSocketManager Main.

Lemma receive_loop_frames (ts : list str) (rest : list received)
    (ws : websocket) (m : manager) :
  receive_loop (List.map Frame ts ++ rest) ws m = receive_loop rest ws m.
Proof. induction ts as [|t ts IH]; [reflexivity|exact IH]. Qed.

End sessions.

(** X18: a connection from its accept to its end.  When the historical
    message is delivered (or there is none to send), the socket stays
    subscribed while the client sends text, which is dropped; the
    disconnect of the client ends the endpoint normally with exactly that
    socket discarded; any other exception of the receive call leaves the
    endpoint with the socket still subscribed.  When the send of the
    historical message fails, the endpoint ends with that exception before
    it reads any frame, and the socket stays subscribed. *)
Theorem session_keeps_the_socket_until_the_client_disconnects
    (LOG_FILES : list (string * string)) (fs : OS.filesystem)
    (net : WebSocketManager.network) (ws : WebSocketManager.websocket)
    (m : WebSocketManager.manager) :
  let lines := Main.historical_lines LOG_FILES fs in
  let delivered :=
    negb (Text.truthy lines) || net ws (WebSocketManager.Historical lines) in
  let session frames :=
    (Main.websocket_session LOG_FILES fs net ws frames m).1 in
  let subscribed :=
    WebSocketManager.active_connections m ∪ {[ ws ]} in
  (delivered = true ->
   forall (ts : list Text.str) (rest : list Main.received),
     (WebSocketManager.active_connections
        (session (List.map Main.Frame ts)).1 = subscribed
      /\ (session (List.map Main.Frame ts)).2 = None)
     /\ (WebSocketManager.active_connections
           (session (List.map Main.Frame ts
                       ++ Main.WebSocketDisconnect :: rest)).1
         = WebSocketManager.active_connections m ∖ {[ ws ]}
         /\ (session (List.map Main.Frame ts
                        ++ Main.WebSocketDisconnect :: rest)).2
            = Some (WebSocketManager.Ok ()))
     /\ (WebSocketManager.active_connections
           (session (List.map Main.Frame ts ++ Main.OtherError :: rest)).1
         = subscribed
         /\ (session (List.map Main.Frame ts ++ Main.OtherError :: rest)).2
            = Some WebSocketManager.Raised))
  /\ (delivered = false ->
      forall frames,
        WebSocketManager.active_connections (session frames).1 = subscribed
        /\ (session frames).2 = Some WebSocketManager.Raised).
Proof.
  intros lines delivered session subscribed.
  assert (Hrun : forall frames,
            Main.websocket_session LOG_FILES fs net ws frames m
            = if delivered
              then let '(m', r) :=
                     Main.receive_loop frames ws
                       {| WebSocketManager.active_connections := subscribed |}
                   in (m', r, (Main.websocket_endpoint LOG_FILES fs net ws m).2)
              else ({| WebSocketManager.active_connections := subscribed |},
                    Some WebSocketManager.Raised,
                    (Main.websocket_endpoint LOG_FILES fs net ws m).2)).
  { intros frames. subst delivered session subscribed.
    unfold Main.websocket_session, Main.websocket_endpoint,
      WebSocketManager.connect, WebSocketManager.send_text.
    fold lines. cbn. destruct (Text.truthy lines); cbn; [|reflexivity].
    destruct (net ws (WebSocketManager.Historical lines)); reflexivity. }
  split; intros Hd.
  - intros ts rest. subst session. cbv beta. rewrite !Hrun, Hd.
    rewrite <- (app_nil_r (List.map Main.Frame ts)) at 1 2.
    rewrite !receive_loop_frames. cbn.
    repeat split; try reflexivity. subst subscribed. set_solver.
  - intros frames. subst session. cbv beta. rewrite Hrun, Hd.
    split; reflexivity.
Qed.

(** ** The entries of the backlog *)

Section blank.
Import Text ReverseReader.

Lemma lstrip_nil (p : Z -> bool) (s : str) :
  lstrip p s = [] <-> Forall (fun c => p c = true) s.
Proof.
  induction s as [|c s IH]; simpl; [split; [constructor|reflexivity]|].
  destruct (p c) eqn:Hc.
  - rewrite IH. split; [intros H; constructor; assumption|].
    intros H. inversion H; assumption.
  - split; [discriminate|]. intros H. inversion H; congruence.
Qed.

Lemma lstrip_Forall (p : Z -> bool) (s : str) :
  Forall (fun c => p c = true) (lstrip p s) -> lstrip p s = [].
Proof.
  induction s as [|c s IH]; simpl; [reflexivity|].
  destruct (p c) eqn:Hc; [exact IH|].
  intros H. inversion H; congruence.
Qed.

Lemma strip_nil (s : str) :
  strip s = [] <-> Forall (fun c => isspace c = true) s.
Proof.
  unfold strip, rstrip. split.
  - intros H. apply (f_equal reverse) in H.
    rewrite reverse_involutive, reverse_nil in H.
    apply lstrip_nil, Forall_reverse in H. rewrite reverse_involutive in H.
    apply lstrip_nil, lstrip_Forall, H.
  - intros H. apply lstrip_nil in H. rewrite H. reflexivity.
Qed.

Lemma space_or_not (s : str) :
  Forall (fun c => isspace c = true) s
  \/ Exists (fun c => isspace c = false) s.
Proof.
  induction s as [|c s [IH|IH]]; [left; constructor| |].
  - destruct (isspace c) eqn:Hc; [left; constructor; assumption|].
    right. left. exact Hc.
  - right. right. exact IH.
Qed.

(** A line is kept when it has a character that is not white space. *)
Lemma nonblank_Exists (s : str) :
  nonblank s = true <-> Exists (fun c => isspace c = false) s.
Proof.
  unfold nonblank. split.
  - intros H. destruct (space_or_not s) as [Hall|Hex]; [|exact Hex].
    apply strip_nil in Hall. rewrite Hall in H. discriminate.
  - intros H. destruct (strip s) eqn:Hs; [|reflexivity].
    apply strip_nil in Hs. apply Exists_exists in H as (c & Hin & Hc).
    rewrite Forall_forall in Hs. specialize (Hs c Hin). congruence.
Qed.

Lemma split_pieces (sep : Z) (s : str) :
  Forall (fun l => sep ∉ l) (split sep s).
Proof.
  induction s as [|c s IH]; simpl.
  - constructor; [apply not_elem_of_nil|constructor].
  - destruct (Z.eqb_spec c sep) as [->|Hne].
    + constructor; [apply not_elem_of_nil|exact IH].
    + destruct (split sep s) as [|l ls]; inversion IH; subst.
      * constructor; [|constructor]. intros H.
        apply elem_of_cons in H as [H|H]; [congruence|inversion H].
      * constructor; [|assumption]. intros H.
        apply elem_of_cons in H as [H|H]; [congruence|contradiction].
Qed.

Lemma Forall_entry_filter (l : list str) :
  Forall (fun line => LF ∉ line) l -> Forall entry (List.filter nonblank l).
Proof.
  intros H. apply Forall_forall. intros x Hx.
  apply list_elem_of_In, filter_In in Hx as [Hin Hnb].
  split; [|apply nonblank_Exists, Hnb].
  rewrite Forall_forall in H. apply H, list_elem_of_In, Hin.
Qed.

Lemma Forall_tail {A} (P : A -> Prop) (l : list A) :
  Forall P l -> Forall P (tail l).
Proof. destruct 1; [constructor|assumption]. Qed.

Lemma entry_no_sep (l : list str) :
  Forall entry l -> Forall (fun line => LF ∉ line) l.
Proof. intros H. eapply Forall_impl; [exact H|]. intros x [Hx _]. exact Hx. Qed.

(** Whatever the loop returns is made of entries. *)
Lemma read_back_entries fuel data n chunk_size lines buffer pos res :
  Forall entry lines ->
  read_back fuel data n chunk_size lines buffer pos = Some res ->
  Forall entry res.
Proof.
  revert lines buffer pos.
  induction fuel as [|fuel IH]; intros lines buffer pos Hl; simpl.
  - destruct (_ && _); [discriminate|]. intros [= <-].
    destruct (truthy lines); [apply Forall_last_slice, Hl|constructor].
  - destruct (_ && _).
    + set (text := split LF _).
      assert (Ht : Forall (fun line => LF ∉ line) text)
        by apply split_pieces.
      clearbody text.
      destruct (_ && _).
      * destruct (encode (hd [] text)) as [b|]; cbn;
          [|intros [= <-]; constructor].
        assert (Hall : Forall entry (List.filter nonblank (tail text ++ lines))).
        { apply Forall_entry_filter, Forall_app.
          split; [apply Forall_tail, Ht|apply entry_no_sep, Hl]. }
        destruct (n <? _); [intros [= <-]; apply Forall_last_slice, Hall|].
        apply IH, Hall.
      * assert (Hall : Forall entry (List.filter nonblank (text ++ lines))).
        { apply Forall_entry_filter, Forall_app.
          split; [exact Ht|apply entry_no_sep, Hl]. }
        destruct (n <? _); [intros [= <-]; apply Forall_last_slice, Hall|].
        apply IH, Hall.
    + intros [= <-].
      destruct (truthy lines); [apply Forall_last_slice, Hl|constructor].
Qed.

End blank.

(** X19: every line of the backlog is one line: it holds no line feed,
    and it holds a character that is not white space. *)
Theorem backlog_entries_are_single_visible_lines
    (fs : OS.filesystem) (filepath : string) (n : Z) :
  Forall entry (ReverseReader.get_last_lines fs filepath n).
Proof.
  unfold ReverseReader.get_last_lines.
  destruct (negb _); [constructor|].
  destruct (OS.open_read fs filepath) as [ino|]; [|constructor].
  destruct (_ =? _)%nat; [constructor|].
  destruct (ReverseReader.read_back _ _ _ _ _ _ _) as [res|] eqn:Hres;
    [|constructor].
  simpl. eapply read_back_entries; [constructor|exact Hres].
Qed.

Section crlf_backlog.
Import Text OS ReverseReader.

Lemma decode_enc_crlf_lines (ls : list bytes) (ss : list str) :
  Forall2 plain_line ls ss ->
  decode_strict (enc_crlf_lines ls)
  = Some (mjoin (List.map (fun s => s ++ [CR; LF]) ss)).
Proof.
  induction 1 as [|l s ls ss (Hin & Hne & Hs) _ IH]; [reflexivity|].
  unfold enc_crlf_lines in *. cbn [List.map mjoin list_join].
  apply decode_strict_app; [|exact IH].
  apply decode_strict_app; [exact Hs|reflexivity].
Qed.

Lemma split_crlf_lines (ss : list str) :
  Forall (Forall inline) ss ->
  split LF (mjoin (List.map (fun s => s ++ [CR; LF]) ss))
  = List.map (fun s => s ++ [CR]) ss ++ [[]].
Proof.
  induction 1 as [|s ss Hs _ IH]; [reflexivity|].
  cbn [List.map mjoin list_join].
  replace ((s ++ [CR; LF]) ++ mjoin (List.map (fun s => s ++ [CR; LF]) ss))
    with ((s ++ [CR]) ++ LF :: mjoin (List.map (fun s => s ++ [CR; LF]) ss))
    by (rewrite <- !app_assoc; reflexivity).
  rewrite split_app_sep, IH, split_no_sep; [reflexivity|].
  intros Hin. apply elem_of_app in Hin as [Hin|Hin].
  - rewrite Forall_forall in Hs. destruct (Hs LF Hin) as [H _]. congruence.
  - apply elem_of_cons in Hin as [Hin|Hin]; [discriminate|inversion Hin].
Qed.

Lemma filter_crlf_lines (ss : list str) :
  Forall (fun s => nonblank s = true) ss ->
  List.filter nonblank (List.map (fun s => s ++ [CR]) ss ++ [[]])
  = List.map (fun s => s ++ [CR]) ss.
Proof.
  induction 1 as [|s ss Hs _ IH]; [reflexivity|].
  cbn [List.map app List.filter].
  assert (Hnb : nonblank (s ++ [CR]) = true).
  { apply nonblank_Exists. apply Exists_app. left.
    apply nonblank_Exists, Hs. }
  rewrite Hnb, IH. reflexivity.
Qed.

Lemma get_last_lines_single_chunk fs filepath i data n :
  serves fs filepath i data -> data <> [] ->
  (length data <= CHUNK_LIMIT)%nat -> 1 <= n ->
  get_last_lines fs filepath n = final_lines data n.
Proof.
  intros Hfs Hne Hsmall Hn. unfold get_last_lines.
  rewrite (stat_exists _ _ _ (serves_stat _ _ _ _ Hfs)).
  rewrite (serves_open _ _ _ _ Hfs), (serves_data _ _ _ _ Hfs). simpl negb.
  cbv iota.
  destruct (length data) as [|k] eqn:Hlen;
    [destruct data; [congruence|discriminate]|].
  rewrite Nat.min_r by lia.
  change (S k =? 0)%nat with false. cbv iota.
  rewrite (read_back_single_chunk k data n Hlen Hn). reflexivity.
Qed.

End crlf_backlog.

(** X20: the backlog splits at line feeds only.  Of a file of visible
    lines that end in CR LF (and that fits in one chunk) it returns each
    line with the carriage return still at its end, where the watcher
    publishes the same line without it. *)
Theorem backlog_keeps_the_carriage_return
    (fs : OS.filesystem) (filepath : string) (i : Z)
    (ls : list Text.bytes) (ss : list Text.str) (n : Z) :
  Forall2 plain_line ls ss ->
  Forall (fun s => ReverseReader.nonblank s = true) ss ->
  ls <> [] ->
  serves fs filepath i (enc_crlf_lines ls) ->
  (length (enc_crlf_lines ls) <= ReverseReader.CHUNK_LIMIT)%nat ->
  1 <= n ->
  ReverseReader.get_last_lines fs filepath n
    = Text.last_slice n (List.map (fun s => s ++ [Text.CR]) ss).
Proof.
  intros Hls Hnb Hne Hfs Hsmall Hn.
  rewrite (get_last_lines_single_chunk fs filepath i (enc_crlf_lines ls) n);
    try assumption.
  - unfold ReverseReader.final_lines.
    rewrite (decode_strict_ignore _ _ (decode_enc_crlf_lines ls ss Hls)).
    rewrite split_crlf_lines, filter_crlf_lines; [reflexivity|exact Hnb|].
    clear -Hls. induction Hls as [|l s ls ss (Hin & _ & Hs) _ IH];
      constructor; [|exact IH].
    eapply decode_strict_inline; eassumption.
  - destruct ls as [|l ls]; [congruence|].
    unfold enc_crlf_lines. cbn. destruct l; discriminate.
Qed.

Lemma backlog_keeps_the_carriage_return_witness :
  ReverseReader.get_last_lines Examples.crlf_log Examples.app_log 5
    = [Text.of_string "one" ++ [Text.CR]; Text.of_string "two" ++ [Text.CR]].
Proof.
  rewrite (backlog_keeps_the_carriage_return Examples.crlf_log Examples.app_log 7
             [Text.of_string "one"; Text.of_string "two"]
             [Text.of_string "one"; Text.of_string "two"] 5
             ltac:(repeat constructor; discriminate)
             ltac:(repeat constructor)
             ltac:(discriminate) (conj eq_refl eq_refl)
             ltac:(vm_compute; lia) ltac:(lia)).
  reflexivity.
Defined.

(** ** The iterations of the watch loop *)

Section iterations.
Import Text OS Watcher.
Context {S : Type}.
Variable publish : string -> str -> S -> S * WebSocketManager.outcome unit.
Variable s0 : S.
Variable id : string.

(** What the section proves of every part of an iteration: its outcome is
    one of the four, and it ends in the handler with [RuntimeError] exactly
    when its publish call raised. *)
Let outcome_of (fs : filesystem) (r : watcher * list event * S) : Prop :=
  iteration fs r.1
  /\ (Failed RuntimeError ∈ r.1.2 <->
      exists line, published r.1.2 = [line]
                   /\ (publish id line s0).2 = WebSocketManager.Raised).

Lemma raised_app (ev ev' : list event) :
  raised (ev ++ ev') = raised ev || raised ev'.
Proof. unfold raised. apply existsb_app. Qed.

Lemma calm_no_failure (ev : list event) (e : exn) : calm ev -> Failed e ∉ ev.
Proof.
  intros (_ & _ & Hr) Hin. unfold raised in Hr.
  assert (H : existsb (fun e => match e with Failed _ => true | _ => false end)
                ev = true); [|congruence].
  apply existsb_exists. exists (Failed e).
  split; [apply list_elem_of_In, Hin|reflexivity].
Qed.

Lemma calm_snoc (ev : list event) (e : event) :
  calm ev -> e <> Sleep -> published [e] = [] -> raised [e] = false ->
  calm (ev ++ [e]).
Proof.
  intros (Hp & Hs & Hr) He Hpe Hre. split; [|split].
  - rewrite published_app, Hp, Hpe. reflexivity.
  - intros Hin. apply elem_of_app in Hin as [Hin|Hin]; [contradiction|].
    apply elem_of_cons in Hin as [Hin|Hin]; [congruence|inversion Hin].
  - rewrite raised_app, Hr, Hre. reflexivity.
Qed.

Lemma on_exception_outcome fs e w ev :
  calm ev -> e <> RuntimeError -> outcome_of fs (on_exception e w ev, s0).
Proof.
  intros Hc He. pose proof (calm_no_failure ev RuntimeError Hc) as Hno.
  destruct Hc as (Hp & Hs & Hr).
  assert (Hpub : published (on_exception e w ev).2 = []).
  { unfold on_exception, _close_file.
    destruct (file w); cbn [fst snd]; rewrite !published_app, Hp;
      reflexivity. }
  split.
  - right. left. split; [exact Hpub|].
    unfold on_exception, _close_file.
    destruct (file w); cbn [fst snd]; rewrite !elem_of_app;
      right; right; right; left.
  - cbn [fst snd]. split.
    + intros Hin. exfalso. unfold on_exception, _close_file in Hin.
      destruct (file w); cbn [fst snd] in Hin;
        rewrite !elem_of_app in Hin;
        destruct Hin as [Hin|[Hin|[Hin|Hin]]];
        try contradiction;
        repeat (apply elem_of_cons in Hin as [Hin|Hin]; [congruence|]);
        inversion Hin.
    + intros (line & Hline & _). rewrite Hpub in Hline. discriminate.
Qed.

Lemma read_and_publish_outcome fs h w ev :
  calm ev -> log_id w = id ->
  outcome_of fs (read_and_publish_with publish fs h w ev s0).
Proof.
  intros Hc Hid. unfold read_and_publish_with.
  destruct (readline fs h) as [[line h']|] eqn:Hread;
    [|apply on_exception_outcome; [exact Hc|discriminate]].
  destruct (readline_shape fs h line h' Hread) as (s & Hs & Hline).
  pose proof (calm_no_failure ev RuntimeError Hc) as Hno.
  destruct Hc as (Hp & Hsl & Hr).
  destruct (truthy line) eqn:Ht.
  - rewrite (rstrip_crlf_shape s line Hs Hline).
    destruct s as [|c s']; cbn [truthy].
    + split.
      * right. right. left. cbn [fst snd]. split; [exact Hp|].
        split; [exact Hsl|]. exists h, h'. split; [|reflexivity].
        destruct Hline as [-> | ->]; [discriminate Ht|exact Hread].
      * cbn [fst snd]. split; [contradiction|].
        intros (l0 & Hl0 & _). rewrite Hp in Hl0. discriminate.
    + cbn [log_id set_file]. rewrite Hid.
      destruct (publish id (c :: s') s0) as [s1 [[]|]] eqn:Hpub.
      * split.
        -- left. exists (c :: s'). cbn [fst snd]. split; [|split].
           ++ rewrite published_app, Hp. reflexivity.
           ++ intros Hin. apply elem_of_app in Hin as [Hin|Hin];
                [contradiction|].
              apply elem_of_cons in Hin as [Hin|Hin];
                [discriminate|inversion Hin].
           ++ rewrite raised_app, Hr. reflexivity.
        -- cbn [fst snd]. split.
           ++ intros Hin. apply elem_of_app in Hin as [Hin|Hin];
                [contradiction|].
              apply elem_of_cons in Hin as [Hin|Hin];
                [discriminate|inversion Hin].
           ++ intros (l0 & Hl0 & Hraise).
              rewrite published_app, Hp in Hl0. cbn in Hl0.
              inversion Hl0; subst l0. rewrite Hpub in Hraise.
              discriminate.
      * assert (Hpub' : published
                  (on_exception RuntimeError (set_file (Some h') w)
                     (ev ++ [Broadcast id (c :: s')])).2 = [c :: s']).
        { unfold on_exception, _close_file. cbn.
          rewrite !published_app, Hp. reflexivity. }
        unfold on_exception, _close_file in *.
        cbn [file set_file fst snd] in *.
        split.
        -- right. right. right. exists (c :: s'). cbn [fst snd].
           split; [exact Hpub'|].
           split; [rewrite !elem_of_app; right; left; left|].
           split; [rewrite !elem_of_app; right; right; right; left|].
           reflexivity.
        -- cbn [fst snd]. split.
           ++ intros _. exists (c :: s'). split; [exact Hpub'|].
              rewrite Hpub. reflexivity.
           ++ intros _. rewrite !elem_of_app. right. left. left.
  - split.
    + right. left. cbn [fst snd]. split.
      * rewrite published_app, Hp. reflexivity.
      * apply elem_of_app. right. left.
    + cbn [fst snd]. split.
      * intros Hin. apply elem_of_app in Hin as [Hin|Hin]; [contradiction|].
        apply elem_of_cons in Hin as [Hin|Hin]; [discriminate|inversion Hin].
      * intros (l0 & Hl0 & _). rewrite published_app, Hp in Hl0.
        discriminate.
Qed.

Lemma follow_outcome fs w ev :
  calm ev -> log_id w = id -> outcome_of fs (follow_with publish fs w ev s0).
Proof.
  intros Hc Hid. unfold follow_with.
  destruct (getsize fs (filepath w));
    [|apply on_exception_outcome; [exact Hc|discriminate]].
  destruct (file w);
    [|apply on_exception_outcome; [exact Hc|discriminate]].
  destruct (_ <? _)%nat; [|destruct (_ <? _)%nat];
    apply read_and_publish_outcome; try exact Hc; try exact Hid;
    apply calm_snoc; try exact Hc; try discriminate; reflexivity.
Qed.

Lemma sleep_outcome fs w ev :
  calm ev -> outcome_of fs (w, ev ++ [Sleep], s0).
Proof.
  intros Hc. pose proof (calm_no_failure ev RuntimeError Hc) as Hno.
  destruct Hc as (Hp & Hs & Hr).
  assert (Hpub : published (ev ++ [Sleep]) = [])
    by (rewrite published_app, Hp; reflexivity).
  split.
  - right. left. cbn [fst snd]. split; [exact Hpub|].
    apply elem_of_app. right. left.
  - cbn [fst snd]. split.
    + intros Hin. apply elem_of_app in Hin as [Hin|Hin]; [contradiction|].
      apply elem_of_cons in Hin as [Hin|Hin]; [discriminate|inversion Hin].
    + intros (l0 & Hl0 & _). rewrite Hpub in Hl0. discriminate.
Qed.

Lemma wait_and_open_outcome fs rotated w ev :
  calm ev -> log_id w = id ->
  outcome_of fs (wait_and_open_with publish fs rotated w ev s0).
Proof.
  intros Hc Hid. unfold wait_and_open_with.
  destruct (negb _); [apply sleep_outcome, Hc|].
  unfold _open_file. destruct (open_read _ _) as [ino|];
    cbn [file set_inode set_file set_pc first_open].
  2:{ apply sleep_outcome.
      apply calm_snoc; [exact Hc|discriminate|reflexivity|reflexivity]. }
  assert (Hop : calm (ev ++ [Opened ino]))
    by (apply calm_snoc; [exact Hc|discriminate|reflexivity|reflexivity]).
  destruct (first_open w); [|destruct rotated]; cbv beta iota zeta;
    apply follow_outcome; try exact Hop; try exact Hid;
    apply calm_snoc; try exact Hop; try discriminate; reflexivity.
Qed.

Lemma watch_step_outcome fs w :
  log_id w = id -> outcome_of fs (watch_step publish fs w s0).
Proof.
  intros Hid.
  assert (Hnil : calm [])
    by (split; [reflexivity|split; [apply not_elem_of_nil|reflexivity]]).
  unfold watch_step. destruct (pc w).
  - destruct (file w) as [h|] eqn:Hf.
    + destruct (_is_rotated fs w).
      * unfold _close_file. rewrite Hf.
        apply wait_and_open_outcome; [|exact Hid].
        split; [reflexivity|]. split; [|reflexivity]. intros Hin.
        apply elem_of_cons in Hin as [Hin|Hin]; [discriminate|inversion Hin].
      * apply follow_outcome; [exact Hnil|exact Hid].
    + apply wait_and_open_outcome; [exact Hnil|exact Hid].
  - apply wait_and_open_outcome; [exact Hnil|exact Hid].
Qed.

End iterations.

(** X21: every step of the watcher (an iteration of the watch loop, or a
    poll inside [_wait_for_file]), whatever its publish call does, comes
    to one of four things: it publishes one line, the call returns, and it
    does not sleep; or it sleeps and publishes nothing; or it does
    neither, and then it has just read an empty line (a bare line feed);
    or its publish call raises, and the handler of the loop closes the
    file and sleeps.  The handler is reached with [RuntimeError] exactly
    when the publish call raised, so never in a step whose publish call
    returns.  The loop runs on without sleeping only while it publishes
    lines or stands at an empty line. *)
Theorem iteration_publishes_sleeps_or_reads_an_empty_line
    (S : Type)
    (publish : string -> Text.str -> S -> S * WebSocketManager.outcome unit)
    (fs : OS.filesystem) (w : Watcher.watcher) (s : S) :
  let r := (Watcher.watch_step publish fs w s).1 in
  iteration fs r
  /\ (Watcher.Failed Watcher.RuntimeError ∈ r.2 <->
      exists line,
        Watcher.published r.2 = [line]
        /\ (publish (Watcher.log_id w) line s).2 = WebSocketManager.Raised)
  /\ iteration fs (Watcher.step fs w)
  /\ (Watcher.Failed Watcher.RuntimeError ∉ (Watcher.step fs w).2).
Proof.
  destruct (watch_step_outcome publish s (Watcher.log_id w) fs w eq_refl)
    as [H1 H2].
  split; [exact H1|]. split; [exact H2|].
  destruct (watch_step_outcome (fun _ _ (u : unit) => (u, WebSocketManager.Ok ()))
              tt (Watcher.log_id w) fs w eq_refl) as [H3 H4].
  rewrite watch_step_returns in H3, H4 by reflexivity.
  cbn [fst snd] in H3, H4. split; [exact H3|].
  intros Hin. apply H4 in Hin as (line & _ & Hraise). discriminate Hraise.
Qed.

(** ** The watcher after a publish call that raised *)

Section failed_publish.
Import Text OS Watcher.

Lemma failed_raised (e : exn) (ev : list event) :
  Failed e ∈ ev -> raised ev = true.
Proof.
  intros Hin. unfold raised. apply existsb_exists. exists (Failed e).
  split; [apply list_elem_of_In, Hin|reflexivity].
Qed.

(** A step that ends in the handler of the loop, whatever raised, leaves
    the watcher without a handle, at the top of the loop and past its
    first open. *)
Lemma watch_step_raise_closes {S : Type}
    (publish : string -> str -> S -> S * WebSocketManager.outcome unit)
    l p fs w (s : S) :
  reachable l p w -> raised (watch_step publish fs w s).1.2 = true ->
  file (watch_step publish fs w s).1.1 = None
  /\ pc (watch_step publish fs w s).1.1 = LoopTop
  /\ first_open (watch_step publish fs w s).1.1 = false.
Proof.
  intros Hreach. pose proof (reachable_consistent l p w Hreach) as Hc.
  unfold consistent in Hc. revert Hc.
  unfold watch_step, wait_and_open_with, follow_with, read_and_publish_with,
    on_exception, _close_file, _open_file, set_pc, set_position,
    set_first_open, set_file, set_inode, seek, raised.
  repeat (case_match; simplify_eq/=; try (intuition congruence)).
Qed.

End failed_publish.

(** X25: an iteration whose publish call raises ends in the handler of the
    loop, which closes the file.  The next step that finds the path served
    opens it without any seek, with the handle and the position at offset
    0, so the complete non-empty lines at the beginning of the file are
    published from the first one on, one per step, whether or not they
    were published before. *)
Theorem failed_publish_restarts_from_offset_zero
    (l p : string) (w : Watcher.watcher) (S : Type)
    (publish : string -> Text.str -> S -> S * WebSocketManager.outcome unit)
    (fs : OS.filesystem) (s : S) (line : Text.str) :
  Watcher.reachable l p w ->
  let r := (Watcher.watch_step publish fs w s).1 in
  Watcher.published r.2 = [line] ->
  (publish l line s).2 = WebSocketManager.Raised ->
  (Watcher.Failed Watcher.RuntimeError ∈ r.2)
  /\ Watcher.file r.1 = None
  /\ (forall fs' i data,
        serves fs' p i data ->
        Watcher.step fs' r.1
          = Watcher.follow fs' (reopened l p i) [Watcher.Opened i])
  /\ (forall i (ls : list Text.bytes) (ss : list Text.str)
             (fss : list OS.filesystem),
        Forall2 plain_line ls ss ->
        all_serve fss ls p i (enc_lines ls) ->
        Watcher.published (Watcher.run fss r.1).2 = ss).
Proof.
  intros Hreach r Hpub Hraise.
  destruct (reachable_names l p w Hreach) as [Hl _].
  pose proof (Watcher.reachable_watch_step l p S publish fs w s Hreach)
    as Hreach'.
  destruct (watch_step_outcome publish s l fs w Hl) as [_ Hiff].
  assert (Hfail : Watcher.Failed Watcher.RuntimeError ∈ r.2).
  { apply Hiff. exists line. split; [exact Hpub|exact Hraise]. }
  destruct (watch_step_raise_closes publish l p fs w s Hreach
              (failed_raised _ _ Hfail)) as (Hf & Hpc & Hfo).
  split; [exact Hfail|]. split; [exact Hf|]. split.
  - intros fs' i data Hfs.
    exact (reopen_step l p fs' _ i data Hreach' Hf Hfo Hpc Hfs).
  - intros i ls ss fss Hls Hall.
    exact (reopen_lines l p _ i ls ss fss Hreach' Hf Hfo Hpc Hls Hall).
Qed.

Lemma failed_publish_restarts_from_offset_zero_witness :
  let r := (Watcher.watch_step
              (fun _ _ (u : unit) => (u, WebSocketManager.Raised))
              Examples.whole_line Examples.tailing tt).1 in
  Watcher.published r.2 = [Text.of_string "three"]
  /\ Watcher.published
       (Watcher.run [Examples.whole_line; Examples.whole_line;
                     Examples.whole_line] r.1).2
     = [Text.of_string "one"; Text.of_string "two"; Text.of_string "three"].
Proof.
  intros r. split; [reflexivity|].
  destruct (failed_publish_restarts_from_offset_zero "app" Examples.app_log
              Examples.tailing unit
              (fun _ _ (u : unit) => (u, WebSocketManager.Raised))
              Examples.whole_line tt (Text.of_string "three")
              tailing_reachable eq_refl eq_refl) as (_ & _ & _ & H).
  apply (H 7 [Text.of_string "one"; Text.of_string "two";
              Text.of_string "three"]).
  - repeat constructor; discriminate.
  - repeat constructor; exists [], []; repeat split; reflexivity.
Defined.

(** ** The reverse reader on long lines and on UTF-8 text *)

Section long_lines.
Import Text OS ReverseReader.

(** The loop on a file whose last chunk holds no line feed, when one line
    is asked for: the chunk is taken for the last line. *)
Lemma read_back_long_tail (fuel : nat) (pre tail : bytes) :
  pre <> [] -> length tail = CHUNK_LIMIT ->
  LF ∉ decode_ignore tail -> nonblank (decode_ignore tail) = true ->
  read_back (S fuel) (pre ++ tail) 1 CHUNK_LIMIT [] [] (length (pre ++ tail))
    = Some [decode_ignore tail].
Proof.
  intros Hpre Hlen Hsep Hnb.
  assert (Hp : (0 < length pre)%nat) by (destruct pre; [congruence|simpl; lia]).
  cbn [read_back length].
  replace (Z.of_nat 0 <? 1) with true by reflexivity.
  rewrite length_app, Hlen.
  destruct (Nat.ltb_spec 0 (length pre + CHUNK_LIMIT)); [|lia].
  cbn [andb]. cbv iota.
  rewrite Nat.min_l by lia.
  replace (length pre + CHUNK_LIMIT - CHUNK_LIMIT)%nat with (length pre) by lia.
  rewrite drop_app_length, <- Hlen, firstn_all, app_nil_r.
  rewrite (split_no_sep LF _ Hsep).
  destruct (Nat.ltb_spec 0 (length pre)); [|lia].
  cbn [length Nat.ltb Nat.leb andb app List.filter]. cbv iota.
  rewrite Hnb. cbn [length].
  replace (1 <? Z.of_nat 1) with false by reflexivity. cbv iota.
  destruct fuel; cbn [read_back length];
    replace (Z.of_nat 1 <? 1) with false by reflexivity;
    reflexivity.
Qed.

End long_lines.

(** X22: a last line that is longer than one chunk is returned cut down.
    When the final 8192 bytes of a larger file hold no line feed and one
    line is asked for, the result is the text of those 8192 bytes alone,
    whatever precedes them in that line. *)
Theorem last_line_longer_than_a_chunk_is_cut
    (fs : OS.filesystem) (filepath : string) (i : Z)
    (pre tail : Text.bytes) :
  serves fs filepath i (pre ++ tail) -> pre <> [] ->
  length tail = ReverseReader.CHUNK_LIMIT ->
  Text.LF ∉ Text.decode_ignore tail ->
  ReverseReader.nonblank (Text.decode_ignore tail) = true ->
  ReverseReader.get_last_lines fs filepath 1 = [Text.decode_ignore tail].
Proof.
  intros Hfs Hpre Hlen Hsep Hnb. unfold ReverseReader.get_last_lines.
  rewrite (stat_exists _ _ _ (serves_stat _ _ _ _ Hfs)).
  rewrite (serves_open _ _ _ _ Hfs), (serves_data _ _ _ _ Hfs). simpl negb.
  cbv iota.
  assert (Hsize : (ReverseReader.CHUNK_LIMIT < length (pre ++ tail))%nat).
  { rewrite length_app, Hlen. destruct pre; [congruence|simpl; lia]. }
  destruct (Nat.eqb_spec (length (pre ++ tail)) 0); [lia|].
  rewrite Nat.min_l by lia.
  destruct (length (pre ++ tail)) as [|k] eqn:Hk; [lia|].
  rewrite <- Hk at 2.
  rewrite (read_back_long_tail k pre tail Hpre Hlen Hsep Hnb). reflexivity.
Qed.

Lemma last_line_longer_than_a_chunk_is_cut_witness :
  ReverseReader.get_last_lines
    (OS.single Examples.app_log 7 Examples.long_line) Examples.app_log 1
  = [replicate (Z.to_nat 8192) 120].
Proof.
  assert (Hd : Text.decode_ignore (replicate (Z.to_nat 8192) 120)
               = replicate (Z.to_nat 8192) 120).
  { apply decode_ignore_ascii, Forall_replicate. lia. }
  rewrite <- Hd at 1.
  apply (last_line_longer_than_a_chunk_is_cut
           (OS.single Examples.app_log 7 Examples.long_line) Examples.app_log 7
           (Text.of_string "b" ++ [Text.LF; 120])
           (replicate (Z.to_nat 8192) 120)).
  - split; [reflexivity|]. unfold OS.single. cbn [OS.inodes].
    rewrite lookup_singleton. reflexivity.
  - discriminate.
  - apply length_replicate.
  - rewrite Hd. intros Hin. apply elem_of_replicate in Hin as [Hin _].
    discriminate Hin.
  - rewrite Hd. reflexivity.
Defined.

Section reverse_chunks_utf8.
Import Text OS ReverseReader.

Lemma decode_strict_ascii_inv (b : Z) (t : bytes) (s : str) :
  b < 128 -> decode_strict (b :: t) = Some s ->
  exists tt, s = b :: tt /\ decode_strict t = Some tt.
Proof.
  intros Hb H. apply decode_strict_Some in H. cbn [utf8_scan] in H.
  destruct (Z.ltb_spec b 128); [|lia].
  destruct s as [|c tt]; [discriminate|]. injection H as <- H.
  exists tt. split; [reflexivity|]. apply decode_strict_Some, H.
Qed.

(** What precedes a line feed, or everything, of bytes that decode. *)
Lemma decode_strict_prefix (a rest : bytes) (u : str) :
  decode_strict (a ++ rest) = Some u ->
  (rest = [] -> decode_strict a = Some u)
  /\ (forall bs, rest = LF :: bs ->
        exists sa text, decode_strict a = Some sa
                        /\ decode_strict bs = Some text
                        /\ u = sa ++ LF :: text).
Proof.
  intros H. split.
  - intros ->. rewrite app_nil_r in H. exact H.
  - intros bs ->.
    destruct (decode_strict_before_ascii a LF bs u) as (sa & s' & Ha & Hs' & ->);
      [unfold LF; lia|exact H|].
    destruct (decode_strict_ascii_inv LF bs s') as (text & -> & Ht);
      [unfold LF; lia|exact Hs'|].
    exists sa, text. auto.
Qed.

Variable data : bytes.
Variable whole : str.
Variable n : Z.
Variable chunk_size : nat.
Hypothesis data_decodes : decode_strict data = Some whole.
Hypothesis n_positive : 1 <= n.
Hypothesis chunk_positive : (0 < chunk_size)%nat.

(** The reads of the loop start a whole number of chunks before the end
    of the file.  Every such read that does not start the file contains a
    line feed and does not start inside a character. *)
Hypothesis separated :
  forall q k, (0 < q)%nat -> (q + S k * chunk_size = length data)%nat ->
              LF ∈ take chunk_size (drop q data).
Hypothesis aligned :
  forall q k, (0 < q)%nat -> (q + S k * chunk_size = length data)%nat ->
              is_Some (decode_strict (drop q data)).

Lemma all_lines_whole : all_lines data = List.filter nonblank (split LF whole).
Proof.
  unfold all_lines. rewrite (decode_strict_ignore data whole data_decodes).
  reflexivity.
Qed.

(** The text of the file, cut where the loop stands. *)
Lemma loop_state_utf8_text lines buffer pos :
  loop_state_utf8 data lines buffer pos ->
  exists sa, decode_strict (take pos data ++ buffer) = Some sa
             /\ all_lines data = List.filter nonblank (split LF sa ++ lines).
Proof.
  intros (Hpos & rest & Hdrop & Hrest).
  assert (Hdata : data = (take pos data ++ buffer) ++ rest).
  { rewrite <- app_assoc, <- Hdrop, take_drop. reflexivity. }
  pose proof data_decodes as Hd. rewrite Hdata in Hd.
  destruct (decode_strict_prefix _ _ _ Hd) as [Hnil Hcons].
  rewrite all_lines_whole.
  destruct Hrest as [[-> ->] | (bs & text & -> & Ht & ->)].
  - exists whole. split; [apply Hnil; reflexivity|].
    rewrite app_nil_r. reflexivity.
  - destruct (Hcons bs eq_refl) as (sa & text' & Ha & Ht' & ->).
    assert (text' = text) by congruence. subst text'.
    exists sa. split; [exact Ha|].
    rewrite filter_filter_app, split_app_sep. reflexivity.
Qed.

Lemma loop_state_utf8_slice lines buffer pos :
  loop_state_utf8 data lines buffer pos -> (Z.to_nat n <= length lines)%nat ->
  last_slice n lines = last_slice n (all_lines data).
Proof.
  intros Hst Hlen.
  destruct (loop_state_utf8_text lines buffer pos Hst) as (sa & _ & ->).
  rewrite List.filter_app.
  assert (Hl : List.filter nonblank lines = lines).
  { destruct Hst as (_ & rest & _ & [[_ ->] | (bs & text & _ & _ & ->)]);
      [reflexivity|].
    clear. induction (split LF text) as [|x l IH]; [reflexivity|].
    cbn [List.filter]. destruct (nonblank x) eqn:Hx; [|exact IH].
    cbn [List.filter]. rewrite Hx, IH. reflexivity. }
  rewrite Hl. symmetry. apply last_slice_suffix; assumption.
Qed.

Lemma read_back_utf8 (fuel : nat) :
  forall lines buffer pos k,
    (pos <= fuel)%nat -> (0 < pos)%nat ->
    (pos + k * chunk_size = length data)%nat ->
    loop_state_utf8 data lines buffer pos ->
    read_back fuel data n chunk_size lines buffer pos
      = Some (last_slice n (all_lines data)).
Proof.
  induction fuel as [|fuel IH]; intros lines buffer pos k Hfuel Hpos Hk Hst;
    [lia|].
  cbn [read_back].
  destruct (Z.ltb_spec (Z.of_nat (length lines)) n) as [Hfew|Hmany].
  2:{ cbn [andb]. cbv iota.
      assert (Hne : truthy lines = true)
        by (destruct lines; [simpl in Hmany; lia|reflexivity]).
      rewrite Hne. f_equal.
      apply (loop_state_utf8_slice lines buffer pos Hst). lia. }
  destruct (Nat.ltb_spec 0 pos); [|lia]. cbn [andb]. cbv iota.
  set (read_size := Nat.min chunk_size pos).
  destruct (Nat.eq_dec (pos - read_size)%nat 0%nat) as [Hzero|Hnonzero].
  - (* the read reaches the start of the file *)
    rewrite Hzero. cbn [Nat.ltb Nat.leb andb]. cbv iota.
    assert (Hread : read_size = pos) by (unfold read_size in *; lia).
    rewrite Hread. change (drop 0 data) with data.
    destruct (loop_state_utf8_text lines buffer pos Hst) as (sa & Ha & Hall).
    rewrite (decode_strict_ignore _ _ Ha), <- Hall.
    destruct (n <? _); [reflexivity|].
    rewrite read_back_at_start.
    destruct (all_lines data); [rewrite last_slice_nil|]; reflexivity.
  - (* a full chunk behind the start of the file *)
    assert (Hread : read_size = chunk_size) by (unfold read_size in *; lia).
    rewrite Hread.
    set (pos' := (pos - chunk_size)%nat) in *.
    destruct Hst as (Hlen & rest & Hdrop & Hrest).
    assert (Hchunk : drop pos' data
                     = take chunk_size (drop pos' data) ++ buffer ++ rest).
    { rewrite <- Hdrop. rewrite <- (take_drop chunk_size (drop pos' data)) at 1.
      rewrite drop_drop. f_equal. f_equal. unfold pos'. lia. }
    assert (Hk' : (pos' + S k * chunk_size = length data)%nat)
      by (unfold pos'; lia).
    assert (Hsep : LF ∈ take chunk_size (drop pos' data) ++ buffer).
    { apply elem_of_app. left. apply (separated pos' k); [|exact Hk'].
      unfold pos'; lia. }
    destruct (list_elem_of_split_l _ _ Hsep) as (frag & mid & Hcut & Hfrag).
    destruct (aligned pos' k) as [u Hu]; [unfold pos'; lia|exact Hk'|].
    assert (Hcut' : drop pos' data = frag ++ LF :: (mid ++ rest)).
    { rewrite Hchunk, app_assoc, Hcut, <- app_assoc. reflexivity. }
    rewrite Hcut' in Hu.
    destruct (decode_strict_prefix _ _ _ Hu) as [_ Hcons].
    destruct (Hcons _ eq_refl) as (sf & tm & Hsf & Htm & _).
    destruct (decode_strict_prefix _ _ _ Htm) as [Hmnil Hmcons].
    assert (Hmid : exists sm, decode_strict mid = Some sm
               /\ List.filter nonblank (split LF sm ++ lines)
                  = List.filter nonblank (split LF tm)).
    { destruct Hrest as [[-> ->] | (bs & text & -> & Ht & ->)].
      - exists tm. split; [apply Hmnil; reflexivity|].
        rewrite app_nil_r. reflexivity.
      - destruct (Hmcons bs eq_refl) as (sm & text' & Hsm & Ht' & ->).
        assert (text' = text) by congruence. subst text'.
        exists sm. split; [exact Hsm|].
        rewrite filter_filter_app, split_app_sep. reflexivity. }
    destruct Hmid as (sm & Hsm & Hlines).
    assert (Hdec : decode_strict (frag ++ LF :: mid) = Some (sf ++ LF :: sm)).
    { apply decode_strict_app; [exact Hsf|].
      apply decode_strict_ascii; [unfold LF; lia|exact Hsm]. }
    rewrite Hcut, (decode_strict_ignore _ _ Hdec), split_app_sep.
    rewrite (split_no_sep LF sf (decode_strict_no_sep frag sf Hsf Hfrag)).
    destruct (Nat.ltb_spec 0 pos'); [|lia].
    pose proof (split_nonempty LF sm) as Hnon.
    destruct (split LF sm) as [|m0 ms] eqn:Hsplit; [contradiction|].
    cbn [app length Nat.ltb Nat.leb andb hd tail]. cbv iota.
    rewrite (decode_encode_le (length frag) frag sf (le_n _) Hsf).
    cbn [mbind option_bind].
    assert (Hnext : loop_state_utf8 data
                      (List.filter nonblank ((m0 :: ms) ++ lines))
                      frag pos').
    { split; [unfold pos'; lia|]. exists (LF :: mid ++ rest).
      split; [exact Hcut'|]. right. exists (mid ++ rest), tm.
      split; [reflexivity|]. split; [exact Htm|exact Hlines]. }
    change ((m0 :: ms) ++ lines) with (m0 :: ms ++ lines) in Hnext.
    destruct (Z.ltb_spec n (Z.of_nat
                (length (List.filter nonblank (m0 :: ms ++ lines)))))
      as [Hover|Hunder].
    + f_equal. apply (loop_state_utf8_slice _ frag pos' Hnext). lia.
    + apply (IH _ _ _ (S k)); [unfold pos'; lia|assumption| |exact Hnext].
      unfold pos'. lia.
Qed.

End reverse_chunks_utf8.

(** X23: the backward reads of [get_last_lines] start a whole number of
    chunks before the end of the file.  On a file of valid UTF-8 text in
    which every such read that does not start the file holds a line feed
    and does not start inside a multi-byte character, the function returns
    the last [n] non-blank lines of the file. *)
Theorem aligned_chunks_of_utf8_give_the_final_lines
    (fs : OS.filesystem) (filepath : string) (i : Z)
    (data : Text.bytes) (whole : Text.str) (n : Z) :
  serves fs filepath i data -> data <> [] ->
  Text.decode_strict data = Some whole -> 1 <= n ->
  (forall q k, (0 < q)%nat ->
               (q + S k * ReverseReader.CHUNK_LIMIT = length data)%nat ->
               (Text.LF ∈ take ReverseReader.CHUNK_LIMIT (drop q data))
               /\ is_Some (Text.decode_strict (drop q data))) ->
  ReverseReader.get_last_lines fs filepath n
    = ReverseReader.final_lines data n.
Proof.
  intros Hfs Hne Hdec Hn Hreads. unfold ReverseReader.get_last_lines.
  rewrite (stat_exists _ _ _ (serves_stat _ _ _ _ Hfs)).
  rewrite (serves_open _ _ _ _ Hfs), (serves_data _ _ _ _ Hfs). simpl negb.
  cbv iota.
  assert (Hlen : (0 < length data)%nat)
    by (destruct data; [congruence|simpl; lia]).
  assert (Hlimit : (0 < ReverseReader.CHUNK_LIMIT)%nat)
    by (unfold ReverseReader.CHUNK_LIMIT; lia).
  destruct (Nat.eqb_spec (length data) 0); [lia|].
  assert (Hsmall : forall q k,
            (0 < q)%nat -> (length data < ReverseReader.CHUNK_LIMIT)%nat ->
            (q + S k * length data = length data)%nat -> False).
  { intros q k Hq _ Hk. rewrite Nat.mul_succ_l in Hk. lia. }
  rewrite (read_back_utf8 data whole n
             (Nat.min ReverseReader.CHUNK_LIMIT (length data)) Hdec Hn
             ltac:(lia)) with (k := 0%nat); try lia.
  - reflexivity.
  - intros q k Hq Hk.
    destruct (Nat.le_gt_cases ReverseReader.CHUNK_LIMIT (length data)).
    + rewrite Nat.min_l in * by assumption. apply (Hreads q k); assumption.
    + rewrite Nat.min_r in Hk by lia. exfalso. eapply Hsmall; eassumption.
  - intros q k Hq Hk.
    destruct (Nat.le_gt_cases ReverseReader.CHUNK_LIMIT (length data)).
    + rewrite Nat.min_l in * by assumption. apply (Hreads q k); assumption.
    + rewrite Nat.min_r in Hk by lia. exfalso. eapply Hsmall; eassumption.
  - split; [lia|]. exists []. split; [|left; auto].
    rewrite drop_all. reflexivity.
Qed.

Lemma accented_lines_separated :
  forall q, (0 < q)%nat ->
    (q + ReverseReader.CHUNK_LIMIT <= length Examples.accented_lines)%nat ->
    Text.LF ∈ take ReverseReader.CHUNK_LIMIT (drop q Examples.accented_lines).
Proof.
  assert (Hall : forallb (fun q =>
                   existsb (Z.eqb Text.LF)
                     (take ReverseReader.CHUNK_LIMIT
                        (drop q Examples.accented_lines)))
                   (seq 1 (length Examples.accented_lines
                           - ReverseReader.CHUNK_LIMIT)) = true)
    by (vm_compute; reflexivity).
  intros q Hq Hle. rewrite forallb_forall in Hall.
  specialize (Hall q). rewrite in_seq in Hall.
  assert (Hex : existsb (Z.eqb Text.LF)
                  (take ReverseReader.CHUNK_LIMIT (drop q Examples.accented_lines))
                = true) by (apply Hall; lia).
  apply existsb_exists in Hex. destruct Hex as (x & Hin & Hx).
  apply Z.eqb_eq in Hx. subst x. apply list_elem_of_In, Hin.
Qed.

Lemma accented_lines_aligned :
  forall k, (k * ReverseReader.CHUNK_LIMIT < length Examples.accented_lines)%nat ->
    is_Some (Text.decode_strict
               (drop (length Examples.accented_lines - k * ReverseReader.CHUNK_LIMIT)
                     Examples.accented_lines)).
Proof.
  assert (Hlen : (length Examples.accented_lines <? 2 * ReverseReader.CHUNK_LIMIT)%nat
                 = true) by (vm_compute; reflexivity).
  apply Nat.ltb_lt in Hlen.
  assert (Hone : match Text.decode_strict
                         (drop (length Examples.accented_lines
                                - 1 * ReverseReader.CHUNK_LIMIT)
                               Examples.accented_lines) with
                 | Some _ => true
                 | None => false
                 end = true) by (vm_compute; reflexivity).
  intros k Hk. destruct k as [|[|k]]; [| |nia].
  - rewrite Nat.mul_0_l, Nat.sub_0_r, drop_all. eexists; reflexivity.
  - destruct (Text.decode_strict _) as [s|]; [eexists; reflexivity|].
    discriminate Hone.
Qed.

Lemma accented_lines_reads :
  forall q k, (0 < q)%nat ->
    (q + S k * ReverseReader.CHUNK_LIMIT
     = length Examples.accented_lines)%nat ->
    (Text.LF ∈ take ReverseReader.CHUNK_LIMIT (drop q Examples.accented_lines))
    /\ is_Some (Text.decode_strict (drop q Examples.accented_lines)).
Proof.
  intros q k Hq Hk.
  assert (Hlimit : (0 < ReverseReader.CHUNK_LIMIT)%nat)
    by (unfold ReverseReader.CHUNK_LIMIT; lia).
  pose proof Hk as Hk'. rewrite Nat.mul_succ_l in Hk'.
  split.
  - apply accented_lines_separated; [exact Hq|]. lia.
  - replace q with (length Examples.accented_lines
                    - S k * ReverseReader.CHUNK_LIMIT)%nat by lia.
    apply accented_lines_aligned. lia.
Qed.

Lemma aligned_chunks_of_utf8_give_the_final_lines_witness :
  ReverseReader.get_last_lines
    (OS.single Examples.app_log 7 Examples.accented_lines) Examples.app_log 2
    = [[233; 97; 98]; [233; 97; 98]].
Proof.
  assert (Hdec : exists whole, Text.decode_strict Examples.accented_lines = Some whole).
  { destruct (Text.decode_strict Examples.accented_lines) as [s|] eqn:Hs;
      [eexists; reflexivity|].
    exfalso. vm_compute in Hs. discriminate Hs. }
  destruct Hdec as [whole Hdec].
  rewrite (aligned_chunks_of_utf8_give_the_final_lines
             (OS.single Examples.app_log 7 Examples.accented_lines)
             Examples.app_log 7 Examples.accented_lines whole 2
             (conj eq_refl eq_refl) ltac:(discriminate) Hdec ltac:(lia)
             accented_lines_reads).
  vm_compute. reflexivity.
Defined.
